(** * stats.py: summary statistics over a list of numbers read from stdin

    A shallow embedding of [stats.py] (count, minimum, median, mean, a
    configurable percentile and maximum of the numbers on standard input)
    and the properties of it that the specification states.

    Python's [float] is IEEE-754 binary64.  It is modelled by [spec_float]
    at precision 53 and maximal exponent 1024, with the bit-exact
    operations of [SpecFloat] (round to nearest, ties to even); Python's
    [int] is [Z]; [str] is [string] (ASCII text); an exception that is
    raised is a value of [exn] carried by [result]. *)

From Stdlib Require Import ZArith String Ascii List Bool Lia SpecFloat.
From Stdlib Require Import DecimalString DecimalPos Sorted Permutation.
Import ListNotations.
Open Scope Z_scope.

(** ** Exceptions *)

Inductive exn : Type :=
| ValueError
| IndexError
| OverflowError
| ZeroDivisionError
| TypeError
| SystemExit (code : Z).

Inductive result (A : Type) : Type :=
| Ok (a : A)
| Raise (e : exn).
Arguments Ok {A} a.
Arguments Raise {A} e.

Definition bind {A B : Type} (r : result A) (k : A -> result B) : result B :=
  match r with
  | Ok a => k a
  | Raise e => Raise e
  end.

Notation "x <- r ;; k" := (bind r (fun x => k))
  (at level 61, r at next level, right associativity).
Notation "' p <- r ;; k" := (bind r (fun x => let p := x in k))
  (at level 61, p pattern, r at next level, right associativity).

(** ** Binary64 floating-point numbers *)

Module F64.

Definition prec : Z := 53.
Definition emax : Z := 1024.

Definition float : Type := spec_float.

Definition valid (x : float) : bool := valid_binary prec emax x.

Definition add : float -> float -> float := SFadd prec emax.
Definition sub : float -> float -> float := SFsub prec emax.
Definition mul : float -> float -> float := SFmul prec emax.
Definition div : float -> float -> float := SFdiv prec emax.
Definition abs : float -> float := SFabs.
Definition ltb : float -> float -> bool := SFltb.
Definition leb : float -> float -> bool := SFleb.
Definition eqb : float -> float -> bool := SFeqb.

Definition is_nan (x : float) : bool :=
  match x with S754_nan => true | _ => false end.

Definition is_finite (x : float) : bool :=
  match x with S754_zero _ | S754_finite _ _ _ => true | _ => false end.

(** The sign bit ([false] for NaN, whose sign the program never sees). *)
Definition signbit (x : float) : bool :=
  match x with
  | S754_zero s | S754_infinity s | S754_finite s _ _ => s
  | S754_nan => false
  end.

(** The quotient [p / q] of two positive integers of any size, rounded
    once to the nearest binary64 (ties to even).  This is the rounding
    of CPython's integer true division and of its decimal-to-binary
    conversion, both of which are correctly rounded. *)
Definition of_ratio (s : bool) (p q : positive) : float :=
  let '(mz, ez, lz) := SFdiv_core_binary prec emax (Zpos p) 0 (Zpos q) 0 in
  binary_round_aux prec emax s mz ez lz.

(** The binary64 nearest to an integer. *)
Definition of_Z (n : Z) : float := binary_normalize prec emax n 0 false.

(** The integer part of the magnitude, rounded toward zero, with the
    sign put back: the value of C's cast from double to an integer. *)
Definition trunc (x : float) : Z :=
  match x with
  | S754_finite s m e => cond_Zopp s (Z.shiftl (Zpos m) e)
  | _ => 0
  end.

(** The largest integer not above the value. *)
Definition floor (x : float) : Z :=
  match x with
  | S754_finite s m e => Z.shiftl (cond_Zopp s (Zpos m)) e
  | _ => 0
  end.

End F64.

Abbreviation float := F64.float.

(** ** Python numbers

    [pct] reaches [stats] as the [int] 95 (the default) or as the [float]
    read after [-p]; the elements of [arr] are always [float]s. *)

Inductive pynum : Type :=
| PInt (z : Z)
| PFloat (f : float).

(** [float(n)] for an [int]: the nearest binary64, [OverflowError] when
    there is none. *)
Definition float_of_int (n : Z) : result float :=
  let x := F64.of_Z n in
  if F64.is_finite x then Ok x else Raise OverflowError.

(** [int(x)] for a [float]: truncation toward zero. *)
Definition int_of_float (x : float) : result Z :=
  match x with
  | S754_nan => Raise ValueError
  | S754_infinity _ => Raise OverflowError
  | _ => Ok (F64.trunc x)
  end.

(** The implicit conversion of an operand of mixed arithmetic. *)
Definition to_float (v : pynum) : result float :=
  match v with
  | PInt z => float_of_int z
  | PFloat f => Ok f
  end.

(** [a / b] on two [int]s: the exact quotient rounded once. *)
Definition int_truediv (a b : Z) : result float :=
  let s := xorb (a <? 0) (b <? 0) in
  match Z.abs a, Z.abs b with
  | _, Z0 => Raise ZeroDivisionError
  | Zpos p, Zpos q =>
      let x := F64.of_ratio s p q in
      if F64.is_finite x then Ok x else Raise OverflowError
  | _, _ => Ok (S754_zero s)
  end.

(** [a / b] on two [float]s. *)
Definition float_truediv (x y : float) : result float :=
  match y with
  | S754_zero _ => Raise ZeroDivisionError
  | _ => Ok (F64.div x y)
  end.

Definition py_mul (a b : pynum) : result pynum :=
  match a, b with
  | PInt x, PInt y => Ok (PInt (x * y))
  | _, _ => x <- to_float a ;; y <- to_float b ;; Ok (PFloat (F64.mul x y))
  end.

Definition py_sub (a b : pynum) : result pynum :=
  match a, b with
  | PInt x, PInt y => Ok (PInt (x - y))
  | _, _ => x <- to_float a ;; y <- to_float b ;; Ok (PFloat (F64.sub x y))
  end.

Definition py_truediv (a b : pynum) : result float :=
  match a, b with
  | PInt x, PInt y => int_truediv x y
  | _, _ => x <- to_float a ;; y <- to_float b ;; float_truediv x y
  end.

Definition py_int (a : pynum) : result Z :=
  match a with
  | PInt z => Ok z
  | PFloat f => int_of_float f
  end.

Definition py_abs (a : pynum) : pynum :=
  match a with
  | PInt z => PInt (Z.abs z)
  | PFloat f => PFloat (F64.abs f)
  end.

(** [a == 0] and [a > 50]: comparisons with a small [int], which is
    exactly representable, so that the comparison of a [float] with it
    is the comparison of two [float]s. *)
Definition py_eq_int (a : pynum) (k : Z) : bool :=
  match a with
  | PInt z => z =? k
  | PFloat f => F64.eqb f (F64.of_Z k)
  end.

Definition py_gt_int (a : pynum) (k : Z) : bool :=
  match a with
  | PInt z => k <? z
  | PFloat f => F64.ltb (F64.of_Z k) f
  end.

(** ** Lists

    [arr[i]]: a negative index counts from the end; [IndexError] outside
    the list. *)
Definition py_index {A : Type} (arr : list A) (i : Z) : result A :=
  let n := Z.of_nat (length arr) in
  let j := if i <? 0 then i + n else i in
  if (0 <=? j) && (j <? n) then
    match nth_error arr (Z.to_nat j) with
    | Some x => Ok x
    | None => Raise IndexError
    end
  else Raise IndexError.

(** [arr.sort()] on [float]s.  [list.sort] is stable and compares with
    [<] only.  On a list without NaN, [<] is a strict weak order and every
    stable sort returns the same list, the one computed here by stable
    insertion.  With a NaN in the list, which compares false with
    everything, the order the interpreter leaves depends on its run
    detection and merge strategy (it leaves [2.0, nan, 1.0] as it is,
    where the insertion gives [1.0, 2.0, nan]): of such a list [sort]
    gives the items, not their order, and what is proved of the order
    assumes a list without NaN. *)
Fixpoint insert (x : float) (l : list float) : list float :=
  match l with
  | [] => [x]
  | y :: t => if F64.ltb x y then x :: y :: t else y :: insert x t
  end.

Definition sort (l : list float) : list float :=
  fold_left (fun acc x => insert x acc) l [].

(** [sum(arr)]: the start value [0] and then the items, added from left
    to right, each addition rounded.  (Interpreters from 3.12 on carry a
    compensation term through the loop; the results agree whenever no
    addition rounds, and for lists of one or two items.) *)
Definition sum (arr : list float) : float :=
  fold_left F64.add arr (S754_zero false).

(** ** Text

    A text is a string of bytes.  The conversions [float] and [int] are
    modelled on texts of ASCII characters; a byte above 127 makes the
    model raise [ValueError], while the interpreter also reads the
    decimal digits and the white space of other scripts (of the
    Arabic-Indic digits one and two [float] makes [12.0]).  So what the
    model accepts the interpreter accepts too,
    and what is proved of a refused text assumes it is ASCII. *)

Definition dquote : string := String (ascii_of_nat 34) EmptyString.
Definition newline : ascii := ascii_of_nat 10.

Definition is_digit (c : ascii) : bool :=
  let n := N_of_ascii c in ((48 <=? n) && (n <=? 57))%N.

(** The characters that the conversions [float] and [int] strip at both
    ends: tab, line feed, vertical tab, form feed, carriage return and
    the space. *)
Definition is_space (c : ascii) : bool :=
  let n := N_of_ascii c in
  (((9 <=? n) && (n <=? 13)) || (n =? 32))%N.

Definition digit_value (c : ascii) : Z := Z.of_N (N_of_ascii c) - 48.

Definition digits_value (cs : list ascii) : Z :=
  fold_left (fun acc c => 10 * acc + digit_value c) cs 0.

Fixpoint span_digits (cs : list ascii) : list ascii * list ascii :=
  match cs with
  | c :: t =>
      if is_digit c then let '(d, r) := span_digits t in (c :: d, r)
      else ([], cs)
  | [] => ([], [])
  end.

Fixpoint lstrip (cs : list ascii) : list ascii :=
  match cs with
  | c :: t => if is_space c then lstrip t else cs
  | [] => []
  end.

Definition strip (cs : list ascii) : list ascii :=
  rev (lstrip (rev (lstrip cs))).

(** Underscores in a numeric literal: each one stands between two
    digits.  [prev] is the character before [cs]. *)
Fixpoint drop_underscores (prev : ascii) (cs : list ascii)
  : option (list ascii) :=
  match cs with
  | [] => if Ascii.eqb prev "_" then None else Some []
  | c :: t =>
      if Ascii.eqb c "_" then
        if is_digit prev then drop_underscores c t else None
      else if Ascii.eqb prev "_" && negb (is_digit c) then None
      else option_map (cons c) (drop_underscores c t)
  end.

Definition take_sign (cs : list ascii) : bool * list ascii :=
  match cs with
  | "-"%char :: t => (true, t)
  | "+"%char :: t => (false, t)
  | _ => (false, cs)
  end.

Definition lower (c : ascii) : ascii :=
  let n := N_of_ascii c in
  if ((65 <=? n) && (n <=? 90))%N then ascii_of_N (n + 32) else c.

(** An unsigned decimal literal [digits [. digits] [(e|E) [sign] digits]]
    with a digit before or after the point, as the pair [(n, k)] of the
    value [n * 10^k]. *)
Definition parse_decimal (cs : list ascii) : option (Z * Z) :=
  let '(ip, r1) := span_digits cs in
  let '(fp, r2) :=
    match r1 with
    | "."%char :: t => span_digits t
    | _ => ([], r1)
    end in
  match ip ++ fp with
  | [] => None
  | ds =>
      let n := digits_value ds in
      let k := - Z.of_nat (List.length fp) in
      match r2 with
      | [] => Some (n, k)
      | c :: t =>
          if Ascii.eqb (lower c) "e" then
            let '(s, t') := take_sign t in
            match span_digits t' with
            | ((_ :: _) as ed, []) =>
                Some (n, k + cond_Zopp s (digits_value ed))
            | _ => None
            end
          else None
      end
  end.

(** [n * 10^k] rounded once to binary64; an overflow gives an infinity. *)
Definition float_of_decimal (s : bool) (n k : Z) : float :=
  match n with
  | Zpos p =>
      match k with
      | Zneg q => F64.of_ratio s p (10 ^ q)
      | _ => F64.of_ratio s (p * Z.to_pos (10 ^ k)) 1
      end
  | _ => S754_zero s
  end.

(** [float(s)] for a [str] of ASCII characters. *)
Definition float_of_string (s : string) : result float :=
  match drop_underscores "000" (strip (list_ascii_of_string s)) with
  | None => Raise ValueError
  | Some cs =>
      let '(sg, body) := take_sign cs in
      let word := string_of_list_ascii (map lower body) in
      if String.eqb word "inf" || String.eqb word "infinity" then
        Ok (S754_infinity sg)
      else if String.eqb word "nan" then Ok S754_nan
      else
        match parse_decimal body with
        | Some (n, k) => Ok (float_of_decimal sg n k)
        | None => Raise ValueError
        end
  end.

(** [int(s)] for a [str] of ASCII characters, in base ten. *)
Definition int_of_string (s : string) : result Z :=
  match drop_underscores "000" (strip (list_ascii_of_string s)) with
  | None => Raise ValueError
  | Some cs =>
      let '(sg, body) := take_sign cs in
      match span_digits body with
      | ((_ :: _) as ds, []) => Ok (cond_Zopp sg (digits_value ds))
      | _ => Raise ValueError
      end
  end.

(** [str(n)] for an [int]. *)
Definition str_of_int (n : Z) : string := NilZero.string_of_int (Z.to_int n).

(** [s.rstrip("\n")]: every trailing line feed removed. *)
Fixpoint rstrip_newlines (s : string) : string :=
  match s with
  | EmptyString => EmptyString
  | String c t =>
      match rstrip_newlines t with
      | EmptyString => if Ascii.eqb c newline then EmptyString else String c EmptyString
      | t' => String c t'
      end
  end.

(** [s.split(" ")]: the pieces between single spaces; none is dropped. *)
Fixpoint split_space (s : string) : list string :=
  match s with
  | EmptyString => [EmptyString]
  | String c t =>
      if Ascii.eqb c " " then EmptyString :: split_space t
      else
        match split_space t with
        | w :: ws => String c w :: ws
        | [] => [String c EmptyString]
        end
  end.

(** ** Formatting

    [format_f d x] is the text of the [float] [x] under the format
    specification [.df]: the exact binary value rounded to [d] decimal
    places, ties to even. *)

Definition round_half_even_div (a b : Z) : Z :=
  let q := a / b in
  match 2 * (a mod b) ?= b with
  | Lt => q
  | Gt => q + 1
  | Eq => if Z.even q then q else q + 1
  end.

Definition scaled_decimal (d : Z) (m : positive) (e : Z) : Z :=
  if 0 <=? e then Zpos m * 2 ^ e * 10 ^ d
  else round_half_even_div (Zpos m * 10 ^ d) (2 ^ (- e)).

Fixpoint zeros (n : nat) : string :=
  match n with
  | O => EmptyString
  | S k => String "0" (zeros k)
  end.

(** The digits of [n >= 0] with a point before the last [d] of them. *)
Definition fixed_digits (d : nat) (n : Z) : string :=
  let ds := str_of_int n in
  let padded := (zeros (S d - String.length ds) ++ ds)%string in
  let ip := (String.length padded - d)%nat in
  match d with
  | O => padded
  | _ => (substring 0 ip padded ++ "." ++ substring ip d padded)%string
  end.

Definition sign_text (s : bool) : string := if s then "-"%string else EmptyString.

Definition format_f (d : Z) (x : float) : string :=
  match x with
  | S754_nan => "nan"
  | S754_infinity s => sign_text s ++ "inf"
  | S754_zero s => sign_text s ++ fixed_digits (Z.to_nat d) 0
  | S754_finite s m e =>
      sign_text s ++ fixed_digits (Z.to_nat d) (scaled_decimal d m e)
  end.

(** *** The [%] operator on a [str]

    with the conversions the program uses: [%s] of a [str], [%i] of a
    number (its integer part), [%.2f] of a number, and [%%]. *)

Inductive parg : Type :=
| AStr (s : string)
| ANum (v : pynum).

Fixpoint percent_format (tpl : string) (args : list parg) : result string :=
  match tpl with
  | EmptyString =>
      match args with
      | [] => Ok EmptyString
      | _ :: _ => Raise TypeError
      end
  | String "%" (String "%" t) =>
      r <- percent_format t args ;; Ok (String "%" r)
  | String "%" (String "s" t) =>
      match args with
      | AStr a :: args' => r <- percent_format t args' ;; Ok (a ++ r)%string
      | _ => Raise TypeError
      end
  | String "%" (String "i" t) =>
      match args with
      | ANum v :: args' =>
          z <- py_int v ;;
          r <- percent_format t args' ;; Ok (str_of_int z ++ r)%string
      | _ => Raise TypeError
      end
  | String "%" (String "." (String "2" (String "f" t))) =>
      match args with
      | ANum v :: args' =>
          x <- to_float v ;;
          r <- percent_format t args' ;; Ok (format_f 2 x ++ r)%string
      | _ => Raise TypeError
      end
  | String "%" _ => Raise ValueError
  | String c t => r <- percent_format t args ;; Ok (String c r)
  end.

(** *** [str.format]

    with replacement fields [{}], [{n}], [{:spec}] and [{n:spec}], the
    escapes [{{] and [}}], and the specifications the program builds: none
    for the [int], [.df] for a [float]. *)

Inductive fval : Type :=
| VInt (n : Z)
| VFloat (x : float).

Definition int_max : Z := 2147483647.

(** The precision [d] of a specification [.df]. *)
Definition parse_precision (spec : string) : option Z :=
  match list_ascii_of_string spec with
  | "."%char :: t =>
      match span_digits t with
      | ((_ :: _) as ds, ["f"%char]) => Some (digits_value ds)
      | _ => None
      end
  | _ => None
  end.

Definition apply_spec (spec : string) (v : fval) : result string :=
  match v with
  | VInt n =>
      match spec with
      | EmptyString => Ok (str_of_int n)
      | _ => Raise ValueError
      end
  | VFloat x =>
      match parse_precision spec with
      | Some d => if d <=? int_max then Ok (format_f d x) else Raise ValueError
      | None => Raise ValueError
      end
  end.

(** The argument a field names: by its number, or the next one when the
    name is empty; a string may not use both ways. [auto] is [None] until
    the first field, then says which way is in use; [next] counts the
    fields numbered automatically. *)
Definition select_arg (name : string) (auto : option bool) (next : nat)
    (args : list fval) : result (fval * option bool * nat) :=
  match name with
  | EmptyString =>
      match auto with
      | Some false => Raise ValueError
      | _ =>
          match nth_error args next with
          | Some v => Ok (v, Some true, S next)
          | None => Raise IndexError
          end
      end
  | _ =>
      match auto with
      | Some true => Raise ValueError
      | _ =>
          match span_digits (list_ascii_of_string name) with
          | (ds, []) =>
              match nth_error args (Z.to_nat (digits_value ds)) with
              | Some v => Ok (v, Some false, next)
              | None => Raise IndexError
              end
          | _ => Raise ValueError
          end
      end
  end.

Inductive fmode : Type :=
| InText
| InName (name : string)
| InSpec (name spec : string).

Definition snoc (s : string) (c : ascii) : string :=
  (s ++ String c EmptyString)%string.

Fixpoint format_from (mode : fmode) (auto : option bool) (next : nat)
    (fstr : string) (args : list fval) : result string :=
  match fstr with
  | EmptyString =>
      match mode with
      | InText => Ok EmptyString
      | _ => Raise ValueError
      end
  | String c t =>
      match mode with
      | InText =>
          if Ascii.eqb c "{" then
            match t with
            | String "{" t' =>
                r <- format_from InText auto next t' args ;; Ok (String "{" r)
            | _ => format_from (InName EmptyString) auto next t args
            end
          else if Ascii.eqb c "}" then
            match t with
            | String "}" t' =>
                r <- format_from InText auto next t' args ;; Ok (String "}" r)
            | _ => Raise ValueError
            end
          else r <- format_from InText auto next t args ;; Ok (String c r)
      | InName name =>
          if Ascii.eqb c "}" then
            '(v, auto', next') <- select_arg name auto next args ;;
            f <- apply_spec EmptyString v ;;
            r <- format_from InText auto' next' t args ;; Ok (f ++ r)%string
          else if Ascii.eqb c ":" then
            format_from (InSpec name EmptyString) auto next t args
          else if Ascii.eqb c "{" then Raise ValueError
          else format_from (InName (snoc name c)) auto next t args
      | InSpec name spec =>
          if Ascii.eqb c "}" then
            '(v, auto', next') <- select_arg name auto next args ;;
            f <- apply_spec spec v ;;
            r <- format_from InText auto' next' t args ;; Ok (f ++ r)%string
          else if Ascii.eqb c "{" then Raise ValueError
          else format_from (InSpec name (snoc spec c)) auto next t args
      end
  end.

Definition format (fstr : string) (args : list fval) : result string :=
  format_from InText None 0 fstr args.

(** ** The statistics: [stats]

    The local variables of [stats], each as a function of the ones it is
    computed from; [arr] is the list after [arr.sort()] and [aln] its
    length. *)

(** [prec = 1e-5] *)
Definition prec : float := Eval vm_compute in float_of_decimal false 1 (-5).

Definition one : float := Eval vm_compute in F64.of_Z 1.
Definition two : float := Eval vm_compute in F64.of_Z 2.

(** [middle = int(aln / 2)] *)
Definition middle (aln : Z) : result Z :=
  h <- int_truediv aln 2 ;; int_of_float h.

(** [med]: the middle item when [aln % 2] is not zero, otherwise half
    the sum of the two items in the middle. *)
Definition med (arr : list float) (aln middle : Z) : result float :=
  if negb (aln mod 2 =? 0) then py_index arr middle
  else
    a <- py_index arr (middle - 1) ;;
    b <- py_index arr middle ;;
    float_truediv (F64.add a b) two.

(** [avg = sum(arr) / aln] *)
Definition avg (arr : list float) (aln : Z) : result float :=
  py_truediv (PFloat (sum arr)) (PInt aln).

(** [pctpos = (aln - 1) * pct / 100] *)
Definition pctpos (aln : Z) (pct : pynum) : result float :=
  t <- py_mul (PInt (aln - 1)) pct ;; py_truediv t (PInt 100).

(** [pctposi = int(pctpos + prec)] *)
Definition pctposi (pctpos : float) : result Z :=
  int_of_float (F64.add pctpos prec).

(** [wgt = pctpos - pctposi] *)
Definition wgt (pctpos : float) (pctposi : Z) : result float :=
  y <- float_of_int pctposi ;; Ok (F64.sub pctpos y).

(** [pctl]: the item at [pctposi] when [abs(wgt) < prec], otherwise the
    interpolation between it and the next one. *)
Definition pctl (arr : list float) (pctposi : Z) (wgt : float)
  : result float :=
  if F64.ltb (F64.abs wgt) prec then py_index arr pctposi
  else
    hi <- py_index arr (pctposi + 1) ;;
    lo <- py_index arr pctposi ;;
    Ok (F64.add (F64.mul hi wgt) (F64.mul lo (F64.sub one wgt))).

(** [fmt = ".%if" % digi] *)
Definition fmt (digi : Z) : result string :=
  percent_format ".%if" [ANum (PInt digi)].

(** [pctfmt]: [pct] as an integer when it has no fractional part, with
    two decimals otherwise, and a percent sign. *)
Definition pctfmt (pct : pynum) : result string :=
  ip <- py_int pct ;;
  d <- py_sub pct (PInt ip) ;;
  if py_eq_int (py_abs d) 0 then percent_format "%i%%" [ANum pct]
  else percent_format "%.2f%%" [ANum pct].

(** [fstr]: the format string of the output line. *)
Definition fstr (pct : pynum) (machine : bool) (fmt pctfmt : string)
  : result string :=
  if machine then
    percent_format "{}|{:%s}|{:%s}|{:%s}|{:%s}|{:%s}"
      [AStr fmt; AStr fmt; AStr fmt; AStr fmt; AStr fmt]
  else if py_gt_int pct 50 then
    percent_format
      "Num {0} Min {1:%s} Med {2:%s} Avg {3:%s} %s {4:%s} Max {5:%s}"
      [AStr fmt; AStr fmt; AStr fmt; AStr pctfmt; AStr fmt; AStr fmt]
  else
    percent_format
      "Num {0} Min {1:%s} %s {4:%s} Med {2:%s} Avg {3:%s} Max {5:%s}"
      [AStr fmt; AStr pctfmt; AStr fmt; AStr fmt; AStr fmt; AStr fmt].

(** The six values of the output line, in the order of the arguments of
    [fstr.format]. *)
Record summary : Type := Summary {
  s_count : Z;
  s_min : float;
  s_med : float;
  s_avg : float;
  s_pctl : float;
  s_max : float
}.

(** Lines 19 to 31 and the arguments of line 59, on the sorted list. *)
Definition summarize (arr : list float) (aln : Z) (pct : pynum)
  : result summary :=
  middle <- middle aln ;;
  med <- med arr aln middle ;;
  avg <- avg arr aln ;;
  pctpos <- pctpos aln pct ;;
  pctposi <- pctposi pctpos ;;
  wgt <- wgt pctpos pctposi ;;
  pctl <- pctl arr pctposi wgt ;;
  lo <- py_index arr 0 ;;
  hi <- py_index arr (aln - 1) ;;
  Ok (Summary aln lo med avg pctl hi).

(** Lines 32 to 59: the text that [print] writes for a summary. *)
Definition render (v : summary) (pct : pynum) (digi : Z) (machine : bool)
  : result string :=
  fmt <- fmt digi ;;
  pctfmt <- pctfmt pct ;;
  fstr <- fstr pct machine fmt pctfmt ;;
  line <- format fstr
            [VInt (s_count v); VFloat (s_min v); VFloat (s_med v);
             VFloat (s_avg v); VFloat (s_pctl v); VFloat (s_max v)] ;;
  Ok (line ++ String newline EmptyString)%string.

(** [stats(arr, pct, digi, machine)].  The first component is the
    content of the list object [arr] when the call ends, sorted in place
    whether or not the call raises; the second is the text written to
    standard output, or the exception raised, in which case nothing has
    been written. *)
Definition stats (arr : list float) (pct : pynum) (digi : Z) (machine : bool)
  : list float * result string :=
  let aln := Z.of_nat (List.length arr) in
  let arr := sort arr in
  (arr, v <- summarize arr aln pct ;; render v pct digi machine).

(** ** The driver: [main] *)

Record options : Type := Options {
  o_pct : pynum;
  o_dig : Z;
  o_machine : bool
}.

Definition defaults : options := Options (PInt 95) 2 false.

Definition usage_template : string :=
  ("Error: Unknown option " ++ dquote ++ "%s" ++ dquote
   ++ ". Usage stats.py [-p pct] [-d dig] [-m] < data")%string.

(** The [while] loop over [argv]: the list is what is left from
    [optidx] on.  The result is the text printed and the options, or the
    exception that ends the loop. *)
Fixpoint parse_options (argv : list string) (o : options)
  : string * result options :=
  match argv with
  | [] => (EmptyString, Ok o)
  | a :: rest =>
      if String.eqb a "-p" then
        match rest with
        | [] => (EmptyString, Raise IndexError)
        | v :: rest' =>
            match float_of_string v with
            | Ok x => parse_options rest' (Options (PFloat x) (o_dig o) (o_machine o))
            | Raise e => (EmptyString, Raise e)
            end
        end
      else if String.eqb a "-d" then
        match rest with
        | [] => (EmptyString, Raise IndexError)
        | v :: rest' =>
            match int_of_string v with
            | Ok d => parse_options rest' (Options (o_pct o) d (o_machine o))
            | Raise e => (EmptyString, Raise e)
            end
        end
      else if String.eqb a "-m" then
        parse_options rest (Options (o_pct o) (o_dig o) true)
      else
        match percent_format usage_template [AStr a] with
        | Ok msg => ((msg ++ String newline EmptyString)%string, Raise (SystemExit 1))
        | Raise e => (EmptyString, Raise e)
        end
  end.

(** [list(map(float, tokens))]: the first token that does not convert
    ends the conversion. *)
Fixpoint floats_of_tokens (tokens : list string) : result (list float) :=
  match tokens with
  | [] => Ok []
  | t :: ts =>
      x <- float_of_string t ;; xs <- floats_of_tokens ts ;; Ok (x :: xs)
  end.

(** [sys.stdin.read().rstrip("\n").split(" ")] *)
Definition tokens (stdin : string) : list string :=
  split_space (rstrip_newlines stdin).

(** [main(argv)] with [stdin] the whole of standard input: the text
    written to standard output, and how the call ends. *)
Definition main (argv : list string) (stdin : string) : string * result unit :=
  match parse_options argv defaults with
  | (out, Raise e) => (out, Raise e)
  | (out, Ok o) =>
      match floats_of_tokens (tokens stdin) with
      | Raise e => (out, Raise e)
      | Ok arr =>
          match snd (stats arr (o_pct o) (o_dig o) (o_machine o)) with
          | Ok text => ((out ++ text)%string, Ok tt)
          | Raise e => (out, Raise e)
          end
      end
  end.

(** The exit status of the process running [main(sys.argv[1:])]: that of
    [sys.exit], 1 after any other exception (whose trace the interpreter
    writes to standard error), 0 otherwise. *)
Definition exit_status (r : result unit) : Z :=
  match r with
  | Ok _ => 0
  | Raise (SystemExit c) => c
  | Raise _ => 1
  end.

(** ** Vocabulary of the properties *)

(** The tokens that the option loop knows. *)
Definition is_option (tok : string) : bool :=
  String.eqb tok "-p" || String.eqb tok "-d" || String.eqb tok "-m".

(** The message printed for an unknown option. *)
Definition usage (tok : string) : string :=
  ("Error: Unknown option " ++ dquote ++ tok ++ dquote
   ++ ". Usage stats.py [-p pct] [-d dig] [-m] < data")%string.

(** The tokens of [argv] that the option loop would look at as options
    if nothing ended it early: every token but the one after a [-p] or a
    [-d]. *)
Fixpoint option_positions (argv : list string) : list string :=
  match argv with
  | [] => []
  | a :: rest =>
      a :: (if String.eqb a "-p" || String.eqb a "-d" then
              match rest with
              | [] => []
              | _ :: rest' => option_positions rest'
              end
            else option_positions rest)
  end.

(** A computation that does not end in [sys.exit]. *)
Definition no_exit {A : Type} (r : result A) : Prop :=
  forall c, r <> Raise (SystemExit c).

(** A list in which no item is less than an earlier one: what
    [arr.sort()] leaves. *)
Definition ascending : list float -> Prop :=
  StronglySorted (fun a b => F64.ltb b a = false).

(** A text without braces. *)
Fixpoint plain (s : string) : bool :=
  match s with
  | EmptyString => true
  | String c t => negb (Ascii.eqb c "{") && negb (Ascii.eqb c "}") && plain t
  end.

(** The three layouts of the output line for the values [v], with
    [digi] decimals and the percentile label [label]. *)
Definition machine_line (digi : Z) (v : summary) : string :=
  (str_of_int (s_count v) ++ "|" ++ format_f digi (s_min v)
   ++ "|" ++ format_f digi (s_med v) ++ "|" ++ format_f digi (s_avg v)
   ++ "|" ++ format_f digi (s_pctl v) ++ "|" ++ format_f digi (s_max v))%string.

Definition human_line_high (digi : Z) (label : string) (v : summary) : string :=
  ("Num " ++ str_of_int (s_count v) ++ " Min " ++ format_f digi (s_min v)
   ++ " Med " ++ format_f digi (s_med v) ++ " Avg " ++ format_f digi (s_avg v)
   ++ " " ++ label ++ " " ++ format_f digi (s_pctl v)
   ++ " Max " ++ format_f digi (s_max v))%string.

Definition human_line_low (digi : Z) (label : string) (v : summary) : string :=
  ("Num " ++ str_of_int (s_count v) ++ " Min " ++ format_f digi (s_min v)
   ++ " " ++ label ++ " " ++ format_f digi (s_pctl v)
   ++ " Med " ++ format_f digi (s_med v) ++ " Avg " ++ format_f digi (s_avg v)
   ++ " Max " ++ format_f digi (s_max v))%string.

Definition line_end : string := String newline EmptyString.

(** [a <= k] for a number and a small [int]. *)
Definition py_le_int (a : pynum) (k : Z) : bool :=
  match a with
  | PInt z => z <=? k
  | PFloat f => F64.leb f (F64.of_Z k)
  end.

(** ** Rounding to binary64, in integer arithmetic

    A description of [binary_round] by quotients and remainders, against
    which the operations of [SpecFloat] are proved below. *)

(** What [n] shifts leave of the integer [m]: the quotient by [2^n], and
    the position of the remainder with respect to the half. *)
Definition shifted (m : Z) (n : Z) : shr_record :=
  let rho := m mod 2 ^ n in
  Build_shr_record (m / 2 ^ n) (2 ^ n <=? 2 * rho)
    (negb (rho =? 0) && negb (2 * rho =? 2 ^ n)).

Definition fexp64 (e : Z) : Z := Z.max (e - 53) (-1074).

(** The mantissa [m / 2^n] rounded to nearest, ties to even. *)
Definition rne (m n : Z) : Z :=
  round_nearest_even (m / 2 ^ n) (loc_of_shr_record (shifted m n)).

Definition finite_or_inf (s : bool) (m e : Z) : float :=
  if e <=? 971 then
    match m with
    | Zpos p => S754_finite s p e
    | _ => S754_nan
    end
  else S754_infinity s.

(** The float nearest to [m * 2^e], for [m > 0]. *)
Definition round_ref (s : bool) (m e : Z) : float :=
  let n := fexp64 (Zdigits2 m + e) - e in
  if n <=? 0 then finite_or_inf s (m * 2 ^ (- n)) (e + n)
  else
    let r := rne m n in
    if r =? 0 then S754_zero s
    else if r <? 2 ^ 53 then finite_or_inf s r (e + n)
    else finite_or_inf s (2 ^ 52) (e + n + 1).

(** The float nearest to [z * 2^e], for any integer [z]. *)
Definition normalize_ref (z e : Z) : float :=
  match z with
  | Z0 => S754_zero false
  | Zpos _ => round_ref false z e
  | Zneg p => round_ref true (Zpos p) e
  end.

(** The exponent and the shift that the division chooses. *)
Definition div_exponent (m1 e1 m2 e2 : Z) : Z :=
  Z.min (fexp64 (Zdigits2 m1 + e1 - (Zdigits2 m2 + e2))) (e1 - e2).

(** [m * 2^e] with [m > 0] is a binary64 number. *)
Definition representable (m e : Z) : Prop :=
  0 < m /\ Zdigits2 m <= 53 /\ -1074 <= e /\ Zdigits2 m + e <= 1024.


(** ** The percentile on its own *)

(** Lines 25 to 31 of [stats]: the value of [pctl] for the sorted list
    [arr] of length [aln]. *)
Definition percentile (arr : list float) (aln : Z) (pct : pynum)
  : result float :=
  pctpos <- pctpos aln pct ;;
  pctposi <- pctposi pctpos ;;
  wgt <- wgt pctpos pctposi ;;
  pctl arr pctposi wgt.

(** The percentiles 0, 50 and 100 as [-p] reads them. *)
Definition zero : float := S754_zero false.
Definition fifty : float := Eval vm_compute in F64.of_Z 50.
Definition hundred : float := Eval vm_compute in F64.of_Z 100.
Definition half : float := Eval vm_compute in F64.div one two.

(** [pct] is the percentile [k], given as an [int] or read as a
    [float]. *)
Definition is_pct (k : Z) (pct : pynum) : Prop :=
  pct = PInt k \/ pct = PFloat (F64.of_Z k).

(** [pct] is the percentile 0: the [int], or the [float] of either
    sign. *)
Definition is_pct_zero (pct : pynum) : Prop :=
  pct = PInt 0 \/ exists s, pct = PFloat (S754_zero s).

(** ** The percentile as the specification words it

    Follows the specification, not the code: the rank
    [pos = (count - 1) * pct / 100], the index [posi = floor(pos + eps)]
    with [eps = 1e-5], the weight [pos - posi]; the item at [posi] when the
    weight is below [eps] in absolute value, otherwise the interpolation
    [arr[posi+1] * weight + arr[posi] * (1 - weight)].  The specification
    has the routine raise no error on a list that is not empty: an index
    past the last item stands for the last item. *)

(** The item at [i], counted from zero, the last item for an index past
    the end.  Only the empty list, which the specification leaves to
    fail, has none. *)
Definition item (arr : list float) (i : Z) : result float :=
  let last := Z.of_nat (List.length arr) - 1 in
  match nth_error arr (Z.to_nat (Z.min i last)) with
  | Some x => Ok x
  | None => Raise IndexError
  end.

Definition percentile_spec (arr : list float) (pct : pynum) : result float :=
  let count := Z.of_nat (List.length arr) in
  pos <- (t <- py_mul (PInt (count - 1)) pct ;; py_truediv t (PInt 100)) ;;
  let posi := F64.floor (F64.add pos prec) in
  let weight := F64.sub pos (F64.of_Z posi) in
  if F64.ltb (F64.abs weight) prec then item arr posi
  else
    hi <- item arr (posi + 1) ;;
    lo <- item arr posi ;;
    Ok (F64.add (F64.mul hi weight) (F64.mul lo (F64.sub one weight))).



(** A number that [stats] can be given: an [int], or a [float] in its
    canonical representation. *)
Definition valid_num (pct : pynum) : Prop :=
  match pct with
  | PInt _ => True
  | PFloat f => F64.valid f = true
  end.

(** The number [1e308] as [float] reads it, and one tenth. *)
Definition e308 : float := Eval vm_compute in float_of_decimal false 1 308.
Definition tenth : float := Eval vm_compute in float_of_decimal false 1 (-1).

(** A list without NaN. *)
Definition no_nan (arr : list float) : Prop :=
  Forall (fun z => F64.is_nan z = false) arr.

(** 360287970189644 items: the first count at which [pct = 100.0] reads
    past the end of the list. *)
Definition count_overrun : Z := 360287970189644.

(** 360287970189642 items: the first count at which [pct = 100.0] does
    not give the last item. *)
Definition count_inexact : Z := 360287970189642.

(** A float that [x * 0.5] halves exactly: a zero, or a finite number
    of magnitude at least [2^-1021], in its canonical representation. *)
Definition halvable (x : float) : Prop :=
  F64.valid x = true
  /\ match x with
     | S754_zero _ => True
     | S754_finite _ _ e => -1074 < e
     | _ => False
     end.

(** The smallest positive float, [5e-324]. *)
Definition tiny : float := Eval vm_compute in float_of_decimal false 5 (-324).

(** ** Finite floats as integers

    The value of a finite float in units of [2^-1075], half the smallest
    positive float. *)
Definition units (x : float) : Z :=
  match x with
  | S754_finite s m e => cond_Zopp s (Zpos m * 2 ^ (e + 1075))
  | _ => 0
  end.

(** The integers [v] for which [v * 2^-1075] would be a float if the
    exponent had no upper bound. *)
Definition grid (v : Z) : Prop :=
  exists m e, 0 <= m < 2 ^ 53 /\ -1074 <= e /\ Z.abs v = m * 2 ^ (e + 1075).

(** No float lies strictly between the float [x] and the rational
    [n / 2^k], in units of [2^-1075]: [x] is [n / 2^k] rounded, up or
    down. *)
Definition between (n k : Z) (x : float) : Prop :=
  forall v, grid v ->
    (v * 2 ^ k <= n -> v <= units x) /\ (n <= v * 2 ^ k -> units x <= v).

(** A list of floats in their canonical representation, as every
    operation of Python gives them. *)
Definition canonical (arr : list float) : Prop :=
  Forall (fun z => F64.valid z = true) arr.

(** ** Text of standard input *)

(** [" ".join(ws)] *)
Fixpoint join_space (ws : list string) : string :=
  match ws with
  | [] => EmptyString
  | w :: rest =>
      match rest with
      | [] => w
      | _ => (w ++ String " " (join_space rest))%string
      end
  end.

(** A text without a space. *)
Fixpoint spaceless (s : string) : bool :=
  match s with
  | EmptyString => true
  | String c t => negb (Ascii.eqb c " ") && spaceless t
  end.

(** The number of spaces of a text. *)
Fixpoint count_spaces (s : string) : nat :=
  match s with
  | EmptyString => O
  | String c t => ((if Ascii.eqb c " " then 1 else 0) + count_spaces t)%nat
  end.

(** [k] line feeds. *)
Fixpoint newlines (k : nat) : string :=
  match k with
  | O => EmptyString
  | S n => String newline (newlines n)
  end.

(** ** Lists and exceptions *)

(** A list without the negative zero. *)
Definition no_negative_zero (arr : list float) : Prop :=
  Forall (fun z => z <> S754_zero true) arr.

(** The result is normal, or one of the exceptions [allowed]. *)
Definition raises_only {A : Type} (allowed : exn -> Prop) (r : result A) : Prop :=
  forall e, r = Raise e -> allowed e.

(** The exceptions of [stats], and those of [main]. *)
Definition stats_errors (e : exn) : Prop :=
  e = ValueError \/ e = IndexError \/ e = OverflowError.

Definition main_errors (e : exn) : Prop :=
  stats_errors e \/ e = SystemExit 1.

(** ** The rounding of a quotient *)

(** The two bits that stand for a location below the last digit. *)
Definition loc_code (l : location) : Z :=
  match l with
  | loc_Exact => 0
  | loc_Inexact Lt => 1
  | loc_Inexact Eq => 2
  | loc_Inexact Gt => 3
  end.

(** The rounded quotient, as one rounding of an integer. *)
Definition quotient_ref (s : bool) (m1 : positive) (e1 : Z) (m2 : positive) (e2 : Z)
  : float :=
  let e' := div_exponent (Zpos m1) e1 (Zpos m2) e2 in
  let a := Zpos m1 * 2 ^ (e1 - e2 - e') in
  round_ref s (4 * (a / Zpos m2)
               + loc_code (new_location (Zpos m2) (a mod Zpos m2))) (e' - 2).

(** ** Percentiles that stay inside the list *)

Definition ninety_nine : float := Eval vm_compute in F64.of_Z 99.

(** [pct] lies in the interval from 0 to 99, both included. *)
Definition at_most_99 (pct : pynum) : Prop :=
  match pct with
  | PInt z => 0 <= z <= 99
  | PFloat f => F64.leb zero f = true /\ F64.leb f ninety_nine = true
  end.

(** ** One line of text *)



(** A text of ASCII characters only.  On such a text the conversions
    [float_of_string] and [int_of_string] accept what [float] and [int]
    accept; on other texts the interpreter also reads the decimal digits
    and the white space of other scripts. *)
Fixpoint ascii_text (s : string) : bool :=
  match s with
  | EmptyString => true
  | String c t => (N_of_ascii c <? 128)%N && ascii_text t
  end.

(** * Binary64 arithmetic *)

(** ** Number of binary digits *)

Lemma digits2_size m : digits2_pos m = Pos.size m.
Proof. induction m; simpl; congruence. Qed.

Lemma Zdigits2_bounds z : 0 < z -> 2 ^ (Zdigits2 z - 1) <= z < 2 ^ Zdigits2 z.
Proof.
  destruct z as [|m|m]; try lia. intros _. simpl Zdigits2. rewrite digits2_size.
  pose proof (Pos.size_gt m) as Hgt. pose proof (Pos.size_le m) as Hle.
  apply Pos2Z.pos_lt_pos in Hgt. apply Pos2Z.pos_le_pos in Hle.
  rewrite Pos2Z.inj_pow in Hgt, Hle.
  change (Z.pos 2) with 2 in *.
  replace (Z.pos (Pos.size m)) with (Z.pos (Pos.size m) - 1 + 1) in Hle at 1 by lia.
  rewrite Z.pow_add_r in Hle by lia. change (2 ^ 1) with 2 in Hle.
  rewrite (Pos2Z.inj_xO m) in Hle. lia.
Qed.

Lemma Zdigits2_unique z d : 2 ^ (d - 1) <= z < 2 ^ d -> 0 < z -> Zdigits2 z = d.
Proof.
  intros [H1 H2] Hz. pose proof (Zdigits2_bounds z Hz) as [B1 B2].
  assert (Hd : 0 < Zdigits2 z) by (destruct z; simpl; lia).
  assert (0 <= d).
  { destruct (Z_lt_le_dec d 0) as [Hn|]; [|assumption].
    rewrite (Z.pow_neg_r 2 d Hn) in H2. lia. }
  destruct (Z_lt_le_dec (Zdigits2 z) d) as [Hlt|Hge].
  - assert (2 ^ Zdigits2 z <= 2 ^ (d - 1)) by (apply Z.pow_le_mono_r; lia). lia.
  - destruct (Z_lt_le_dec d (Zdigits2 z)) as [Hlt|Hle]; [|lia].
    assert (2 ^ d <= 2 ^ (Zdigits2 z - 1)) by (apply Z.pow_le_mono_r; lia). lia.
Qed.

Lemma Zdigits2_pos z : 0 < z -> 0 < Zdigits2 z.
Proof. destruct z; simpl; lia. Qed.

Lemma Zdigits2_shift z k : 0 < z -> 0 <= k -> Zdigits2 (z * 2 ^ k) = Zdigits2 z + k.
Proof.
  intros Hz Hk. pose proof (Zdigits2_bounds z Hz) as [B1 B2].
  pose proof (Zdigits2_pos z Hz).
  assert (0 < 2 ^ k) by (apply Z.pow_pos_nonneg; lia).
  apply Zdigits2_unique; [|nia].
  replace (Zdigits2 z + k - 1) with (Zdigits2 z - 1 + k) by lia.
  rewrite !Z.pow_add_r by lia. nia.
Qed.

Lemma Zdigits2_le z d : 0 < z -> z < 2 ^ d -> Zdigits2 z <= d.
Proof.
  intros Hz H. pose proof (Zdigits2_bounds z Hz) as [B1 B2].
  destruct (Z_lt_le_dec d (Zdigits2 z)) as [Hlt|]; [|assumption].
  assert (0 <= d).
  { destruct (Z_lt_le_dec d 0) as [Hn|]; [|assumption].
    rewrite (Z.pow_neg_r 2 d Hn) in H. lia. }
  assert (2 ^ d <= 2 ^ (Zdigits2 z - 1)) by (apply Z.pow_le_mono_r; lia). lia.
Qed.

Lemma Zdigits2_mono a b : 0 < a -> a <= b -> Zdigits2 a <= Zdigits2 b.
Proof.
  intros Ha Hab. apply Zdigits2_le; [assumption|].
  pose proof (Zdigits2_bounds b ltac:(lia)). lia.
Qed.

(** ** Shifting a mantissa to the right *)

Lemma iter_pos_nat {A : Type} (f : A -> A) p : forall x,
  iter_pos f p x = Nat.iter (Pos.to_nat p) f x.
Proof.
  assert (Hs : forall n x, Nat.iter n f (f x) = f (Nat.iter n f x)).
  { induction n; intros x; simpl; [reflexivity | now rewrite IHn]. }
  assert (Ha : forall n m x, Nat.iter (n + m) f x = Nat.iter n f (Nat.iter m f x)).
  { induction n; intros m x; simpl; [reflexivity | now rewrite IHn]. }
  induction p as [p IH|p IH|]; intros x; cbn [iter_pos].
  - rewrite !IH, Pos2Nat.inj_xI.
    change (Nat.iter (S (2 * Pos.to_nat p)) f x)
      with (f (Nat.iter (2 * Pos.to_nat p) f x)).
    rewrite Hs.
    replace (2 * Pos.to_nat p)%nat with (Pos.to_nat p + Pos.to_nat p)%nat by lia.
    now rewrite Ha.
  - rewrite !IH, Pos2Nat.inj_xO.
    replace (2 * Pos.to_nat p)%nat with (Pos.to_nat p + Pos.to_nat p)%nat by lia.
    now rewrite Ha.
  - reflexivity.
Qed.

Lemma shr_1_nonneg m r s : 0 <= m ->
  shr_1 (Build_shr_record m r s)
  = Build_shr_record (m / 2) (Z.odd m) (r || s).
Proof.
  intros Hm. rewrite <- Z.div2_div.
  destruct m as [|p|p]; [reflexivity| |lia].
  destruct p; reflexivity.
Qed.

Lemma shr_iter m : 0 <= m -> forall n : nat,
  Nat.iter n shr_1 (Build_shr_record m false false) = shifted m (Z.of_nat n).
Proof.
  intros Hm. induction n as [|n IH].
  - unfold shifted. simpl. rewrite Z.mod_1_r, Z.div_1_r. reflexivity.
  - rewrite Nat.iter_succ, IH. unfold shifted.
    assert (Hp : 0 < 2 ^ Z.of_nat n) by (apply Z.pow_pos_nonneg; lia).
    rewrite shr_1_nonneg by (apply Z.div_pos; lia).
    rewrite Nat2Z.inj_succ, Z.pow_succ_r by lia.
    set (P := 2 ^ Z.of_nat n) in *.
    rewrite Z.div_div by lia.
    replace (P * 2) with (2 * P) by lia.
    pose proof (Z.rem_mul_r m P 2 ltac:(lia) ltac:(lia)) as Hr.
    replace (2 * P) with (P * 2) by lia. rewrite Hr.
    pose proof (Z.mod_pos_bound m P Hp) as Hb.
    pose proof (Zmod_odd (m / P)) as Ho.
    set (rho := m mod P) in *. set (q := m / P) in *.
    destruct (Z.odd q); rewrite Ho; f_equal.
    + symmetry. apply Z.leb_le. lia.
    + destruct (Z.leb_spec P (2 * rho)), (Z.eqb_spec rho 0), (Z.eqb_spec (2 * rho) P),
        (Z.eqb_spec (rho + P * 1) 0), (Z.eqb_spec (2 * (rho + P * 1)) (P * 2));
        simpl; try reflexivity; lia.
    + symmetry. apply Z.leb_gt. lia.
    + destruct (Z.leb_spec P (2 * rho)), (Z.eqb_spec rho 0), (Z.eqb_spec (2 * rho) P),
        (Z.eqb_spec (rho + P * 0) 0), (Z.eqb_spec (2 * (rho + P * 0)) (P * 2));
        simpl; try reflexivity; lia.
Qed.

Lemma shr_shifted m e n : 0 <= m -> 0 < n ->
  shr (Build_shr_record m false false) e n = (shifted m n, e + n).
Proof.
  intros Hm Hn. destruct n as [|p|p]; try lia. cbn [shr].
  rewrite iter_pos_nat, shr_iter by assumption.
  now rewrite positive_nat_Z.
Qed.

(** ** Rounding, in terms of integer arithmetic *)

Lemma fexp64_eq e : fexp F64.prec F64.emax e = fexp64 e.
Proof. reflexivity. Qed.

Lemma rne_bounds m n : 0 <= m -> 0 <= n -> m / 2 ^ n <= rne m n <= m / 2 ^ n + 1.
Proof.
  intros Hm Hn. unfold rne, shifted, loc_of_shr_record, round_nearest_even.
  destruct (2 ^ n <=? 2 * (m mod 2 ^ n)),
    (negb (m mod 2 ^ n =? 0) && negb (2 * (m mod 2 ^ n) =? 2 ^ n));
    try destruct (Z.even (m / 2 ^ n)); lia.
Qed.

Lemma shr_fexp_exact m e : 0 <= m ->
  shr_fexp F64.prec F64.emax m e loc_Exact
  = let n := fexp64 (Zdigits2 m + e) - e in
    if n <=? 0 then (Build_shr_record m false false, e)
    else (shifted m n, e + n).
Proof.
  intros Hm. unfold shr_fexp. rewrite fexp64_eq. cbn [shr_record_of_loc].
  cbv zeta. destruct (Z.leb_spec (fexp64 (Zdigits2 m + e) - e) 0) as [Hn|Hn].
  - destruct (fexp64 (Zdigits2 m + e) - e); try reflexivity. lia.
  - now apply shr_shifted.
Qed.

Lemma quotient_digits m n : 0 < m -> 0 <= n -> Zdigits2 m - 53 <= n ->
  m / 2 ^ n < 2 ^ 53.
Proof.
  intros Hm Hn Hd. pose proof (Zdigits2_bounds m Hm) as [_ B].
  assert (0 < 2 ^ n) by (apply Z.pow_pos_nonneg; lia).
  apply Z.div_lt_upper_bound; [lia|].
  rewrite <- Z.pow_add_r by lia.
  assert (2 ^ Zdigits2 m <= 2 ^ (n + 53)) by (apply Z.pow_le_mono_r; lia). lia.
Qed.

Theorem binary_round_aux_ref s m e :
  0 <= fexp64 (Zdigits2 (Zpos m) + e) - e ->
  binary_round_aux F64.prec F64.emax s (Zpos m) e loc_Exact
  = round_ref s (Zpos m) e.
Proof.
  intros Hn. unfold binary_round_aux, round_ref.
  rewrite shr_fexp_exact by lia. cbv zeta.
  set (n := fexp64 (Zdigits2 (Z.pos m) + e) - e) in *.
  assert (Hf : -1074 <= e + n /\ Zdigits2 (Z.pos m) - 53 <= n)
    by (unfold n, fexp64; lia).
  destruct (Z.leb_spec n 0) as [H0|H0].
  - assert (n = 0) by lia. 
    cbn [shr_m loc_of_shr_record round_nearest_even].
    rewrite shr_fexp_exact by lia. cbv zeta. fold n.
    replace (n <=? 0) with true by (symmetry; apply Z.leb_le; lia).
    cbn [shr_m]. unfold finite_or_inf. 
    replace (- n) with 0 by lia. rewrite Z.mul_1_r.
    replace (e + n) with e by lia. reflexivity.
  - change (round_nearest_even (shr_m (shifted (Z.pos m) n))
              (loc_of_shr_record (shifted (Z.pos m) n)))
      with (rne (Z.pos m) n).
    pose proof (rne_bounds (Z.pos m) n ltac:(lia) ltac:(lia)) as [R1 R2].
    pose proof (quotient_digits (Z.pos m) n ltac:(lia) ltac:(lia) ltac:(lia)) as Hq.
    assert (Hq0 : 0 <= Z.pos m / 2 ^ n) by (apply Z.div_pos; [lia | apply Z.pow_pos_nonneg; lia]).
    set (r := rne (Z.pos m) n) in *.
    rewrite shr_fexp_exact by lia. cbv zeta.
    destruct (Z.eqb_spec r 0) as [Hr0|Hr0].
    + rewrite Hr0. cbn [Zdigits2].
      replace (fexp64 (0 + (e + n)) - (e + n) <=? 0) with true
        by (symmetry; apply Z.leb_le; unfold fexp64; lia).
      reflexivity.
    + destruct (Z.ltb_spec r (2 ^ 53)) as [Hlt|Hge].
      * assert (Hd : Zdigits2 r <= 53) by (apply Zdigits2_le; lia).
        replace (fexp64 (Zdigits2 r + (e + n)) - (e + n) <=? 0) with true
          by (symmetry; apply Z.leb_le; unfold fexp64; lia).
        cbn [shr_m]. unfold finite_or_inf.
        destruct r; try lia. reflexivity.
      * assert (Hr : r = 2 ^ 53) by lia. rewrite Hr.
        change (Zdigits2 (2 ^ 53)) with 54.
        replace (fexp64 (54 + (e + n)) - (e + n)) with 1 by (unfold fexp64; lia).
        reflexivity.
Qed.

Lemma pos_iter_xO m d : Zpos (Pos.iter xO m d) = Zpos m * 2 ^ Zpos d.
Proof.
  revert m. induction d using Pos.peano_ind; intros m.
  - cbn [Pos.iter]. rewrite Pos2Z.inj_xO. lia.
  - rewrite Pos.iter_succ, Pos2Z.inj_xO, IHd, Pos2Z.inj_succ, Z.pow_succ_r by lia. lia.
Qed.

Theorem binary_round_ref s m e :
  binary_round F64.prec F64.emax s m e = round_ref s (Zpos m) e.
Proof.
  unfold binary_round, shl_align. rewrite fexp64_eq.
  change (Z.pos (digits2_pos m)) with (Zdigits2 (Z.pos m)).
  destruct (fexp64 (Zdigits2 (Z.pos m) + e) - e) as [|n|n] eqn:En.
  - apply binary_round_aux_ref. lia.
  - apply binary_round_aux_ref. lia.
  - rewrite binary_round_aux_ref.
    + unfold round_ref. rewrite pos_iter_xO.
      rewrite Zdigits2_shift by lia.
      replace (fexp64 (Zdigits2 (Z.pos m) + Z.pos n + fexp64 (Zdigits2 (Z.pos m) + e))
               - fexp64 (Zdigits2 (Z.pos m) + e)) with 0 by (unfold fexp64 in *; lia).
      rewrite En. cbn [Z.leb Z.compare Z.opp]. rewrite Z.pow_0_r, Z.mul_1_r, Z.add_0_r.
      f_equal. lia.
    + rewrite pos_iter_xO, Zdigits2_shift by lia. unfold fexp64 in *. lia.
Qed.

Lemma shifted_scale m n k : 0 <= m -> 0 <= n -> 0 <= k ->
  shifted (m * 2 ^ k) (n + k) = shifted m n.
Proof.
  intros Hm Hn Hk. unfold shifted.
  assert (Hpk : 0 < 2 ^ k) by (apply Z.pow_pos_nonneg; lia).
  assert (Hpn : 0 < 2 ^ n) by (apply Z.pow_pos_nonneg; lia).
  rewrite Z.pow_add_r by lia.
  rewrite Z.div_mul_cancel_r by lia.
  rewrite Z.mul_mod_distr_r by lia.
  pose proof (Z.mod_pos_bound m (2 ^ n) Hpn) as Hb.
  set (rho := m mod 2 ^ n) in *. set (P := 2 ^ n) in *. set (K := 2 ^ k) in *.
  f_equal.
  - destruct (Z.leb_spec (P * K) (2 * (rho * K))), (Z.leb_spec P (2 * rho));
      try reflexivity; nia.
  - destruct (Z.eqb_spec (rho * K) 0), (Z.eqb_spec rho 0),
      (Z.eqb_spec (2 * (rho * K)) (P * K)), (Z.eqb_spec (2 * rho) P);
      try reflexivity; nia.
Qed.

Lemma rne_scale m n k : 0 <= m -> 0 <= n -> 0 <= k ->
  rne (m * 2 ^ k) (n + k) = rne m n.
Proof.
  intros Hm Hn Hk. unfold rne. rewrite shifted_scale by assumption.
  assert (Hpk : 0 < 2 ^ k) by (apply Z.pow_pos_nonneg; lia).
  assert (Hpn : 0 < 2 ^ n) by (apply Z.pow_pos_nonneg; lia).
  now rewrite Z.pow_add_r, Z.div_mul_cancel_r by lia.
Qed.

Lemma rne_0 m : rne m 0 = m.
Proof.
  unfold rne, shifted. rewrite Z.pow_0_r, Z.mod_1_r, Z.div_1_r. reflexivity.
Qed.

Lemma rne_exact m n : 0 <= m -> 0 <= n -> rne (m * 2 ^ n) n = m.
Proof.
  intros Hm Hn. replace n with (0 + n) at 2 by lia.
  rewrite rne_scale by lia. apply rne_0.
Qed.

(** The rounding depends on the value [m * 2^e] only. *)
Theorem round_ref_scale s m e k : 0 < m -> 0 <= k ->
  round_ref s (m * 2 ^ k) e = round_ref s m (e + k).
Proof.
  intros Hm Hk. unfold round_ref.
  assert (Hpk : 0 < 2 ^ k) by (apply Z.pow_pos_nonneg; lia).
  rewrite Zdigits2_shift by lia.
  replace (Zdigits2 m + k + e) with (Zdigits2 m + (e + k)) by lia.
  set (E := fexp64 (Zdigits2 m + (e + k))).
  assert (HE : Zdigits2 m + (e + k) - 53 <= E) by (unfold E, fexp64; lia).
  replace (e + (E - e)) with E by lia.
  replace (e + k + (E - (e + k))) with E by lia.
  destruct (Z.leb_spec (E - e) 0) as [H1|H1].
  - replace (E - (e + k) <=? 0) with true by (symmetry; apply Z.leb_le; lia).
    f_equal. rewrite <- Z.mul_assoc, <- Z.pow_add_r by lia. f_equal. f_equal. lia.
  - destruct (Z.leb_spec (E - (e + k)) 0) as [H2|H2].
    + replace (m * 2 ^ k) with (m * 2 ^ (- (E - (e + k))) * 2 ^ (E - e))
        by (rewrite <- Z.mul_assoc, <- Z.pow_add_r by lia; f_equal; f_equal; lia).
      rewrite rne_exact;
        [ | apply Z.mul_nonneg_nonneg; [lia|apply Z.pow_nonneg; lia] | lia ].
      set (M := m * 2 ^ (- (E - (e + k)))).
      assert (HM : 0 < M) by (apply Z.mul_pos_pos; [lia | apply Z.pow_pos_nonneg; lia]).
      assert (HdM : Zdigits2 M <= 53)
        by (unfold M; rewrite Zdigits2_shift by lia; lia).
      pose proof (Zdigits2_bounds M HM) as [_ B].
      assert (2 ^ Zdigits2 M <= 2 ^ 53) by (apply Z.pow_le_mono_r; lia).
      replace (M =? 0) with false by (symmetry; apply Z.eqb_neq; lia).
      replace (M <? 2 ^ 53) with true by (symmetry; apply Z.ltb_lt; lia).
      reflexivity.
    + replace (E - e) with ((E - (e + k)) + k) by lia.
      rewrite rne_scale by lia. reflexivity.
Qed.

(** A valid finite float is what its own value rounds to. *)
Lemma round_ref_valid s m e :
  F64.valid (S754_finite s m e) = true ->
  round_ref s (Zpos m) e = S754_finite s m e.
Proof.
  unfold F64.valid, valid_binary, bounded, canonical_mantissa.
  rewrite fexp64_eq. change (Z.pos (digits2_pos m)) with (Zdigits2 (Z.pos m)).
  intros H. apply andb_prop in H as [H1 H2].
  apply Z.eqb_eq in H1. apply Z.leb_le in H2.
  unfold round_ref. rewrite H1, Z.sub_diag. cbn [Z.leb Z.compare Z.opp].
  rewrite Z.pow_0_r, Z.mul_1_r, Z.add_0_r. unfold finite_or_inf.
  replace (e <=? 971) with true by (symmetry; apply Z.leb_le; exact H2).
  reflexivity.
Qed.

Lemma valid_finite_inv s m e :
  F64.valid (S754_finite s m e) = true ->
  -1074 <= e <= 971 /\ Zdigits2 (Zpos m) <= 53
  /\ (Zdigits2 (Zpos m) = 53 \/ e = -1074).
Proof.
  unfold F64.valid, valid_binary, bounded, canonical_mantissa.
  rewrite fexp64_eq. change (Z.pos (digits2_pos m)) with (Zdigits2 (Z.pos m)).
  intros H. apply andb_prop in H as [H1 H2].
  apply Z.eqb_eq in H1. apply Z.leb_le in H2.
  unfold fexp64 in H1. change (F64.emax - F64.prec) with 971 in H2. lia.
Qed.

(** ** The operations *)

Lemma binary_normalize_ref z e :
  binary_normalize F64.prec F64.emax z e false = normalize_ref z e.
Proof. destruct z; simpl; auto using binary_round_ref. Qed.

Lemma of_Z_ref n : F64.of_Z n = normalize_ref n 0.
Proof. apply binary_normalize_ref. Qed.

Lemma shl_align_fst m e e' : e' <= e ->
  Zpos (fst (shl_align m e e')) = Zpos m * 2 ^ (e - e').
Proof.
  intros H. unfold shl_align. destruct (e' - e) as [|d|d] eqn:E; cbn [fst].
  - replace (e - e') with 0 by lia. lia.
  - lia.
  - rewrite pos_iter_xO. f_equal. f_equal. lia.
Qed.

Lemma add_finite sx mx ex sy my ey :
  F64.add (S754_finite sx mx ex) (S754_finite sy my ey)
  = normalize_ref
      (cond_Zopp sx (Zpos mx * 2 ^ (ex - Z.min ex ey))
       + cond_Zopp sy (Zpos my * 2 ^ (ey - Z.min ex ey)))
      (Z.min ex ey).
Proof.
  unfold F64.add, SFadd. cbv zeta.
  rewrite binary_normalize_ref, !shl_align_fst by lia. reflexivity.
Qed.

Lemma sub_finite sx mx ex sy my ey :
  F64.sub (S754_finite sx mx ex) (S754_finite sy my ey)
  = normalize_ref
      (cond_Zopp sx (Zpos mx * 2 ^ (ex - Z.min ex ey))
       - cond_Zopp sy (Zpos my * 2 ^ (ey - Z.min ex ey)))
      (Z.min ex ey).
Proof.
  unfold F64.sub, SFsub. cbv zeta.
  rewrite binary_normalize_ref, !shl_align_fst by lia. reflexivity.
Qed.

Lemma Zdigits2_mul_ge a b : 0 < a -> 0 < b ->
  Zdigits2 a + Zdigits2 b - 1 <= Zdigits2 (a * b).
Proof.
  intros Ha Hb.
  pose proof (Zdigits2_bounds a Ha) as [A1 _].
  pose proof (Zdigits2_bounds b Hb) as [B1 _].
  pose proof (Zdigits2_pos a Ha). pose proof (Zdigits2_pos b Hb).
  pose proof (Zdigits2_bounds (a * b) ltac:(nia)) as [_ C].
  destruct (Z_lt_le_dec (Zdigits2 (a * b)) (Zdigits2 a + Zdigits2 b - 1)) as [Hlt|]; [|assumption].
  assert (2 ^ Zdigits2 (a * b) <= 2 ^ (Zdigits2 a - 1 + (Zdigits2 b - 1)))
    by (apply Z.pow_le_mono_r; lia).
  rewrite Z.pow_add_r in * by lia.
  assert (0 < 2 ^ (Zdigits2 a - 1)) by (apply Z.pow_pos_nonneg; lia).
  assert (0 < 2 ^ (Zdigits2 b - 1)) by (apply Z.pow_pos_nonneg; lia).
  nia.
Qed.

Lemma mul_finite sx mx ex sy my ey :
  F64.valid (S754_finite sx mx ex) = true ->
  F64.valid (S754_finite sy my ey) = true ->
  F64.mul (S754_finite sx mx ex) (S754_finite sy my ey)
  = round_ref (xorb sx sy) (Zpos mx * Zpos my) (ex + ey).
Proof.
  intros Hx Hy. apply valid_finite_inv in Hx, Hy.
  unfold F64.mul, SFmul. rewrite Pos2Z.inj_mul.
  change (Z.pos mx * Z.pos my) with (Z.pos (mx * my)).
  apply binary_round_aux_ref. rewrite Pos2Z.inj_mul.
  pose proof (Zdigits2_mul_ge (Z.pos mx) (Z.pos my) ltac:(lia) ltac:(lia)).
  pose proof (Zdigits2_pos (Z.pos mx) ltac:(lia)).
  pose proof (Zdigits2_pos (Z.pos my) ltac:(lia)).
  unfold fexp64. lia.
Qed.

Lemma fexp64_mono a b : a <= b -> fexp64 a <= fexp64 b.
Proof. unfold fexp64; lia. Qed.

Lemma div_core_exact m1 e1 m2 e2 :
  let e' := div_exponent (Zpos m1) e1 (Zpos m2) e2 in
  let sh := e1 - e2 - e' in
  (Zpos m1 * 2 ^ sh) mod Zpos m2 = 0 ->
  SFdiv_core_binary F64.prec F64.emax (Zpos m1) e1 (Zpos m2) e2
  = (Zpos m1 * 2 ^ sh / Zpos m2, e', loc_Exact).
Proof.
  intros e' sh Hmod. unfold SFdiv_core_binary.
  rewrite fexp64_eq. fold (div_exponent (Zpos m1) e1 (Zpos m2) e2). fold e'. fold sh.
  assert (Hsh : 0 <= sh) by (unfold sh, e', div_exponent; lia).
  replace (match sh with
           | 0 => Z.pos m1
           | Z.pos _ => Z.shiftl (Z.pos m1) sh
           | Z.neg _ => 0
           end) with (Z.pos m1 * 2 ^ sh).
  2:{ destruct sh as [|p|p] eqn:E; [lia| |lia]. now rewrite Z.shiftl_mul_pow2 by lia. }
  pose proof (Z_div_mod (Z.pos m1 * 2 ^ sh) (Z.pos m2) ltac:(lia)) as Hd.
  unfold Z.div, Z.modulo in *.
  destruct (Z.div_eucl (Z.pos m1 * 2 ^ sh) (Z.pos m2)) as [q r].
  cbn [fst snd] in *. subst r.
  f_equal. unfold new_location, new_location_even, new_location_odd.
  destruct (Z.even (Z.pos m2)); reflexivity.
Qed.

Lemma exact_quotient_digits a sh b q :
  0 < a -> 0 < b -> 0 <= sh -> a * 2 ^ sh = q * b ->
  0 < q /\ Zdigits2 a + sh - Zdigits2 b <= Zdigits2 q.
Proof.
  intros Ha Hb Hsh Hq.
  assert (Hp : 0 < 2 ^ sh) by (apply Z.pow_pos_nonneg; lia).
  assert (Hq0 : 0 < q) by nia.
  split; [assumption|].
  pose proof (Zdigits2_bounds a Ha) as [A1 _].
  pose proof (Zdigits2_bounds b Hb) as [_ B2].
  pose proof (Zdigits2_bounds q Hq0) as [_ Q2].
  pose proof (Zdigits2_pos a Ha). pose proof (Zdigits2_pos b Hb).
  pose proof (Zdigits2_pos q Hq0).
  destruct (Z_lt_le_dec (Zdigits2 q) (Zdigits2 a + sh - Zdigits2 b)) as [Hlt|]; [|assumption].
  exfalso.
  assert (2 ^ (Zdigits2 q + Zdigits2 b) <= 2 ^ (Zdigits2 a - 1 + sh))
    by (apply Z.pow_le_mono_r; lia).
  rewrite !Z.pow_add_r in * by lia.
  assert (0 < 2 ^ (Zdigits2 a - 1)) by (apply Z.pow_pos_nonneg; lia).
  nia.
Qed.

Lemma div_finite_exact sx mx ex sy my ey :
  let e' := div_exponent (Zpos mx) ex (Zpos my) ey in
  let sh := ex - ey - e' in
  (Zpos mx * 2 ^ sh) mod Zpos my = 0 ->
  F64.div (S754_finite sx mx ex) (S754_finite sy my ey)
  = round_ref (xorb sx sy) (Zpos mx * 2 ^ sh / Zpos my) e'.
Proof.
  intros e' sh Hmod. unfold F64.div, SFdiv.
  rewrite (div_core_exact mx ex my ey Hmod). fold e'. fold sh.
  assert (Hsh : 0 <= sh) by (unfold sh, e', div_exponent; lia).
  assert (Hq : Zpos mx * 2 ^ sh = (Zpos mx * 2 ^ sh / Zpos my) * Zpos my).
  { apply Z.div_exact in Hmod; lia. }
  destruct (exact_quotient_digits (Zpos mx) sh (Zpos my) _
              (Pos2Z.is_pos mx) (Pos2Z.is_pos my) Hsh Hq) as [Hq0 Hd].
  destruct (Zpos mx * 2 ^ sh / Zpos my) as [|q|q] eqn:Eq; try lia.
  apply binary_round_aux_ref.
  assert (fexp64 (Zdigits2 (Zpos mx) + ex - (Zdigits2 (Zpos my) + ey))
          <= fexp64 (Zdigits2 (Z.pos q) + e')) by (apply fexp64_mono; lia).
  unfold e', div_exponent in *. lia.
Qed.

Lemma of_ratio_exact s p q :
  let e' := div_exponent (Zpos p) 0 (Zpos q) 0 in
  (Zpos p * 2 ^ (- e')) mod Zpos q = 0 ->
  F64.of_ratio s p q = round_ref s (Zpos p * 2 ^ (- e') / Zpos q) e'.
Proof.
  intros e' Hmod. unfold F64.of_ratio.
  pose proof (div_core_exact p 0 q 0) as H. cbv zeta in H. fold e' in H.
  replace (0 - 0 - e') with (- e') in H by lia.
  rewrite (H Hmod).
  assert (Hsh : 0 <= - e') by (unfold e', div_exponent; lia).
  assert (Hq : Zpos p * 2 ^ (- e') = (Zpos p * 2 ^ (- e') / Zpos q) * Zpos q).
  { apply Z.div_exact in Hmod; lia. }
  destruct (exact_quotient_digits (Zpos p) (- e') (Zpos q) _
              (Pos2Z.is_pos p) (Pos2Z.is_pos q) Hsh Hq) as [Hq0 Hd].
  destruct (Zpos p * 2 ^ (- e') / Zpos q) as [|r|r] eqn:Eq; try lia.
  apply binary_round_aux_ref.
  assert (fexp64 (Zdigits2 (Zpos p) + 0 - (Zdigits2 (Zpos q) + 0))
          <= fexp64 (Zdigits2 (Z.pos r) + e')) by (apply fexp64_mono; lia).
  unfold e', div_exponent in *. lia.
Qed.

(** ** Values that binary64 holds exactly *)

Lemma round_ref_repr s m e : representable m e ->
  exists p E,
    round_ref s m e = S754_finite s p E
    /\ Zpos p = m * 2 ^ (e - E) /\ E <= e
    /\ E = fexp64 (Zdigits2 m + e)
    /\ F64.valid (S754_finite s p E) = true.
Proof.
  intros (Hm & Hd & He & Hmax).
  set (E := fexp64 (Zdigits2 m + e)).
  assert (HE : E <= e /\ E <= 971 /\ -1074 <= E) by (unfold E, fexp64; lia).
  assert (Hp : 0 < m * 2 ^ (e - E))
    by (apply Z.mul_pos_pos; [lia | apply Z.pow_pos_nonneg; lia]).
  exists (Z.to_pos (m * 2 ^ (e - E))), E.
  assert (Hpos : Z.pos (Z.to_pos (m * 2 ^ (e - E))) = m * 2 ^ (e - E))
    by (apply Z2Pos.id; lia).
  repeat split; try lia.
  - unfold round_ref. fold E.
    replace (E - e <=? 0) with true by (symmetry; apply Z.leb_le; lia).
    unfold finite_or_inf.
    replace (e + (E - e) <=? 971) with true by (symmetry; apply Z.leb_le; lia).
    replace (- (E - e)) with (e - E) by lia.
    destruct (m * 2 ^ (e - E)) eqn:Em; try lia.
    replace (e + (E - e)) with E by lia. reflexivity.
  - unfold F64.valid, valid_binary, bounded, canonical_mantissa.
    rewrite fexp64_eq.
    change (Z.pos (digits2_pos (Z.to_pos (m * 2 ^ (e - E)))))
      with (Zdigits2 (Z.pos (Z.to_pos (m * 2 ^ (e - E))))).
    rewrite Hpos, Zdigits2_shift by lia.
    apply andb_true_intro; split.
    + apply Z.eqb_eq. replace (Zdigits2 m + (e - E) + E) with (Zdigits2 m + e) by lia.
      reflexivity.
    + apply Z.leb_le. change (F64.emax - F64.prec) with 971. lia.
Qed.

Lemma pow2_shift_eq a b x y A B :
  0 <= a -> 0 <= b -> 0 <= x -> 0 <= y ->
  A * 2 ^ a = B * 2 ^ b -> a + y = b + x -> A * 2 ^ x = B * 2 ^ y.
Proof.
  intros Ha Hb Hx Hy HAB Hs.
  assert (Hp : 0 < 2 ^ (a + y)) by (apply Z.pow_pos_nonneg; lia).
  apply (Z.mul_reg_r _ _ (2 ^ (a + y))); [lia|].
  rewrite <- !Z.mul_assoc, <- !Z.pow_add_r by lia.
  replace (x + (a + y)) with (a + (x + y)) by lia.
  replace (y + (a + y)) with (b + (x + y)) by lia.
  rewrite !Z.pow_add_r, !Z.mul_assoc by lia. now rewrite HAB.
Qed.

(** The product of two numbers held exactly is their exact product
    rounded once. *)
Theorem mul_exact s1 m1 e1 s2 m2 e2 :
  representable m1 e1 -> representable m2 e2 ->
  F64.mul (round_ref s1 m1 e1) (round_ref s2 m2 e2)
  = round_ref (xorb s1 s2) (m1 * m2) (e1 + e2).
Proof.
  intros H1 H2.
  destruct (round_ref_repr s1 m1 e1 H1) as (p1 & E1 & -> & P1 & L1 & _ & V1).
  destruct (round_ref_repr s2 m2 e2 H2) as (p2 & E2 & -> & P2 & L2 & _ & V2).
  destruct H1 as (Hm1 & _), H2 as (Hm2 & _).
  rewrite mul_finite by assumption. rewrite P1, P2.
  replace (m1 * 2 ^ (e1 - E1) * (m2 * 2 ^ (e2 - E2)))
    with (m1 * m2 * 2 ^ ((e1 - E1) + (e2 - E2)))
    by (rewrite Z.pow_add_r by lia; ring).
  rewrite round_ref_scale by nia. f_equal. lia.
Qed.

(** The quotient of two numbers held exactly, when it is itself held
    exactly, is that number. *)
Theorem div_exact s1 m1 e1 s2 m2 e2 c ec a b :
  representable m1 e1 -> representable m2 e2 -> representable c ec ->
  0 <= a -> 0 <= b -> m1 * 2 ^ a = c * m2 * 2 ^ b -> e1 - a = ec + e2 - b ->
  F64.div (round_ref s1 m1 e1) (round_ref s2 m2 e2)
  = round_ref (xorb s1 s2) c ec.
Proof.
  intros H1 H2 Hc Ha Hb Hab Hexp.
  destruct (round_ref_repr s1 m1 e1 H1) as (p1 & E1 & -> & P1 & L1 & F1 & V1).
  destruct (round_ref_repr s2 m2 e2 H2) as (p2 & E2 & -> & P2 & L2 & F2 & V2).
  destruct H1 as (Hm1 & Hd1 & He1 & Hx1), H2 as (Hm2 & Hd2 & He2 & Hx2).
  destruct Hc as (Hc0 & Hdc & Hec & Hxc).
  set (e' := div_exponent (Zpos p1) E1 (Zpos p2) E2).
  set (sh := E1 - E2 - e').
  assert (Hsh : 0 <= sh) by (unfold sh, e', div_exponent; lia).
  assert (D1 : Zdigits2 (Z.pos p1) = Zdigits2 m1 + (e1 - E1))
    by (rewrite P1; apply Zdigits2_shift; lia).
  assert (D2 : Zdigits2 (Z.pos p2) = Zdigits2 m2 + (e2 - E2))
    by (rewrite P2; apply Zdigits2_shift; lia).
  (* the magnitude of the quotient *)
  assert (Hmag : Zdigits2 m1 + e1 - (Zdigits2 m2 + e2) <= Zdigits2 c + ec).
  { pose proof (Zdigits2_bounds m1 Hm1) as [A1 _].
    pose proof (Zdigits2_bounds m2 Hm2) as [_ B2].
    pose proof (Zdigits2_bounds c Hc0) as [_ C2].
    pose proof (Zdigits2_pos m1 Hm1). pose proof (Zdigits2_pos m2 Hm2).
    pose proof (Zdigits2_pos c Hc0).
    destruct (Z_lt_le_dec (Zdigits2 c + ec) (Zdigits2 m1 + e1 - (Zdigits2 m2 + e2)))
      as [Hlt|]; [exfalso|lia].
    assert (Hpow : 2 ^ (Zdigits2 c + Zdigits2 m2 + b) <= 2 ^ (Zdigits2 m1 - 1 + a))
      by (apply Z.pow_le_mono_r; lia).
    rewrite !Z.pow_add_r in Hpow by lia.
    assert (0 < 2 ^ a) by (apply Z.pow_pos_nonneg; lia).
    assert (0 < 2 ^ b) by (apply Z.pow_pos_nonneg; lia).
    assert (0 < 2 ^ (Zdigits2 m1 - 1)) by (apply Z.pow_pos_nonneg; lia).
    assert (Hcm : c * m2 < 2 ^ Zdigits2 c * 2 ^ Zdigits2 m2) by nia.
    assert (c * m2 * 2 ^ b < 2 ^ Zdigits2 c * 2 ^ Zdigits2 m2 * 2 ^ b)
      by (apply Z.mul_lt_mono_pos_r; lia).
    assert (2 ^ (Zdigits2 m1 - 1) * 2 ^ a <= m1 * 2 ^ a)
      by (apply Z.mul_le_mono_nonneg_r; lia).
    lia. }
  assert (He' : e' <= ec).
  { assert (fexp64 (Zdigits2 (Z.pos p1) + E1 - (Zdigits2 (Z.pos p2) + E2))
            <= fexp64 (Zdigits2 c + ec)) by (apply fexp64_mono; lia).
    unfold e', div_exponent. unfold fexp64 in *. lia. }
  assert (HQ : Z.pos p1 * 2 ^ sh = c * 2 ^ (ec - e') * Z.pos p2).
  { rewrite P1, P2.
    replace (m1 * 2 ^ (e1 - E1) * 2 ^ sh) with (m1 * 2 ^ (e1 - E1 + sh))
      by (rewrite Z.pow_add_r by lia; ring).
    replace (c * 2 ^ (ec - e') * (m2 * 2 ^ (e2 - E2)))
      with (c * m2 * 2 ^ (ec - e' + (e2 - E2)))
      by (rewrite Z.pow_add_r by lia; ring).
    apply (pow2_shift_eq a b); unfold sh; lia. }
  assert (Hmod : (Z.pos p1 * 2 ^ sh) mod Z.pos p2 = 0).
  { rewrite HQ. apply Z.mod_mul. lia. }
  rewrite (div_finite_exact s1 p1 E1 s2 p2 E2 Hmod). fold e'. fold sh.
  rewrite HQ, Z.div_mul by lia.
  rewrite round_ref_scale by lia. f_equal. lia.
Qed.

Theorem of_ratio_exact_repr s p q c ec a b :
  representable c ec -> 0 <= a -> 0 <= b ->
  Zpos p * 2 ^ a = c * Zpos q * 2 ^ b -> - a = ec - b ->
  F64.of_ratio s p q = round_ref s c ec.
Proof.
  intros (Hc0 & Hdc & Hec & Hxc) Ha Hb Hab Hexp.
  set (e' := div_exponent (Zpos p) 0 (Zpos q) 0).
  assert (Hsh : 0 <= - e') by (unfold e', div_exponent; lia).
  assert (Hmag : Zdigits2 (Zpos p) - Zdigits2 (Zpos q) <= Zdigits2 c + ec).
  { pose proof (Zdigits2_bounds (Zpos p) ltac:(lia)) as [A1 _].
    pose proof (Zdigits2_bounds (Zpos q) ltac:(lia)) as [_ B2].
    pose proof (Zdigits2_bounds c Hc0) as [_ C2].
    pose proof (Zdigits2_pos (Zpos p) ltac:(lia)).
    pose proof (Zdigits2_pos (Zpos q) ltac:(lia)).
    pose proof (Zdigits2_pos c Hc0).
    destruct (Z_lt_le_dec (Zdigits2 c + ec) (Zdigits2 (Zpos p) - Zdigits2 (Zpos q)))
      as [Hlt|]; [exfalso|lia].
    assert (Hpow : 2 ^ (Zdigits2 c + Zdigits2 (Zpos q) + b)
                   <= 2 ^ (Zdigits2 (Zpos p) - 1 + a))
      by (apply Z.pow_le_mono_r; lia).
    rewrite !Z.pow_add_r in Hpow by lia.
    assert (0 < 2 ^ a) by (apply Z.pow_pos_nonneg; lia).
    assert (0 < 2 ^ b) by (apply Z.pow_pos_nonneg; lia).
    assert (0 < 2 ^ (Zdigits2 (Zpos p) - 1)) by (apply Z.pow_pos_nonneg; lia).
    assert (Hcm : c * Zpos q < 2 ^ Zdigits2 c * 2 ^ Zdigits2 (Zpos q)) by nia.
    assert (c * Zpos q * 2 ^ b < 2 ^ Zdigits2 c * 2 ^ Zdigits2 (Zpos q) * 2 ^ b)
      by (apply Z.mul_lt_mono_pos_r; lia).
    assert (2 ^ (Zdigits2 (Zpos p) - 1) * 2 ^ a <= Zpos p * 2 ^ a)
      by (apply Z.mul_le_mono_nonneg_r; lia).
    lia. }
  assert (He' : e' <= ec).
  { assert (fexp64 (Zdigits2 (Z.pos p) + 0 - (Zdigits2 (Z.pos q) + 0))
            <= fexp64 (Zdigits2 c + ec)) by (apply fexp64_mono; lia).
    unfold e', div_exponent. unfold fexp64 in *. lia. }
  assert (HQ : Z.pos p * 2 ^ (- e') = c * 2 ^ (ec - e') * Z.pos q).
  { replace (c * 2 ^ (ec - e') * Z.pos q) with (c * Z.pos q * 2 ^ (ec - e')) by ring.
    apply (pow2_shift_eq a b); lia. }
  assert (Hmod : (Z.pos p * 2 ^ (- e')) mod Z.pos q = 0).
  { rewrite HQ. apply Z.mod_mul. lia. }
  rewrite (of_ratio_exact s p q Hmod). fold e'.
  rewrite HQ, Z.div_mul by lia.
  rewrite round_ref_scale by lia. f_equal. lia.
Qed.

Lemma normalize_ref_scale z e k : 0 <= k ->
  normalize_ref (z * 2 ^ k) e = normalize_ref z (e + k).
Proof.
  intros Hk. assert (Hp : 0 < 2 ^ k) by (apply Z.pow_pos_nonneg; lia).
  destruct z as [|p|p].
  - reflexivity.
  - destruct (Z.pos p * 2 ^ k) eqn:E; try lia.
    unfold normalize_ref. rewrite <- E. apply round_ref_scale; lia.
  - destruct (Z.neg p * 2 ^ k) as [|r|r] eqn:E; try lia.
    unfold normalize_ref.
    replace (Z.pos r) with (Z.pos p * 2 ^ k) by lia.
    apply round_ref_scale; lia.
Qed.

Lemma round_ref_finite s m e : representable m e ->
  F64.is_finite (round_ref s m e) = true.
Proof.
  intros H. destruct (round_ref_repr s m e H) as (p & E & -> & _). reflexivity.
Qed.

(** The sum and the difference of two numbers held exactly are the
    exact sum and difference rounded once. *)
Theorem add_exact s1 m1 e1 s2 m2 e2 e0 :
  representable m1 e1 -> representable m2 e2 -> e0 <= e1 -> e0 <= e2 ->
  F64.add (round_ref s1 m1 e1) (round_ref s2 m2 e2)
  = normalize_ref (cond_Zopp s1 (m1 * 2 ^ (e1 - e0))
                   + cond_Zopp s2 (m2 * 2 ^ (e2 - e0))) e0.
Proof.
  intros H1 H2 L01 L02.
  destruct (round_ref_repr s1 m1 e1 H1) as (p1 & E1 & -> & P1 & L1 & _ & _).
  destruct (round_ref_repr s2 m2 e2 H2) as (p2 & E2 & -> & P2 & L2 & _ & _).
  rewrite add_finite, P1, P2.
  set (Ez := Z.min E1 E2). set (e00 := Z.min Ez e0).
  rewrite <- !Z.mul_assoc, <- !Z.pow_add_r by lia.
  replace (e1 - E1 + (E1 - Ez)) with (e1 - e00 - (Ez - e00)) by lia.
  replace (e2 - E2 + (E2 - Ez)) with (e2 - e00 - (Ez - e00)) by lia.
  replace Ez with (e00 + (Ez - e00)) at 3 by lia.
  replace e0 with (e00 + (e0 - e00)) at 3 by lia.
  rewrite <- !normalize_ref_scale by lia.
  f_equal. destruct s1, s2; cbn [cond_Zopp]; 
    rewrite ?Z.mul_add_distr_r, ?Z.mul_opp_l, <- ?Z.mul_assoc, <- ?Z.pow_add_r by lia;
    repeat (f_equal; try lia).
Qed.

Theorem sub_exact s1 m1 e1 s2 m2 e2 e0 :
  representable m1 e1 -> representable m2 e2 -> e0 <= e1 -> e0 <= e2 ->
  F64.sub (round_ref s1 m1 e1) (round_ref s2 m2 e2)
  = normalize_ref (cond_Zopp s1 (m1 * 2 ^ (e1 - e0))
                   - cond_Zopp s2 (m2 * 2 ^ (e2 - e0))) e0.
Proof.
  intros H1 H2 L01 L02.
  destruct (round_ref_repr s1 m1 e1 H1) as (p1 & E1 & -> & P1 & L1 & _ & _).
  destruct (round_ref_repr s2 m2 e2 H2) as (p2 & E2 & -> & P2 & L2 & _ & _).
  rewrite sub_finite, P1, P2.
  set (Ez := Z.min E1 E2). set (e00 := Z.min Ez e0).
  rewrite <- !Z.mul_assoc, <- !Z.pow_add_r by lia.
  replace (e1 - E1 + (E1 - Ez)) with (e1 - e00 - (Ez - e00)) by lia.
  replace (e2 - E2 + (E2 - Ez)) with (e2 - e00 - (Ez - e00)) by lia.
  replace Ez with (e00 + (Ez - e00)) at 3 by lia.
  replace e0 with (e00 + (e0 - e00)) at 3 by lia.
  rewrite <- !normalize_ref_scale by lia.
  f_equal. destruct s1, s2; cbn [cond_Zopp]; 
    rewrite ?Z.mul_sub_distr_r, ?Z.mul_add_distr_r, ?Z.mul_opp_l,
      <- ?Z.mul_assoc, <- ?Z.pow_add_r by lia;
    repeat (f_equal; try lia).
Qed.

(** ** Truncation *)

Lemma shiftl_carry E : E <= 0 -> Z.shiftl (2 ^ 52) (E + 1) = Z.shiftl (2 ^ 53) E.
Proof.
  intros HE. destruct (Z.eq_dec E 0) as [->|Hn]; [reflexivity|].
  rewrite !Z.shiftl_div_pow2 by lia.
  replace (- E) with (- (E + 1) + 1) by lia.
  rewrite Z.pow_add_r by lia. change (2 ^ 53) with (2 ^ 52 * 2 ^ 1).
  rewrite Z.div_mul_cancel_r; [reflexivity | | lia].
  assert (0 < 2 ^ (- (E + 1))) by (apply Z.pow_pos_nonneg; lia). lia.
Qed.

Lemma div_succ_same q K : 0 <= q -> 0 < K -> q mod K + 1 < K -> (q + 1) / K = q / K.
Proof.
  intros Hq HK H. symmetry.
  apply (Z.div_unique (q + 1) K (q / K) (q mod K + 1)).
  - left. pose proof (Z.mod_pos_bound q K HK). lia.
  - pose proof (Z.div_mod q K ltac:(lia)). lia.
Qed.

(** The integer part of a rounded sum is the integer part of the exact
    sum, when the rounding cannot reach the next integer. *)
Theorem int_of_round_ref M e :
  0 < M -> e <= 0 ->
  let E := fexp64 (Zdigits2 M + e) in
  E <= 0 ->
  (e < E -> M mod 2 ^ (- e) + 2 ^ (E - e) < 2 ^ (- e)) ->
  int_of_float (round_ref false M e) = Ok (M / 2 ^ (- e)).
Proof.
  intros HM He E HE Hfrac. unfold round_ref. fold E.
  assert (HK : 0 < 2 ^ (- E)) by (apply Z.pow_pos_nonneg; lia).
  destruct (Z.leb_spec (E - e) 0) as [Hn|Hn].
  - unfold finite_or_inf.
    replace (e + (E - e) <=? 971) with true by (symmetry; apply Z.leb_le; lia).
    assert (Hp : 0 < M * 2 ^ (- (E - e)))
      by (apply Z.mul_pos_pos; [lia | apply Z.pow_pos_nonneg; lia]).
    destruct (M * 2 ^ (- (E - e))) as [|p|p] eqn:Ep; try lia.
    cbn [int_of_float F64.trunc cond_Zopp]. f_equal.
    rewrite <- Ep. replace (e + (E - e)) with E by lia.
    rewrite Z.shiftl_div_pow2 by lia.
    replace (- E) with (- e + - (E - e)) by lia.
    rewrite Z.pow_add_r by lia.
    apply Z.div_mul_cancel_r; [|assert (0 < 2 ^ (- (E - e))) by (apply Z.pow_pos_nonneg; lia); lia].
    assert (0 < 2 ^ (- e)) by (apply Z.pow_pos_nonneg; lia). lia.
  - set (n := E - e) in *.
    pose proof (rne_bounds M n ltac:(lia) ltac:(lia)) as [R1 R2].
    assert (Hpn : 0 < 2 ^ n) by (apply Z.pow_pos_nonneg; lia).
    assert (Hq0 : 0 <= M / 2 ^ n) by (apply Z.div_pos; lia).
    assert (Hsplit : 2 ^ (- e) = 2 ^ n * 2 ^ (- E))
      by (rewrite <- Z.pow_add_r by lia; f_equal; lia).
    assert (Ht : M / 2 ^ (- e) = (M / 2 ^ n) / 2 ^ (- E))
      by (rewrite Hsplit, Z.div_div by lia; reflexivity).
    assert (Hcross : (M / 2 ^ n) mod 2 ^ (- E) + 1 < 2 ^ (- E)).
    { specialize (Hfrac ltac:(lia)). rewrite Hsplit in Hfrac.
      rewrite Z.rem_mul_r in Hfrac by lia.
      pose proof (Z.mod_pos_bound M (2 ^ n) Hpn).
      replace (E - e) with n in Hfrac by reflexivity. nia. }
    assert (HR : rne M n / 2 ^ (- E) = M / 2 ^ (- e)).
    { rewrite Ht. destruct (Z.eq_dec (rne M n) (M / 2 ^ n)) as [->|Hne]; [reflexivity|].
      replace (rne M n) with (M / 2 ^ n + 1) by lia.
      apply div_succ_same; lia. }
    set (r := rne M n) in *.
    replace (e + n) with E by (unfold n; lia).
    destruct (Z.eqb_spec r 0) as [Hr0|Hr0].
    + cbn [int_of_float F64.trunc]. f_equal. rewrite <- HR, Hr0. reflexivity.
    + destruct (Z.ltb_spec r (2 ^ 53)) as [Hlt|Hge]; unfold finite_or_inf.
      * replace (E <=? 971) with true by (symmetry; apply Z.leb_le; lia).
        destruct r as [|p|p] eqn:Er; try lia.
        cbn [int_of_float F64.trunc cond_Zopp]. f_equal.
        rewrite Z.shiftl_div_pow2 by lia. exact HR.
      * replace (E + 1 <=? 971) with true by (symmetry; apply Z.leb_le; lia).
        change (2 ^ 52) with (Z.pos (2 ^ 52)%positive) at 1.
        cbn [int_of_float F64.trunc cond_Zopp]. f_equal.
        change (Z.pos (2 ^ 52)) with (2 ^ 52).
        rewrite shiftl_carry by lia.
        pose proof (quotient_digits M n HM ltac:(lia)
                      ltac:(unfold n, E, fexp64; lia)) as Hq.
        replace (2 ^ 53) with r by lia.
        rewrite Z.shiftl_div_pow2 by lia. exact HR.
Qed.

(** * Sorting *)

Ltac cmp_cases :=
  repeat match goal with
  | H : context [Z.compare ?a ?b] |- _ => destruct (Z.compare_spec a b)
  | |- context [Z.compare ?a ?b] => destruct (Z.compare_spec a b)
  | H : context [Pos.compare_cont Eq ?a ?b] |- _ =>
      change (Pos.compare_cont Eq a b) with (Pos.compare a b) in *;
      destruct (Pos.compare_spec a b)
  | |- context [Pos.compare_cont Eq ?a ?b] =>
      change (Pos.compare_cont Eq a b) with (Pos.compare a b) in *;
      destruct (Pos.compare_spec a b)
  end.

Lemma ltb_trans x y z :
  F64.ltb x y = true -> F64.ltb y z = true -> F64.ltb x z = true.
Proof.
  unfold F64.ltb, SFltb.
  destruct x as [sx|sx| |sx mx ex], y as [sy|sy| |sy my ey], z as [sz|sz| |sz mz ez];
    simpl; try discriminate; try reflexivity;
    repeat match goal with s : bool |- _ => destruct s end;
    try discriminate; try reflexivity;
    intros H1 H2; cmp_cases; simpl in *; try discriminate; try reflexivity; try lia.
Qed.

Lemma ltb_asym x y : F64.ltb x y = true -> F64.ltb y x = false.
Proof.
  unfold F64.ltb, SFltb.
  destruct x as [sx|sx| |sx mx ex], y as [sy|sy| |sy my ey];
    simpl; try discriminate; try reflexivity;
    repeat match goal with s : bool |- _ => destruct s end;
    try discriminate; try reflexivity;
    intros H1; cmp_cases; simpl in *; try discriminate; try reflexivity; try lia.
Qed.


Lemma insert_ascending x l : ascending l -> ascending (insert x l).
Proof.
  unfold ascending. induction 1 as [|y t Ht IH Hy]; simpl.
  - constructor; constructor.
  - destruct (F64.ltb x y) eqn:E.
    + constructor; [now constructor|]. constructor; [now apply ltb_asym|].
      rewrite Forall_forall in *. intros z Hz.
      destruct (F64.ltb z x) eqn:Ezx; [|reflexivity].
      rewrite <- (Hy z Hz). symmetry. now apply ltb_trans with x.
    + constructor; [exact IH|].
      assert (Hin : forall z, In z (insert x t) -> z = x \/ In z t).
      { clear. induction t as [|a t IH]; simpl; intros z Hz.
        - destruct Hz; auto.
        - destruct (F64.ltb x a); simpl in Hz.
          + destruct Hz as [Hz|Hz]; auto.
          + destruct Hz as [Hz|Hz]; auto. destruct (IH z Hz); auto. }
      rewrite Forall_forall in *. intros z Hz.
      destruct (Hin z Hz) as [->|Hz']; auto.
Qed.

Lemma fold_insert_ascending l : forall acc,
  ascending acc -> ascending (fold_left (fun a x => insert x a) l acc).
Proof.
  induction l as [|x l IH]; simpl; intros acc H; [exact H|].
  apply IH. now apply insert_ascending.
Qed.

Lemma insert_length x l : List.length (insert x l) = S (List.length l).
Proof.
  induction l as [|y t IH]; simpl; [reflexivity|].
  destruct (F64.ltb x y); simpl; [reflexivity | now rewrite IH].
Qed.

Lemma fold_insert_length l : forall acc,
  List.length (fold_left (fun a x => insert x a) l acc)
  = (List.length l + List.length acc)%nat.
Proof.
  induction l as [|x l IH]; simpl; intros acc; [reflexivity|].
  rewrite IH, insert_length. lia.
Qed.

Lemma sort_length l : List.length (sort l) = List.length l.
Proof. unfold sort. rewrite fold_insert_length. simpl. lia. Qed.

Lemma sort_ascending l : ascending (sort l).
Proof. apply fold_insert_ascending. constructor. Qed.

Lemma insert_last x acc :
  Forall (fun a => F64.ltb x a = false) acc -> insert x acc = acc ++ [x].
Proof.
  induction 1 as [|a acc Ha _ IH]; simpl; [reflexivity|].
  now rewrite Ha, IH.
Qed.

Lemma ascending_app_inv l1 : forall l2,
  ascending (l1 ++ l2) ->
  ascending l1 /\ ascending l2
  /\ Forall (fun b => Forall (fun a => F64.ltb b a = false) l1) l2.
Proof.
  unfold ascending. induction l1 as [|a l1 IH]; simpl; intros l2 H.
  - repeat split; [constructor | exact H |].
    rewrite Forall_forall; intros; constructor.
  - inversion H as [|? ? Hs Ha]; subst.
    destruct (IH _ Hs) as (H1 & H2 & H3).
    apply Forall_app in Ha as [Ha1 Ha2].
    repeat split; [now constructor | exact H2 |].
    rewrite Forall_forall in *. intros b Hb. constructor; auto.
Qed.

Lemma fold_insert_fixed l : forall acc,
  ascending (acc ++ l) -> fold_left (fun a x => insert x a) l acc = acc ++ l.
Proof.
  induction l as [|x l IH]; simpl; intros acc H; [now rewrite app_nil_r|].
  destruct (ascending_app_inv acc (x :: l) H) as (_ & _ & Hx).
  inversion Hx as [|? ? Hxa _]; subst.
  rewrite (insert_last x acc Hxa).
  rewrite IH; rewrite <- app_assoc; [reflexivity | exact H].
Qed.

Lemma sort_fixed l : ascending l -> sort l = l.
Proof. intros H. apply (fold_insert_fixed l []). exact H. Qed.

Lemma sort_idempotent l : sort (sort l) = sort l.
Proof. apply sort_fixed, sort_ascending. Qed.

(** * Text: digits, formats *)


Lemma plain_app a b : plain (a ++ b) = plain a && plain b.
Proof.
  induction a as [|c a IH]; simpl; [reflexivity|].
  rewrite IH. now rewrite !andb_assoc.
Qed.

Lemma plain_substring s : forall n m, plain s = true -> plain (substring n m s) = true.
Proof.
  induction s as [|c s IH]; intros n m H; destruct n, m; simpl in *; auto.
  - apply andb_prop in H as [Hc Hs]. rewrite Hc. now apply (IH 0%nat m).
  - apply andb_prop in H as [Hc Hs]. now apply IH.
  - apply andb_prop in H as [Hc Hs]. now apply IH.
Qed.

Lemma plain_zeros n : plain (zeros n) = true.
Proof. induction n; simpl; auto. Qed.

Lemma plain_uint u : plain (NilEmpty.string_of_uint u) = true.
Proof. induction u; simpl; auto. Qed.

Lemma plain_str_of_int z : plain (str_of_int z) = true.
Proof.
  unfold str_of_int, NilZero.string_of_int, NilZero.string_of_uint.
  destruct (Z.to_int z) as [u|u]; destruct u; simpl; auto using plain_uint.
Qed.

Lemma plain_fixed_digits d n : plain (fixed_digits d n) = true.
Proof.
  unfold fixed_digits.
  assert (H : plain (zeros (S d - String.length (str_of_int n)) ++ str_of_int n) = true).
  { rewrite plain_app, plain_zeros, plain_str_of_int. reflexivity. }
  destruct d; [exact H|].
  rewrite !plain_app. rewrite !plain_substring by exact H. reflexivity.
Qed.

Lemma plain_format_f d x : plain (format_f d x) = true.
Proof.
  destruct x as [s|s| |s m e]; simpl; try reflexivity;
    destruct s; simpl; rewrite ?plain_fixed_digits; reflexivity.
Qed.

(** The decimal digits of a number read back. *)
Lemma digits_uint u :
  forallb is_digit (list_ascii_of_string (NilEmpty.string_of_uint u)) = true.
Proof. induction u; simpl; auto. Qed.

Lemma digits_value_acc u : forall acc,
  fold_left (fun a c => 10 * a + digit_value c)
    (list_ascii_of_string (NilEmpty.string_of_uint u)) (Zpos acc)
  = Zpos (Pos.of_uint_acc u acc).
Proof.
  induction u; intros acc;
    cbn [NilEmpty.string_of_uint list_ascii_of_string fold_left Pos.of_uint_acc];
    try reflexivity;
    rewrite <- IHu; f_equal; unfold digit_value;
    match goal with
    | |- context [N_of_ascii ?c] =>
        let v := eval vm_compute in (Z.of_N (N_of_ascii c)) in
        change (Z.of_N (N_of_ascii c)) with v
    end; lia.
Qed.

Lemma digits_value_uint u :
  digits_value (list_ascii_of_string (NilEmpty.string_of_uint u))
  = Z.of_N (Pos.of_uint u).
Proof.
  unfold digits_value.
  induction u;
    cbn [NilEmpty.string_of_uint list_ascii_of_string fold_left Pos.of_uint Z.of_N];
    try reflexivity; try exact IHu;
    rewrite <- digits_value_acc; f_equal.
Qed.

Lemma str_of_int_digits z : 0 <= z ->
  exists c ds,
    list_ascii_of_string (str_of_int z) = c :: ds
    /\ forallb is_digit (c :: ds) = true
    /\ digits_value (c :: ds) = z.
Proof.
  intros Hz. unfold str_of_int. destruct z as [|p|p]; [| |lia].
  - exists "0"%char, []. repeat split.
  - cbn [Z.to_int NilZero.string_of_int].
    pose proof (Unsigned.of_to p) as Hp.
    pose proof (digits_uint (Pos.to_uint p)) as Hd.
    pose proof (digits_value_uint (Pos.to_uint p)) as Hv.
    rewrite Hp in Hv. cbn [Z.of_N] in Hv.
    unfold NilZero.string_of_uint.
    destruct (Pos.to_uint p) eqn:E;
      [ simpl in Hp; discriminate | .. ];
      rewrite <- E in *;
      (destruct (list_ascii_of_string (NilEmpty.string_of_uint (Pos.to_uint p)))
        as [|c ds] eqn:El; [rewrite E in El; simpl in El; discriminate|]);
      exists c, ds; repeat split; assumption.
Qed.

Lemma list_ascii_app a b :
  list_ascii_of_string (a ++ b) = list_ascii_of_string a ++ list_ascii_of_string b.
Proof. induction a as [|c a IH]; simpl; [reflexivity | now rewrite IH]. Qed.

Lemma span_digits_app ds : forall c rest,
  forallb is_digit ds = true -> is_digit c = false ->
  span_digits (ds ++ c :: rest) = (ds, c :: rest).
Proof.
  induction ds as [|d ds IH]; simpl; intros c rest Hd Hc.
  - now rewrite Hc.
  - apply andb_prop in Hd as [H1 H2]. now rewrite H1, IH.
Qed.

Lemma parse_precision_fmt d : 0 <= d ->
  parse_precision (String "." (str_of_int d ++ "f")) = Some d.
Proof.
  intros Hd. destruct (str_of_int_digits d Hd) as (c & ds & E & Hdig & Hv).
  unfold parse_precision. cbn [list_ascii_of_string].
  rewrite list_ascii_app, E. cbn [list_ascii_of_string].
  rewrite (span_digits_app (c :: ds) "f" [] Hdig eq_refl).
  now rewrite Hv.
Qed.

Lemma fmt_text digi : fmt digi = Ok (String "." (str_of_int digi ++ "f")).
Proof. reflexivity. Qed.

Lemma apply_spec_fmt d x : 0 <= d <= int_max ->
  apply_spec (String "." (str_of_int d ++ "f")) (VFloat x) = Ok (format_f d x).
Proof.
  intros [H0 H1]. unfold apply_spec. rewrite parse_precision_fmt by exact H0.
  apply Z.leb_le in H1. now rewrite H1.
Qed.

(** *** How [str.format] reads a format string *)

Lemma string_app_assoc (a b c : string) : ((a ++ b) ++ c = a ++ (b ++ c))%string.
Proof. induction a as [|x a IH]; simpl; [reflexivity | now rewrite IH]. Qed.

Lemma string_app_nil_r (a : string) : (a ++ EmptyString)%string = a.
Proof. induction a as [|x a IH]; simpl; [reflexivity | now rewrite IH]. Qed.

(** Text without braces is copied. *)
Lemma format_text lit : forall auto next rest args,
  plain lit = true ->
  format_from InText auto next (lit ++ rest) args
  = r <- format_from InText auto next rest args ;; Ok (lit ++ r)%string.
Proof.
  induction lit as [|c lit IH]; intros auto next rest args H.
  - simpl. now destruct (format_from InText auto next rest args).
  - simpl in H. apply andb_prop in H as [H Hl]. apply andb_prop in H as [H1 H2].
    apply negb_true_iff in H1, H2.
    cbn [append format_from]. rewrite H1, H2, IH by exact Hl.
    now destruct (format_from InText auto next rest args).
Qed.

(** A specification without braces is read up to the closing brace. *)
Lemma format_spec spec : forall name acc auto next rest args,
  plain spec = true ->
  format_from (InSpec name acc) auto next (spec ++ String "}" rest) args
  = ' (v, auto', next') <- select_arg name auto next args ;;
    f <- apply_spec (acc ++ spec) v ;;
    r <- format_from InText auto' next' rest args ;; Ok (f ++ r)%string.
Proof.
  induction spec as [|c spec IH]; intros name acc auto next rest args H.
  - cbn [append format_from]. rewrite string_app_nil_r. reflexivity.
  - simpl in H. apply andb_prop in H as [H Hl]. apply andb_prop in H as [H1 H2].
    apply negb_true_iff in H1, H2.
    cbn [append format_from]. rewrite H1, H2, IH by exact Hl.
    unfold snoc. rewrite string_app_assoc. reflexivity.
Qed.

(** * The output line *)

Lemma plain_fmt digi : plain (String "." (str_of_int digi ++ "f")) = true.
Proof. cbn [plain]. rewrite plain_app, plain_str_of_int. reflexivity. Qed.

Lemma apply_spec_int n : apply_spec EmptyString (VInt n) = Ok (str_of_int n).
Proof. reflexivity. Qed.

Section Layout.

Variables (f label : string) (g : float -> string).
Hypothesis plain_f : plain f = true.
Hypothesis plain_label : plain label = true.
Hypothesis spec_f : forall x, apply_spec f (VFloat x) = Ok (g x).

Ltac format_steps :=
  repeat first
    [ rewrite format_spec by exact plain_f
    | rewrite (format_text label) by exact plain_label
    | rewrite spec_f
    | rewrite apply_spec_int
    | match goal with
      | |- context [select_arg ?nm ?au ?nx ?args] =>
          let r := eval vm_compute in (select_arg nm au nx args) in
          change (select_arg nm au nx args) with r
      end
    | progress cbn [format_from bind append Ascii.eqb Bool.eqb snoc] ].

Lemma format_machine n a b c d e :
  format ("{}|{:" ++ f ++ "}|{:" ++ f ++ "}|{:" ++ f ++ "}|{:" ++ f
          ++ "}|{:" ++ f ++ "}")
    [VInt n; VFloat a; VFloat b; VFloat c; VFloat d; VFloat e]
  = Ok (str_of_int n ++ "|" ++ g a ++ "|" ++ g b ++ "|" ++ g c ++ "|" ++ g d
        ++ "|" ++ g e)%string.
Proof.
  unfold format. format_steps. repeat f_equal; apply string_app_nil_r.
Qed.

Lemma format_human_high n a b c d e :
  format ("Num {0} Min {1:" ++ f ++ "} Med {2:" ++ f ++ "} Avg {3:" ++ f
          ++ "} " ++ label ++ " {4:" ++ f ++ "} Max {5:" ++ f ++ "}")
    [VInt n; VFloat a; VFloat b; VFloat c; VFloat d; VFloat e]
  = Ok ("Num " ++ str_of_int n ++ " Min " ++ g a ++ " Med " ++ g b
        ++ " Avg " ++ g c ++ " " ++ label ++ " " ++ g d ++ " Max " ++ g e)%string.
Proof.
  unfold format. format_steps. repeat f_equal; apply string_app_nil_r.
Qed.

Lemma format_human_low n a b c d e :
  format ("Num {0} Min {1:" ++ f ++ "} " ++ label ++ " {4:" ++ f
          ++ "} Med {2:" ++ f ++ "} Avg {3:" ++ f ++ "} Max {5:" ++ f ++ "}")
    [VInt n; VFloat a; VFloat b; VFloat c; VFloat d; VFloat e]
  = Ok ("Num " ++ str_of_int n ++ " Min " ++ g a ++ " " ++ label ++ " " ++ g d
        ++ " Med " ++ g b ++ " Avg " ++ g c ++ " Max " ++ g e)%string.
Proof.
  unfold format. format_steps. repeat f_equal; apply string_app_nil_r.
Qed.

End Layout.

Lemma render_machine v pct digi label :
  0 <= digi <= int_max -> pctfmt pct = Ok label ->
  render v pct digi true = Ok (machine_line digi v ++ line_end)%string.
Proof.
  intros Hd Hl. unfold render. rewrite fmt_text, Hl.
  cbn [bind fstr].
  set (f := String "." (str_of_int digi ++ "f")) in *.
  change (percent_format _ _) with
    (@Ok string ("{}|{:" ++ f ++ "}|{:" ++ f ++ "}|{:" ++ f ++ "}|{:" ++ f
            ++ "}|{:" ++ f ++ "}")%string).
  cbn [bind].
  rewrite (format_machine f (format_f digi) (plain_fmt digi)
             (fun x => apply_spec_fmt digi x Hd)).
  reflexivity.
Qed.

Lemma render_high v pct digi label :
  0 <= digi <= int_max -> pctfmt pct = Ok label -> plain label = true ->
  py_gt_int pct 50 = true ->
  render v pct digi false = Ok (human_line_high digi label v ++ line_end)%string.
Proof.
  intros Hd Hl Hp Hgt. unfold render. rewrite fmt_text, Hl.
  cbn [bind fstr]. rewrite Hgt.
  set (f := String "." (str_of_int digi ++ "f")) in *.
  change (percent_format _ _) with
    (@Ok string ("Num {0} Min {1:" ++ f ++ "} Med {2:" ++ f ++ "} Avg {3:" ++ f
            ++ "} " ++ label ++ " {4:" ++ f ++ "} Max {5:" ++ f ++ "}")%string).
  cbn [bind].
  rewrite (format_human_high f label (format_f digi) (plain_fmt digi) Hp
             (fun x => apply_spec_fmt digi x Hd)).
  reflexivity.
Qed.

Lemma render_low v pct digi label :
  0 <= digi <= int_max -> pctfmt pct = Ok label -> plain label = true ->
  py_gt_int pct 50 = false ->
  render v pct digi false = Ok (human_line_low digi label v ++ line_end)%string.
Proof.
  intros Hd Hl Hp Hgt. unfold render. rewrite fmt_text, Hl.
  cbn [bind fstr]. rewrite Hgt.
  set (f := String "." (str_of_int digi ++ "f")) in *.
  change (percent_format _ _) with
    (@Ok string ("Num {0} Min {1:" ++ f ++ "} " ++ label ++ " {4:" ++ f
            ++ "} Med {2:" ++ f ++ "} Avg {3:" ++ f ++ "} Max {5:" ++ f ++ "}")%string).
  cbn [bind].
  rewrite (format_human_low f label (format_f digi) (plain_fmt digi) Hp
             (fun x => apply_spec_fmt digi x Hd)).
  reflexivity.
Qed.

(** ** A number of digits that [str.format] refuses *)

Lemma parse_precision_negative d : d < 0 ->
  parse_precision (String "." (str_of_int d ++ "f")) = None.
Proof.
  intros Hd. destruct d as [|p|p]; try lia.
  unfold parse_precision, str_of_int.
  cbn [Z.to_int NilZero.string_of_int append list_ascii_of_string].
  reflexivity.
Qed.

Lemma apply_spec_refused d x : d < 0 \/ int_max < d ->
  apply_spec (String "." (str_of_int d ++ "f")) (VFloat x) = Raise ValueError.
Proof.
  intros [Hd|Hd]; unfold apply_spec.
  - now rewrite parse_precision_negative.
  - rewrite parse_precision_fmt by (unfold int_max in Hd; lia).
    now replace (d <=? int_max) with false by (symmetry; apply Z.leb_gt; lia).
Qed.

Section Refused.

Variables (f label : string).
Hypothesis plain_f : plain f = true.
Hypothesis plain_label : plain label = true.
Hypothesis spec_f : forall x, apply_spec f (VFloat x) = Raise ValueError.

Ltac refuse_steps :=
  repeat first
    [ rewrite format_spec by exact plain_f
    | rewrite spec_f
    | rewrite apply_spec_int
    | match goal with
      | |- context [select_arg ?nm ?au ?nx ?args] =>
          let r := eval vm_compute in (select_arg nm au nx args) in
          change (select_arg nm au nx args) with r
      end
    | progress cbn [format_from bind append Ascii.eqb Bool.eqb snoc] ].

Lemma format_machine_refused n a b c d e :
  format ("{}|{:" ++ f ++ "}|{:" ++ f ++ "}|{:" ++ f ++ "}|{:" ++ f
          ++ "}|{:" ++ f ++ "}")
    [VInt n; VFloat a; VFloat b; VFloat c; VFloat d; VFloat e]
  = Raise ValueError.
Proof. unfold format. refuse_steps. reflexivity. Qed.

Lemma format_human_high_refused n a b c d e :
  format ("Num {0} Min {1:" ++ f ++ "} Med {2:" ++ f ++ "} Avg {3:" ++ f
          ++ "} " ++ label ++ " {4:" ++ f ++ "} Max {5:" ++ f ++ "}")
    [VInt n; VFloat a; VFloat b; VFloat c; VFloat d; VFloat e]
  = Raise ValueError.
Proof. unfold format. refuse_steps. reflexivity. Qed.

Lemma format_human_low_refused n a b c d e :
  format ("Num {0} Min {1:" ++ f ++ "} " ++ label ++ " {4:" ++ f
          ++ "} Med {2:" ++ f ++ "} Avg {3:" ++ f ++ "} Max {5:" ++ f ++ "}")
    [VInt n; VFloat a; VFloat b; VFloat c; VFloat d; VFloat e]
  = Raise ValueError.
Proof. unfold format. refuse_steps. reflexivity. Qed.

End Refused.

Lemma render_refused v pct digi machine label :
  digi < 0 \/ int_max < digi -> pctfmt pct = Ok label -> plain label = true ->
  render v pct digi machine = Raise ValueError.
Proof.
  intros Hd Hl Hp. unfold render. rewrite fmt_text, Hl.
  set (f := String "." (str_of_int digi ++ "f")) in *.
  destruct machine; [|destruct (py_gt_int pct 50) eqn:Hgt]; cbn [bind fstr];
    try rewrite Hgt.
  - change (percent_format _ _) with
      (@Ok string ("{}|{:" ++ f ++ "}|{:" ++ f ++ "}|{:" ++ f ++ "}|{:" ++ f
              ++ "}|{:" ++ f ++ "}")%string).
    cbn [bind].
    now rewrite (format_machine_refused f (plain_fmt digi)
                   (fun x => apply_spec_refused digi x Hd)).
  - change (percent_format _ _) with
      (@Ok string ("Num {0} Min {1:" ++ f ++ "} Med {2:" ++ f ++ "} Avg {3:" ++ f
              ++ "} " ++ label ++ " {4:" ++ f ++ "} Max {5:" ++ f ++ "}")%string).
    cbn [bind].
    now rewrite (format_human_high_refused f label (plain_fmt digi)
                   (fun x => apply_spec_refused digi x Hd)).
  - change (percent_format _ _) with
      (@Ok string ("Num {0} Min {1:" ++ f ++ "} " ++ label ++ " {4:" ++ f
              ++ "} Med {2:" ++ f ++ "} Avg {3:" ++ f ++ "} Max {5:" ++ f ++ "}")%string).
    cbn [bind].
    now rewrite (format_human_low_refused f label (plain_fmt digi)
                   (fun x => apply_spec_refused digi x Hd)).
Qed.

Lemma leb_negb_ltb x y :
  F64.is_nan x = false -> F64.is_nan y = false ->
  F64.leb x y = negb (F64.ltb y x).
Proof.
  unfold F64.leb, F64.ltb, SFleb, SFltb.
  destruct x as [sx|sx| |sx mx ex], y as [sy|sy| |sy my ey];
    try discriminate; intros _ _; cbn [SFcompare];
    repeat match goal with s : bool |- _ => destruct s end;
    try reflexivity.
  - rewrite (Z.compare_antisym ex ey).
    destruct (Z.compare ex ey); cbn [CompOpp]; try reflexivity.
    change (Pos.compare_cont Eq my mx) with (Pos.compare my mx).
    change (Pos.compare_cont Eq mx my) with (Pos.compare mx my).
    rewrite (Pos.compare_antisym mx my).
    now destruct (Pos.compare mx my).
  - rewrite (Z.compare_antisym ex ey).
    destruct (Z.compare ex ey); cbn [CompOpp]; try reflexivity.
    change (Pos.compare_cont Eq my mx) with (Pos.compare my mx).
    change (Pos.compare_cont Eq mx my) with (Pos.compare mx my).
    rewrite (Pos.compare_antisym mx my).
    now destruct (Pos.compare mx my).
Qed.

Lemma py_gt_or_le pct :
  match pct with PInt _ => True | PFloat f => F64.is_finite f = true end ->
  py_le_int pct 50 = negb (py_gt_int pct 50).
Proof.
  destruct pct as [z|f]; cbn [py_le_int py_gt_int].
  - intros _. destruct (Z.leb_spec z 50), (Z.ltb_spec 50 z); try reflexivity; lia.
  - intros Hf. apply leb_negb_ltb; [now destruct f | reflexivity].
Qed.

(** * The driver *)

Lemma split_space_nonempty s : split_space s <> [].
Proof.
  destruct s as [|c t]; simpl; [discriminate|].
  destruct (Ascii.eqb c " "); [discriminate|].
  destruct (split_space t); discriminate.
Qed.

Lemma floats_of_tokens_length ts : forall arr,
  floats_of_tokens ts = Ok arr -> List.length arr = List.length ts.
Proof.
  induction ts as [|t ts IH]; simpl; intros arr H.
  - now inversion H.
  - destruct (float_of_string t); simpl in H; [|discriminate].
    destruct (floats_of_tokens ts) as [xs|]; simpl in H; [|discriminate].
    inversion H; subst; simpl. now rewrite (IH xs eq_refl).
Qed.


Lemma usage_message tok : percent_format usage_template [AStr tok] = Ok (usage tok).
Proof.
  unfold usage_template, usage, dquote. cbn. reflexivity.
Qed.

Lemma parse_options_unknown tok rest o :
  is_option tok = false ->
  parse_options (tok :: rest) o
  = ((usage tok ++ String newline EmptyString)%string, Raise (SystemExit 1)).
Proof.
  unfold is_option. intros H.
  apply orb_false_elim in H as [H Hm]. apply orb_false_elim in H as [Hp Hd].
  cbn [parse_options]. rewrite Hp, Hd, Hm, usage_message. reflexivity.
Qed.

(** Options that are read without an exception do not change what the
    loop does with the rest. *)
Lemma parse_options_app pre : forall o o' rest,
  parse_options pre o = (EmptyString, Ok o') ->
  parse_options (pre ++ rest) o = parse_options rest o'.
Proof.
  assert (H : forall n pre, (List.length pre <= n)%nat -> forall o o' rest,
             parse_options pre o = (EmptyString, Ok o') ->
             parse_options (pre ++ rest) o = parse_options rest o').
  { induction n as [|n IH]; intros p Hlen o o' rest Hp.
    - destruct p; [|simpl in Hlen; lia]. simpl in *. now inversion Hp.
    - destruct p as [|a p]; [simpl in *; now inversion Hp|].
      cbn [parse_options app] in *.
      destruct (String.eqb a "-p").
      { destruct p as [|v p]; [discriminate|]. cbn [app].
        destruct (float_of_string v); [|discriminate].
        apply IH; [simpl in Hlen; lia|assumption]. }
      destruct (String.eqb a "-d").
      { destruct p as [|v p]; [discriminate|]. cbn [app].
        destruct (int_of_string v); [|discriminate].
        apply IH; [simpl in Hlen; lia|assumption]. }
      destruct (String.eqb a "-m").
      { apply IH; [simpl in Hlen; lia|assumption]. }
      destruct (percent_format usage_template [AStr a]); discriminate. }
  intros; eapply H; eauto.
Qed.

Lemma float_of_string_raises s e : float_of_string s = Raise e -> e = ValueError.
Proof.
  unfold float_of_string.
  destruct (drop_underscores _ _); [|intros H; now inversion H].
  destruct (take_sign l) as [sg body].
  destruct (_ || _); [discriminate|].
  destruct (String.eqb _ "nan"); [discriminate|].
  destruct (parse_decimal body) as [[n k]|]; [discriminate|].
  intros H; now inversion H.
Qed.

Lemma int_of_string_raises s e : int_of_string s = Raise e -> e = ValueError.
Proof.
  unfold int_of_string.
  destruct (drop_underscores _ _); [|intros H; now inversion H].
  destruct (take_sign l) as [sg body].
  destruct (span_digits body) as [[|d ds] [|r rs]];
    try discriminate; intros H; now inversion H.
Qed.

Lemma parse_options_exit argv : forall o out c,
  parse_options argv o = (out, Raise (SystemExit c)) ->
  c = 1 /\ exists pre o' tok post,
    argv = pre ++ tok :: post /\ parse_options pre o = (EmptyString, Ok o') /\
    is_option tok = false /\
    out = (usage tok ++ String newline EmptyString)%string.
Proof.
  assert (H : forall n argv, (List.length argv <= n)%nat -> forall o out c,
    parse_options argv o = (out, Raise (SystemExit c)) ->
    c = 1 /\ exists pre o' tok post,
      argv = pre ++ tok :: post /\ parse_options pre o = (EmptyString, Ok o') /\
      is_option tok = false /\
      out = (usage tok ++ String newline EmptyString)%string).
  { induction n as [|n IH]; intros p Hlen o out c Hp.
    - destruct p; [|simpl in Hlen; lia]. discriminate.
    - destruct p as [|a p]; [discriminate|].
      cbn [parse_options] in Hp.
      destruct (String.eqb a "-p") eqn:Ep.
      { destruct p as [|v p]; [discriminate|].
        destruct (float_of_string v) eqn:Ev.
        - apply IH in Hp; [|simpl in Hlen; lia].
          destruct Hp as [-> (pre & o' & tok & post & -> & Hpre & Htok & ->)].
          split; [reflexivity|]. exists (a :: v :: pre), o', tok, post.
          repeat split; auto. cbn [parse_options]. now rewrite Ep, Ev.
        - inversion Hp; subst. apply float_of_string_raises in Ev. discriminate. }
      destruct (String.eqb a "-d") eqn:Ed.
      { destruct p as [|v p]; [discriminate|].
        destruct (int_of_string v) eqn:Ev.
        - apply IH in Hp; [|simpl in Hlen; lia].
          destruct Hp as [-> (pre & o' & tok & post & -> & Hpre & Htok & ->)].
          split; [reflexivity|]. exists (a :: v :: pre), o', tok, post.
          repeat split; auto. cbn [parse_options]. now rewrite Ep, Ed, Ev.
        - inversion Hp; subst. apply int_of_string_raises in Ev. discriminate. }
      destruct (String.eqb a "-m") eqn:Em.
      { apply IH in Hp; [|simpl in Hlen; lia].
        destruct Hp as [-> (pre & o' & tok & post & -> & Hpre & Htok & ->)].
        split; [reflexivity|]. exists (a :: pre), o', tok, post.
        repeat split; auto. cbn [parse_options]. now rewrite Ep, Ed, Em. }
      rewrite usage_message in Hp. inversion Hp; subst.
      split; [reflexivity|]. exists [], o, a, p.
      repeat split; auto. unfold is_option. now rewrite Ep, Ed, Em. }
  intros; eapply H; eauto.
Qed.



Lemma no_exit_ok {A : Type} (a : A) : no_exit (Ok a).
Proof. intros c; discriminate. Qed.

Lemma no_exit_raise {A : Type} (e : exn) :
  (forall c, e <> SystemExit c) -> no_exit (@Raise A e).
Proof. intros H c E. inversion E. now apply (H c). Qed.

Lemma no_exit_bind {A B : Type} (r : result A) (k : A -> result B) :
  no_exit r -> (forall a, no_exit (k a)) -> no_exit (bind r k).
Proof.
  intros Hr Hk c. destruct r as [a|e]; simpl; [apply Hk|].
  intros E. inversion E; subst. now apply (Hr c).
Qed.

Ltac no_exit_step :=
  match goal with
  | |- no_exit (Ok _) => apply no_exit_ok
  | |- no_exit (Raise _) => apply no_exit_raise; intros; discriminate
  | |- no_exit (bind _ _) => apply no_exit_bind; [|intros]
  | |- no_exit (match ?x with _ => _ end) => destruct x
  | |- no_exit (if ?x then _ else _) => destruct x
  | |- no_exit (let '(_, _) := ?x in _) => destruct x
  end.

Lemma no_exit_int_of_float x : no_exit (int_of_float x).
Proof. unfold int_of_float; repeat no_exit_step. Qed.

Lemma no_exit_float_of_int n : no_exit (float_of_int n).
Proof. unfold float_of_int; repeat no_exit_step. Qed.

Lemma no_exit_to_float v : no_exit (to_float v).
Proof. destruct v; simpl; [apply no_exit_float_of_int | apply no_exit_ok]. Qed.

Lemma no_exit_int_truediv a b : no_exit (int_truediv a b).
Proof. unfold int_truediv; repeat no_exit_step. Qed.

Lemma no_exit_float_truediv x y : no_exit (float_truediv x y).
Proof. unfold float_truediv; repeat no_exit_step. Qed.

Lemma no_exit_py_index {A : Type} (l : list A) i : no_exit (py_index l i).
Proof. unfold py_index; repeat no_exit_step. Qed.

Create HintDb no_exit.
#[local] Hint Resolve no_exit_int_of_float no_exit_float_of_int no_exit_to_float
  no_exit_int_truediv no_exit_float_truediv no_exit_py_index no_exit_ok : no_exit.

Ltac no_exit := repeat (first [ solve [auto with no_exit] | no_exit_step ]).

Lemma no_exit_py_truediv a b : no_exit (py_truediv a b).
Proof. unfold py_truediv; no_exit. Qed.

Lemma no_exit_py_mul a b : no_exit (py_mul a b).
Proof. unfold py_mul; no_exit. Qed.

Lemma no_exit_py_sub a b : no_exit (py_sub a b).
Proof. unfold py_sub; no_exit. Qed.

Lemma no_exit_py_int a : no_exit (py_int a).
Proof. unfold py_int; no_exit. Qed.

#[local] Hint Resolve no_exit_py_truediv no_exit_py_mul no_exit_py_sub no_exit_py_int : no_exit.

Lemma no_exit_percent_format tpl : forall args, no_exit (percent_format tpl args).
Proof.
  assert (H : forall n tpl, (String.length tpl <= n)%nat ->
                forall args, no_exit (percent_format tpl args)).
  { induction n as [|n IH]; intros t Hn args.
    - destruct t; [|simpl in Hn; lia]. simpl. no_exit.
    - destruct t as [|c t]; [simpl; no_exit|].
      simpl in Hn.
      assert (IH1 : forall args, no_exit (percent_format t args)) by (intros; apply IH; lia).
      assert (IH2 : forall c' t', t = String c' t' -> forall args, no_exit (percent_format t' args)).
      { intros c' t' -> args'. apply IH. simpl in Hn. lia. }
      assert (IH4 : forall c1 c2 c3 t', t = String c1 (String c2 (String c3 t')) -> forall args, no_exit (percent_format t' args)).
      { intros c1 c2 c3 t' -> args'. apply IH. simpl in Hn. lia. }
      cbn [percent_format].
      repeat match goal with
      | |- no_exit (bind _ _) => apply no_exit_bind; [|intros]
      | |- no_exit (percent_format t _) => apply IH1
      | |- no_exit (percent_format _ _) => first [eapply IH2; reflexivity | eapply IH4; reflexivity]
      | |- _ => solve [auto with no_exit]
      | |- no_exit (Raise _) => apply no_exit_raise; intros; discriminate
      | |- no_exit (match ?x with _ => _ end) => destruct x
      end. }
  intros; eapply H; eauto.
Qed.

Lemma no_exit_apply_spec spec v : no_exit (apply_spec spec v).
Proof. unfold apply_spec; no_exit. Qed.

Lemma no_exit_select_arg name auto next args :
  no_exit (select_arg name auto next args).
Proof. unfold select_arg; no_exit. Qed.

#[local] Hint Resolve no_exit_percent_format no_exit_apply_spec no_exit_select_arg : no_exit.

Lemma no_exit_format_from fstr : forall mode auto next args,
  no_exit (format_from mode auto next fstr args).
Proof.
  assert (H : forall n fstr, (String.length fstr <= n)%nat ->
            forall mode auto next args, no_exit (format_from mode auto next fstr args)).
  { induction n as [|n IH]; intros t Hn mode auto next args.
    - destruct t; [|simpl in Hn; lia]. simpl. no_exit.
    - destruct t as [|c t]; [simpl; no_exit|].
      simpl in Hn.
      assert (IH1 : forall mode auto next args, no_exit (format_from mode auto next t args))
        by (intros; apply IH; lia).
      assert (IH2 : forall c' t', t = String c' t' ->
                forall mode auto next args, no_exit (format_from mode auto next t' args)).
      { intros c' t' -> *. apply IH. simpl in Hn. lia. }
      cbn [format_from].
      repeat match goal with
      | |- no_exit (bind _ _) => apply no_exit_bind; [|intros]
      | |- no_exit (format_from _ _ _ t _) => apply IH1
      | |- no_exit (format_from _ _ _ _ _) => eapply IH2; reflexivity
      | |- _ => solve [auto with no_exit]
      | |- no_exit (Raise _) => apply no_exit_raise; intros; discriminate
      | |- no_exit (match ?x with _ => _ end) => destruct x
      | |- no_exit (if ?x then _ else _) => destruct x
      | |- no_exit (let '(_, _) := ?x in _) => destruct x
      end. }
  intros; eapply H; eauto.
Qed.

#[local] Hint Resolve no_exit_format_from : no_exit.

Lemma no_exit_summarize arr aln pct : no_exit (summarize arr aln pct).
Proof.
  unfold summarize, middle, med, avg, pctpos, pctposi, wgt, pctl. no_exit.
Qed.

Lemma no_exit_render v pct digi machine : no_exit (render v pct digi machine).
Proof.
  unfold render, fmt, pctfmt, fstr, format. no_exit.
Qed.

Lemma no_exit_stats arr pct digi machine :
  no_exit (snd (stats arr pct digi machine)).
Proof.
  unfold stats; simpl. apply no_exit_bind; [apply no_exit_summarize|].
  intros; apply no_exit_render.
Qed.

Lemma no_exit_floats_of_tokens ts : no_exit (floats_of_tokens ts).
Proof.
  induction ts as [|t ts IH]; simpl; [apply no_exit_ok|].
  apply no_exit_bind.
  - intros c E. apply float_of_string_raises in E. discriminate.
  - intros x. apply no_exit_bind; [exact IH|intros; apply no_exit_ok].
Qed.

(** * The percentile rank *)

(** ** The rank [pctpos] for the percentiles 50 and 100 *)

Lemma prec_ref : prec = round_ref false 5902958103587057 (-69).
Proof. reflexivity. Qed.

Lemma prec_repr : representable 5902958103587057 (-69).
Proof.
  unfold representable. change (Zdigits2 5902958103587057) with 53. lia.
Qed.

Lemma of_Z_pos n : 0 < n -> F64.of_Z n = round_ref false n 0.
Proof. intros H. rewrite of_Z_ref. destruct n; try lia. reflexivity. Qed.

Lemma repr_int n : 0 < n < 2 ^ 53 -> representable n 0.
Proof.
  intros [H0 H1]. unfold representable.
  pose proof (Zdigits2_le n 53 H0 H1). lia.
Qed.

Lemma float_of_int_small n : 0 <= n < 2 ^ 53 -> float_of_int n = Ok (F64.of_Z n).
Proof.
  intros [H0 H1]. unfold float_of_int.
  destruct (Z.eq_dec n 0) as [->|Hn]; [reflexivity|].
  rewrite of_Z_pos by lia. rewrite round_ref_finite; [reflexivity|].
  apply repr_int; lia.
Qed.

(** A number [h * 2^t] of the shape that the rank takes: an integer
    ([t = 0]) or a multiple of one half ([t = -1]). *)
Lemma repr_rank h t : 0 < h < 2 ^ 53 -> t = 0 \/ t = -1 -> representable h t.
Proof.
  intros [H0 H1] Ht. unfold representable.
  pose proof (Zdigits2_le h 53 H0 H1). lia.
Qed.

Lemma round_ref_scale2 s m : 0 < m -> round_ref s (m * 4) 0 = round_ref s m 2.
Proof. intros H. change 4 with (2 ^ 2). now rewrite round_ref_scale by lia. Qed.

Lemma hundred_ref : hundred = round_ref false 25 2.
Proof. reflexivity. Qed.

Lemma fifty_ref : fifty = round_ref false 25 1.
Proof. reflexivity. Qed.

Lemma int_truediv_exact a q c ec x :
  0 < a -> 0 < q -> representable c ec -> 0 <= x -> a * 2 ^ x = c * q -> - x = ec ->
  int_truediv a q = Ok (round_ref false c ec).
Proof.
  intros Ha Hq Hc Hx Heq Hec. unfold int_truediv.
  replace (a <? 0) with false by (symmetry; apply Z.ltb_ge; lia).
  replace (q <? 0) with false by (symmetry; apply Z.ltb_ge; lia).
  cbn [xorb].
  destruct a as [|p|p]; try lia. destruct q as [|r|r]; try lia. cbn [Z.abs].
  rewrite (of_ratio_exact_repr false p r c ec x 0) by (try assumption; lia).
  now rewrite round_ref_finite.
Qed.

Lemma float_truediv_hundred x : float_truediv x hundred = Ok (F64.div x hundred).
Proof. reflexivity. Qed.

Lemma pctpos_int aln k t :
  1 < aln -> aln - 1 < 2 ^ 53 -> (k = 100 /\ t = 0) \/ (k = 50 /\ t = -1) ->
  pctpos aln (PInt k) = Ok (round_ref false (aln - 1) t).
Proof.
  intros Hn Hb Hk. unfold pctpos. remember (aln - 1) as n eqn:En.
  assert (Hn0 : 0 < n) by lia. clear En Hn.
  cbn [py_mul bind py_truediv].
  destruct Hk as [[-> ->] | [-> ->]].
  - apply (int_truediv_exact (n * 100) 100 n 0 0); try lia. apply repr_int; lia.
  - apply (int_truediv_exact (n * 50) 100 n (-1) 1); try lia.
    apply repr_rank; [lia | now right].
Qed.

Lemma pctpos_float aln e t :
  1 < aln -> 25 * (aln - 1) < 2 ^ 53 -> (e = 2 /\ t = 0) \/ (e = 1 /\ t = -1) ->
  pctpos aln (PFloat (round_ref false 25 e)) = Ok (round_ref false (aln - 1) t).
Proof.
  intros Hn Hb He. unfold pctpos. remember (aln - 1) as n eqn:En.
  assert (Hn0 : 0 < n) by lia. clear En Hn.
  assert (Rn : representable n 0) by (apply repr_int; lia).
  assert (Rt : representable n t) by (apply repr_rank; [lia | destruct He; lia]).
  assert (R25n : representable (n * 25) e).
  { unfold representable.
    assert (H0 : 0 < n * 25) by lia.
    assert (H1 : n * 25 < 2 ^ 53) by lia.
    pose proof (Zdigits2_le (n * 25) 53 H0 H1). lia. }
  assert (R25 : forall e, 1 <= e <= 2 -> representable 25 e).
  { intros e' He'. unfold representable. change (Zdigits2 25) with 5. lia. }
  cbn [py_mul to_float bind].
  rewrite float_of_int_small by lia. cbn [bind].
  rewrite of_Z_pos, mul_exact by (auto; try apply R25; lia).
  cbn [xorb py_truediv to_float bind Z.add].
  change (float_of_int 100) with (Ok hundred). cbn [bind].
  rewrite float_truediv_hundred, hundred_ref. f_equal.
  apply (div_exact false (n * 25) e false 25 2 n t 0 0);
    try assumption; try lia. apply R25; lia.
Qed.

(** ** The index [pctposi] and the weight [wgt] for such a rank *)

Lemma pctposi_rank h t :
  0 < h < 2 ^ 51 -> t = 0 \/ t = -1 ->
  pctposi (round_ref false h t) = Ok (h / 2 ^ (- t)).
Proof.
  intros [H0 H1] Ht. unfold pctposi. rewrite prec_ref.
  assert (Rh : representable h t) by (apply repr_rank; lia).
  rewrite (add_exact false h t false _ (-69) (-69) Rh prec_repr) by lia.
  cbn [cond_Zopp]. rewrite Z.sub_diag, Z.pow_0_r, Z.mul_1_r.
  set (mp := 5902958103587057).
  set (M := h * 2 ^ (t - -69) + mp).
  assert (Hpow : 0 < 2 ^ (t - -69)) by (apply Z.pow_pos_nonneg; lia).
  assert (HM : 0 < M) by (unfold M, mp; nia).
  assert (HMb : M < 2 ^ 120).
  { unfold M, mp. assert (2 ^ (t - -69) <= 2 ^ 69) by (apply Z.pow_le_mono_r; lia).
    change (2 ^ 120) with (2 ^ 51 * 2 ^ 69). nia. }
  assert (Hd : Zdigits2 M <= 120) by (apply Zdigits2_le; assumption).
  assert (Hval : M / 2 ^ 69 = h / 2 ^ (- t)).
  { unfold M. destruct Ht as [-> | ->].
    - change (2 ^ (0 - -69)) with (2 ^ 69). change (2 ^ (- 0)) with 1.
      rewrite Z.div_1_r, Z.div_add_l by lia. unfold mp. rewrite Z.div_small by lia. lia.
    - change (2 ^ (-1 - -69)) with (2 ^ 68). change (2 ^ (- -1)) with 2.
      rewrite (Z.div_mod h 2) at 1 by lia.
      replace ((2 * (h / 2) + h mod 2) * 2 ^ 68 + mp)
        with (h / 2 * 2 ^ 69 + (h mod 2 * 2 ^ 68 + mp))
        by (change (2 ^ 69) with (2 * 2 ^ 68); ring).
      rewrite Z.div_add_l by lia.
      pose proof (Z.mod_pos_bound h 2 ltac:(lia)).
      rewrite (Z.div_small (h mod 2 * 2 ^ 68 + mp)) by (unfold mp; lia). lia. }
  assert (Hmod : M mod 2 ^ 69 < 2 ^ 68 + 2 ^ 53).
  { unfold M. destruct Ht as [-> | ->].
    - change (2 ^ (0 - -69)) with (2 ^ 69).
      rewrite Z.add_comm, Z.mod_add by lia. unfold mp. rewrite Z.mod_small; lia.
    - change (2 ^ (-1 - -69)) with (2 ^ 68).
      rewrite (Z.div_mod h 2) at 1 by lia.
      replace ((2 * (h / 2) + h mod 2) * 2 ^ 68 + mp)
        with ((h mod 2 * 2 ^ 68 + mp) + h / 2 * 2 ^ 69)
        by (change (2 ^ 69) with (2 * 2 ^ 68); ring).
      rewrite Z.mod_add by lia.
      pose proof (Z.mod_pos_bound h 2 ltac:(lia)).
      rewrite Z.mod_small by (unfold mp; lia). unfold mp. lia. }
  destruct M as [|Mp|Mp] eqn:EM; try lia. cbn [normalize_ref].
  change (2 ^ 69) with (2 ^ (- (-69))) in Hval, Hmod.
  rewrite <- Hval.
  apply int_of_round_ref; try lia.
  - unfold fexp64. lia.
  - intros HE.
    assert (fexp64 (Zdigits2 (Z.pos Mp) + -69) - -69 <= 67) by (unfold fexp64; lia).
    assert (2 ^ (fexp64 (Zdigits2 (Z.pos Mp) + -69) - -69) <= 2 ^ 67)
      by (apply Z.pow_le_mono_r; lia).
    change (2 ^ (- -69)) with (2 ^ 69) in *. lia.
Qed.

Lemma wgt_rank h t :
  0 < h < 2 ^ 51 -> t = 0 \/ t = -1 ->
  wgt (round_ref false h t) (h / 2 ^ (- t))
  = Ok (normalize_ref (h mod 2 ^ (- t)) t).
Proof.
  intros [H0 H1] Ht. unfold wgt.
  assert (Rh : representable h t) by (apply repr_rank; lia).
  assert (Hp : 0 < 2 ^ (- t)) by (apply Z.pow_pos_nonneg; lia).
  assert (Hi : 0 <= h / 2 ^ (- t) <= h).
  { split; [apply Z.div_pos; lia|]. apply Z.div_le_upper_bound; nia. }
  rewrite float_of_int_small by lia. cbn [bind]. f_equal.
  destruct (Z.eq_dec (h / 2 ^ (- t)) 0) as [Hz|Hz].
  - rewrite Hz.
    assert (Hm : h mod 2 ^ (- t) = h).
    { pose proof (Z.div_mod h (2 ^ (- t)) ltac:(lia)). lia. }
    rewrite Hm. destruct h as [|hp|hp]; try lia. cbn [normalize_ref].
    destruct (round_ref_repr false (Z.pos hp) t Rh) as (p & E & -> & _).
    reflexivity.
  - assert (Ri : representable (h / 2 ^ (- t)) 0) by (apply repr_int; lia).
    rewrite of_Z_pos by lia.
    rewrite (sub_exact false h t false _ 0 t Rh Ri) by lia.
    cbn [cond_Zopp]. f_equal.
    replace (t - t) with 0 by lia. replace (0 - t) with (- t) by lia.
    rewrite Z.pow_0_r. pose proof (Z.div_mod h (2 ^ (- t)) ltac:(lia)). lia.
Qed.

(** The weight is zero for an integer rank, and zero or one half for a
    rank that is a multiple of one half. *)
Lemma wgt_value h t : t = 0 \/ t = -1 ->
  normalize_ref (h mod 2 ^ (- t)) t
  = if (t =? -1) && Z.odd h then half else zero.
Proof.
  intros [-> | ->].
  - change (2 ^ (- 0)) with 1. rewrite Z.mod_1_r. reflexivity.
  - change (2 ^ (- -1)) with 2. rewrite Zmod_odd.
    destruct (Z.odd h); reflexivity.
Qed.

(** ** Items of a list *)

Lemma py_index_ok {A : Type} (arr : list A) i :
  0 <= i < Z.of_nat (List.length arr) ->
  exists x, py_index arr i = Ok x /\ nth_error arr (Z.to_nat i) = Some x.
Proof.
  intros [H0 H1]. unfold py_index.
  replace (i <? 0) with false by (symmetry; apply Z.ltb_ge; lia).
  replace (0 <=? i) with true by (symmetry; apply Z.leb_le; lia).
  replace (i <? Z.of_nat (List.length arr)) with true by (symmetry; apply Z.ltb_lt; lia).
  cbn [andb].
  destruct (nth_error arr (Z.to_nat i)) as [x|] eqn:E.
  - now exists x.
  - apply nth_error_None in E. lia.
Qed.

Lemma py_index_out {A : Type} (arr : list A) i :
  Z.of_nat (List.length arr) <= i -> py_index arr i = Raise IndexError.
Proof.
  intros H. unfold py_index.
  replace (i <? 0) with false by (symmetry; apply Z.ltb_ge; lia).
  replace (i <? Z.of_nat (List.length arr)) with false by (symmetry; apply Z.ltb_ge; lia).
  now rewrite andb_false_r.
Qed.

(** ** The percentiles 0, 50 and 100 *)

Lemma pctl_zero arr i w : F64.ltb (F64.abs w) prec = true -> pctl arr i w = py_index arr i.
Proof. intros H. unfold pctl. now rewrite H. Qed.

Lemma pctl_half arr i :
  pctl arr i half
  = hi <- py_index arr (i + 1) ;; lo <- py_index arr i ;;
    Ok (F64.add (F64.mul hi half) (F64.mul lo half)).
Proof. reflexivity. Qed.

Lemma is_pct_rank k t pct aln :
  (k = 100 /\ t = 0) \/ (k = 50 /\ t = -1) -> is_pct k pct ->
  1 < aln -> 25 * (aln - 1) < 2 ^ 53 ->
  pctpos aln pct = Ok (round_ref false (aln - 1) t).
Proof.
  intros Hk [-> | ->] Hn Hb.
  - apply pctpos_int; [lia | lia | assumption].
  - destruct Hk as [[-> ->] | [-> ->]].
    + change (F64.of_Z 100) with (round_ref false 25 2).
      apply pctpos_float; [lia | lia | now left].
    + change (F64.of_Z 50) with (round_ref false 25 1).
      apply pctpos_float; [lia | lia | now right].
Qed.

(** With one item the rank is zero whatever the percentile. *)
Lemma percentile_one arr k pct :
  (k = 100 \/ k = 50) -> is_pct k pct -> percentile arr 1 pct = py_index arr 0.
Proof. intros [-> | ->] [-> | ->]; reflexivity. Qed.

Lemma percentile_rank arr aln k t pct :
  (k = 100 /\ t = 0) \/ (k = 50 /\ t = -1) -> is_pct k pct ->
  1 < aln -> 25 * (aln - 1) < 2 ^ 53 ->
  percentile arr aln pct
  = pctl arr ((aln - 1) / 2 ^ (- t))
      (if (t =? -1) && Z.odd (aln - 1) then half else zero).
Proof.
  intros Hk Hp Hn Hb. unfold percentile.
  assert (Ht : t = 0 \/ t = -1) by (destruct Hk as [[_ ->] | [_ ->]]; auto).
  rewrite (is_pct_rank k t pct aln Hk Hp Hn Hb). cbn [bind].
  rewrite pctposi_rank by (try assumption; lia). cbn [bind].
  rewrite wgt_rank by (try assumption; lia). cbn [bind].
  now rewrite wgt_value.
Qed.

Theorem percentile_100 arr aln pct :
  is_pct 100 pct -> 0 < aln -> 25 * (aln - 1) < 2 ^ 53 ->
  percentile arr aln pct = py_index arr (aln - 1).
Proof.
  intros Hp Hn Hb. destruct (Z.eq_dec aln 1) as [->|H1].
  - now apply (percentile_one arr 100); auto.
  - rewrite (percentile_rank arr aln 100 0 pct) by (auto; lia).
    cbn [Z.eqb andb]. change (2 ^ (- 0)) with 1. rewrite Z.div_1_r.
    now apply pctl_zero.
Qed.

Theorem percentile_50_odd arr aln pct :
  is_pct 50 pct -> 0 < aln -> Z.odd aln = true -> 25 * (aln - 1) < 2 ^ 53 ->
  percentile arr aln pct = py_index arr (aln / 2).
Proof.
  intros Hp Hn Ho Hb. destruct (Z.eq_dec aln 1) as [->|H1].
  - now apply (percentile_one arr 50); auto.
  - rewrite (percentile_rank arr aln 50 (-1) pct) by (auto; lia).
    replace (Z.odd (aln - 1)) with false
      by (rewrite Z.sub_1_r, Z.odd_pred, <- Z.negb_odd, Ho; reflexivity).
    cbn [Z.eqb andb]. change (2 ^ (- -1)) with 2.
    rewrite pctl_zero by reflexivity. f_equal.
    pose proof (Zmod_odd aln) as Hm. rewrite Ho in Hm.
    pose proof (Z.div_mod aln 2 ltac:(lia)).
    symmetry. apply (Z.div_unique _ _ _ 0); lia.
Qed.

Theorem percentile_50_even arr aln pct :
  is_pct 50 pct -> 0 < aln -> Z.odd aln = false -> 25 * (aln - 1) < 2 ^ 53 ->
  percentile arr aln pct
  = hi <- py_index arr (aln / 2) ;; lo <- py_index arr (aln / 2 - 1) ;;
    Ok (F64.add (F64.mul hi half) (F64.mul lo half)).
Proof.
  intros Hp Hn Ho Hb.
  assert (aln <> 1) by (intros ->; discriminate).
  rewrite (percentile_rank arr aln 50 (-1) pct) by (auto; lia).
  replace (Z.odd (aln - 1)) with true
    by (rewrite Z.sub_1_r, Z.odd_pred, <- Z.negb_odd, Ho; reflexivity).
  cbn [Z.eqb andb]. change (2 ^ (- -1)) with 2. rewrite pctl_half.
  pose proof (Zmod_odd aln) as Hm. rewrite Ho in Hm.
  pose proof (Z.div_mod aln 2 ltac:(lia)).
  replace ((aln - 1) / 2) with (aln / 2 - 1)
    by (apply (Z.div_unique _ _ _ 1); lia).
  now replace (aln / 2 - 1 + 1) with (aln / 2) by lia.
Qed.

Theorem percentile_0 arr aln pct :
  is_pct_zero pct -> 0 < aln < 2 ^ 53 ->
  percentile arr aln pct = py_index arr 0.
Proof.
  intros Hp Hn. unfold percentile, pctpos.
  destruct Hp as [-> | [s ->]].
  - cbn [py_mul bind]. rewrite Z.mul_0_r. reflexivity.
  - cbn [py_mul to_float bind]. rewrite float_of_int_small by lia. cbn [bind].
    assert (Hz : F64.mul (F64.of_Z (aln - 1)) (S754_zero s) = S754_zero s).
    { destruct (Z.eq_dec aln 1) as [->|H1]; [reflexivity|].
      rewrite of_Z_pos by lia.
      destruct (round_ref_repr false (aln - 1) 0) as (p & E & -> & _).
      - apply repr_int; lia.
      - reflexivity. }
    rewrite Hz. destruct s; reflexivity.
Qed.

(** ** The whole summary *)

Lemma middle_ok aln : 0 <= aln < 2 ^ 53 -> middle aln = Ok (aln / 2).
Proof.
  intros [H0 H1]. unfold middle.
  destruct (Z.eq_dec aln 0) as [->|Hn]; [reflexivity|].
  assert (R : representable aln (-1)) by (apply repr_rank; [lia | now right]).
  rewrite (int_truediv_exact aln 2 aln (-1) 1) by (try assumption; lia).
  cbn [bind]. change (aln / 2) with (aln / 2 ^ (- -1)).
  apply int_of_round_ref; try lia.
  - destruct R as (_ & Hd & _). unfold fexp64. lia.
  - destruct R as (_ & Hd & _). unfold fexp64. lia.
Qed.

Lemma float_truediv_two x : float_truediv x two = Ok (F64.div x two).
Proof. reflexivity. Qed.

Lemma med_odd arr aln :
  Z.odd aln = true -> med arr aln (aln / 2) = py_index arr (aln / 2).
Proof.
  intros Ho. unfold med. rewrite Zmod_odd, Ho. reflexivity.
Qed.

Lemma med_even arr aln :
  Z.odd aln = false ->
  med arr aln (aln / 2)
  = a <- py_index arr (aln / 2 - 1) ;; b <- py_index arr (aln / 2) ;;
    Ok (F64.div (F64.add a b) two).
Proof.
  intros Ho. unfold med. rewrite Zmod_odd, Ho. reflexivity.
Qed.

Lemma avg_ok arr aln : 0 < aln < 2 ^ 53 ->
  avg arr aln = Ok (F64.div (sum arr) (F64.of_Z aln)).
Proof.
  intros Hn. unfold avg. cbn [py_truediv to_float bind].
  rewrite float_of_int_small by lia. cbn [bind].
  rewrite of_Z_pos by lia.
  destruct (round_ref_repr false aln 0) as (p & E & -> & _).
  - apply repr_int; lia.
  - reflexivity.
Qed.

(** [summarize] computes the percentile as [percentile] does. *)
Lemma summarize_percentile arr aln pct :
  summarize arr aln pct
  = mid <- middle aln ;;
    m <- med arr aln mid ;;
    a <- avg arr aln ;;
    p <- percentile arr aln pct ;;
    lo <- py_index arr 0 ;;
    hi <- py_index arr (aln - 1) ;;
    Ok (Summary aln lo m a p hi).
Proof.
  unfold summarize, percentile.
  destruct (middle aln); [|reflexivity]. cbn [bind].
  destruct (med arr aln a); [|reflexivity]. cbn [bind].
  destruct (avg arr aln); [|reflexivity]. cbn [bind].
  destruct (pctpos aln pct); [|reflexivity]. cbn [bind].
  destruct (pctposi a2); [|reflexivity]. cbn [bind].
  destruct (wgt a2 a3); reflexivity.
Qed.

(** On a list that is not empty the summary exists as soon as the
    percentile does. *)
Theorem summarize_ok arr aln pct p :
  aln = Z.of_nat (List.length arr) -> 0 < aln < 2 ^ 53 ->
  percentile arr aln pct = Ok p ->
  exists lo m a hi,
    summarize arr aln pct = Ok (Summary aln lo m a p hi)
    /\ py_index arr 0 = Ok lo
    /\ py_index arr (aln - 1) = Ok hi
    /\ med arr aln (aln / 2) = Ok m
    /\ a = F64.div (sum arr) (F64.of_Z aln).
Proof.
  intros Hlen Hn Hp.
  destruct (py_index_ok arr 0 ltac:(lia)) as (lo & Hlo & _).
  destruct (py_index_ok arr (aln - 1) ltac:(lia)) as (hi & Hhi & _).
  assert (Hdiv : 0 <= aln / 2 < aln).
  { split; [apply Z.div_pos; lia | apply Z.div_lt_upper_bound; lia]. }
  assert (Hm : exists m, med arr aln (aln / 2) = Ok m).
  { destruct (Z.odd aln) eqn:Ho.
    - rewrite med_odd by assumption.
      destruct (py_index_ok arr (aln / 2) ltac:(lia)) as (x & Hx & _).
      now exists x.
    - rewrite med_even by assumption.
      assert (1 <= aln / 2).
      { apply Z.div_le_lower_bound; [lia|].
        destruct (Z.eq_dec aln 1) as [->|]; [discriminate | lia]. }
      destruct (py_index_ok arr (aln / 2 - 1) ltac:(lia)) as (x & -> & _).
      destruct (py_index_ok arr (aln / 2) ltac:(lia)) as (y & -> & _).
      eexists; reflexivity. }
  destruct Hm as (m & Hm).
  exists lo, m, (F64.div (sum arr) (F64.of_Z aln)), hi.
  rewrite summarize_percentile, middle_ok by lia. cbn [bind].
  rewrite Hm, avg_ok, Hp, Hlo, Hhi by lia. repeat split; reflexivity.
Qed.

(** ** Signs *)














(** The specification's item exists in every list that is not empty. *)
Lemma item_total (arr : list float) i : arr <> [] -> exists x, item arr i = Ok x.
Proof.
  intros Hne. unfold item. cbv zeta.
  destruct (nth_error arr _) as [x|] eqn:E; [now exists x|].
  apply nth_error_None in E. destruct arr; [congruence | cbn [List.length] in E; lia].
Qed.



(** The specification's value exists whenever the rank does. *)
Lemma percentile_spec_total arr pct pos :
  arr <> [] -> pctpos (Z.of_nat (List.length arr)) pct = Ok pos ->
  exists p, percentile_spec arr pct = Ok p.
Proof.
  intros Hne Ep. unfold percentile_spec. cbv zeta.
  fold (pctpos (Z.of_nat (List.length arr)) pct). rewrite Ep. cbn [bind].
  destruct (F64.ltb _ prec).
  - now apply item_total.
  - destruct (item_total arr (F64.floor (F64.add pos prec) + 1) Hne) as [hi ->].
    destruct (item_total arr (F64.floor (F64.add pos prec)) Hne) as [lo ->].
    cbn [bind]. now eexists.
Qed.

(** ** The percentile label *)

Lemma float_of_int_trunc f :
  F64.valid f = true -> F64.is_finite f = true ->
  float_of_int (F64.trunc f) = Ok (F64.of_Z (F64.trunc f)).
Proof.
  intros Hv Hf. unfold float_of_int.
  destruct f as [s|s| |s m e]; try discriminate; [reflexivity|].
  pose proof (valid_finite_inv s m e Hv) as (He & Hd & _).
  cbn [F64.trunc].
  assert (HT : 0 <= Z.shiftl (Z.pos m) e) by (apply Z.shiftl_nonneg; lia).
  assert (Hfin : forall s', 0 < Z.shiftl (Z.pos m) e ->
            F64.is_finite (round_ref s' (Z.shiftl (Z.pos m) e) 0) = true).
  { intros s' Hpos. destruct (Z_lt_le_dec e 0) as [Hneg|Hnn].
    - apply round_ref_finite, repr_int. split; [assumption|].
      rewrite Z.shiftl_div_pow2 by lia.
      pose proof (Zdigits2_bounds (Z.pos m) ltac:(lia)) as [_ B].
      assert (2 ^ Zdigits2 (Z.pos m) <= 2 ^ 53) by (apply Z.pow_le_mono_r; lia).
      assert (0 < 2 ^ (- e)) by (apply Z.pow_pos_nonneg; lia).
      apply Z.div_lt_upper_bound; nia.
    - rewrite Z.shiftl_mul_pow2, round_ref_scale by lia.
      apply round_ref_finite. unfold representable. lia. }
  rewrite of_Z_ref.
  destruct (Z.shiftl (Z.pos m) e) as [|T|T] eqn:ET; try lia.
  - destruct s; reflexivity.
  - destruct s; cbn [cond_Zopp Z.opp normalize_ref]; now rewrite Hfin by lia.
Qed.

Lemma percent_i_text v z :
  py_int v = Ok z ->
  percent_format "%i%%" [ANum v] = Ok (str_of_int z ++ "%")%string.
Proof. intros H. cbn [percent_format]. rewrite H. reflexivity. Qed.

Lemma percent_2f_text f :
  percent_format "%.2f%%" [ANum (PFloat f)] = Ok (format_f 2 f ++ "%")%string.
Proof. reflexivity. Qed.

Theorem pctfmt_ok pct :
  valid_num pct ->
  match pct with PInt _ => True | PFloat f => F64.is_finite f = true end ->
  exists label, pctfmt pct = Ok label /\ plain label = true.
Proof.
  intros Hv Hf. unfold pctfmt. destruct pct as [z|f].
  - cbn [py_int bind py_sub]. rewrite Z.sub_diag. cbn [py_abs py_eq_int Z.abs Z.eqb].
    rewrite (percent_i_text (PInt z) z eq_refl).
    eexists; split; [reflexivity|].
    rewrite plain_app, plain_str_of_int. reflexivity.
  - cbn in Hv. cbn [py_int].
    assert (Hi : int_of_float f = Ok (F64.trunc f))
      by (destruct f; try discriminate; reflexivity).
    rewrite Hi. cbn [bind py_sub to_float].
    rewrite float_of_int_trunc by assumption. cbn [bind].
    destruct (py_eq_int _ 0).
    + rewrite (percent_i_text (PFloat f) (F64.trunc f) Hi).
      eexists; split; [reflexivity|].
      rewrite plain_app, plain_str_of_int. reflexivity.
    + rewrite percent_2f_text.
      eexists; split; [reflexivity|].
      rewrite plain_app, plain_format_f. reflexivity.
Qed.

(** A summary exists only for a percentile that is finite. *)
Lemma pctposi_finite p i : pctposi p = Ok i -> F64.is_finite p = true.
Proof. unfold pctposi. destruct p as [s|[]| |s m e]; try reflexivity; discriminate. Qed.

Lemma mul_not_finite x f :
  F64.is_finite f = false -> F64.is_finite (F64.mul x f) = false.
Proof.
  destruct f as [s|s| |s m e]; try discriminate; intros _;
    destruct x as [sx|sx| |sx mx ex]; reflexivity.
Qed.

Lemma div_hundred_not_finite x :
  F64.is_finite x = false -> F64.is_finite (F64.div x hundred) = false.
Proof. destruct x as [s|s| |s m e]; try discriminate; reflexivity. Qed.

Lemma pctpos_finite aln f p :
  pctpos aln (PFloat f) = Ok p -> F64.is_finite p = true -> F64.is_finite f = true.
Proof.
  unfold pctpos. cbn [py_mul to_float bind].
  destruct (float_of_int (aln - 1)) as [x|]; [|discriminate].
  cbn [bind py_truediv to_float]. change (float_of_int 100) with (Ok hundred).
  cbn [bind]. rewrite float_truediv_hundred. intros H; inversion H; subst.
  destruct (F64.is_finite f) eqn:Ef; [reflexivity|].
  now rewrite div_hundred_not_finite by (now apply mul_not_finite).
Qed.

Lemma summarize_inv arr aln pct v :
  summarize arr aln pct = Ok v ->
  percentile arr aln pct = Ok (s_pctl v)
  /\ py_index arr 0 = Ok (s_min v) /\ py_index arr (aln - 1) = Ok (s_max v)
  /\ s_count v = aln
  /\ avg arr aln = Ok (s_avg v)
  /\ (exists mid, middle aln = Ok mid /\ med arr aln mid = Ok (s_med v))
  /\ match pct with PInt _ => True | PFloat f => F64.is_finite f = true end.
Proof.
  rewrite summarize_percentile.
  destruct (middle aln) as [mid|] eqn:Emid; [|discriminate]. cbn [bind].
  destruct (med arr aln mid) as [m|] eqn:Em; [|discriminate]. cbn [bind].
  destruct (avg arr aln) as [a|] eqn:Ea; [|discriminate]. cbn [bind].
  destruct (percentile arr aln pct) as [p|] eqn:Ep; [|discriminate]. cbn [bind].
  destruct (py_index arr 0) as [lo|]; [|discriminate]. cbn [bind].
  destruct (py_index arr (aln - 1)) as [hi|]; [|discriminate]. cbn [bind].
  intros H; inversion H; subst; cbn.
  repeat split; try reflexivity.
  - now exists mid.
  - destruct pct as [z|f]; [exact I|].
    unfold percentile in Ep.
    destruct (pctpos aln (PFloat f)) as [pp|] eqn:Epp; [|discriminate].
    cbn [bind] in Ep.
    destruct (pctposi pp) as [i|] eqn:Ei; [|discriminate].
    apply (pctpos_finite aln f pp Epp). now apply (pctposi_finite pp i).
Qed.

Lemma leb_not_gt x y : F64.leb x y = true -> F64.ltb y x = false.
Proof.
  unfold F64.leb, F64.ltb, SFleb, SFltb.
  destruct x as [sx|sx| |sx mx ex], y as [sy|sy| |sy my ey];
    simpl; try discriminate; try reflexivity;
    repeat match goal with s : bool |- _ => destruct s end;
    try discriminate; try reflexivity;
    intros H1; cmp_cases; simpl in *; try discriminate; try reflexivity; try lia.
Qed.

Lemma py_le_not_gt pct k : py_le_int pct k = true -> py_gt_int pct k = false.
Proof.
  destruct pct as [z|f]; cbn.
  - intros H. apply Z.leb_le in H. apply Z.ltb_ge. lia.
  - apply leb_not_gt.
Qed.

(** ** Order of the items of a sorted list *)

Lemma not_lt_le x y :
  F64.is_nan x = false -> F64.is_nan y = false ->
  F64.ltb y x = false -> F64.leb x y = true.
Proof.
  unfold F64.leb, F64.ltb, SFleb, SFltb.
  destruct x as [sx|sx| |sx mx ex], y as [sy|sy| |sy my ey];
    simpl; try discriminate; try reflexivity;
    repeat match goal with s : bool |- _ => destruct s end;
    try discriminate; try reflexivity;
    intros _ _ H1; cmp_cases; simpl in *; try discriminate; try reflexivity; try lia.
Qed.

Lemma leb_refl x : F64.is_nan x = false -> F64.leb x x = true.
Proof.
  unfold F64.leb, SFleb.
  destruct x as [[]|[]| |[] m e]; simpl; try discriminate; try reflexivity;
    intros _; rewrite Z.compare_refl, Pos.compare_cont_refl; reflexivity.
Qed.

Lemma insert_in x l y : In y (insert x l) -> y = x \/ In y l.
Proof.
  induction l as [|a l IH]; simpl; intros H.
  - destruct H; auto.
  - destruct (F64.ltb x a); simpl in H.
    + destruct H as [H|H]; auto.
    + destruct H as [H|H]; auto. destruct (IH H); auto.
Qed.

Lemma sort_in l y : In y (sort l) -> In y l.
Proof.
  unfold sort.
  assert (H : forall l acc, In y (fold_left (fun a x => insert x a) l acc) ->
                In y l \/ In y acc).
  { clear. induction l as [|x l IH]; simpl; intros acc H; auto.
    destruct (IH _ H) as [H1|H1]; auto.
    destruct (insert_in _ _ _ H1) as [->|H2]; auto. }
  intros Hy. destruct (H l [] Hy) as [H1|[]]. exact H1.
Qed.

Lemma py_index_in {A : Type} (arr : list A) i x : py_index arr i = Ok x -> In x arr.
Proof.
  unfold py_index. destruct (_ && _); [|discriminate].
  destruct (nth_error arr _) eqn:E; [|discriminate].
  intros H; inversion H; subst. now apply nth_error_In in E.
Qed.

Lemma nth_error_first {A : Type} (arr : list A) x :
  nth_error arr 0 = Some x -> exists t, arr = x :: t.
Proof. destruct arr; simpl; intros H; inversion H. eauto. Qed.

(** In a sorted list without NaN, the first item is at most any item,
    and any item is at most the last. *)
Lemma ascending_first x t y :
  ascending (x :: t) -> Forall (fun z => F64.is_nan z = false) (x :: t) ->
  In y (x :: t) -> F64.leb x y = true.
Proof.
  intros Ha Hn Hy. inversion Ha as [|? ? _ Hx]; subst.
  rewrite Forall_forall in Hn, Hx.
  destruct Hy as [<-|Hy].
  - apply leb_refl, Hn. now left.
  - apply not_lt_le; [apply Hn; now left | apply Hn; now right | now apply Hx].
Qed.

Lemma ascending_last l : forall x y,
  ascending l -> Forall (fun z => F64.is_nan z = false) l ->
  nth_error l (List.length l - 1) = Some x -> In y l -> F64.leb y x = true.
Proof.
  induction l as [|a l IH]; intros x y Ha Hn Hx Hy; [destruct Hy|].
  inversion Ha as [|? ? Hs Hf]; subst. inversion Hn as [|? ? Hna Hnl]; subst.
  destruct l as [|b l].
  - simpl in Hx. inversion Hx; subst. destruct Hy as [<-|[]]. now apply leb_refl.
  - assert (Hx' : nth_error (b :: l) (List.length (b :: l) - 1) = Some x).
    { simpl in *. now rewrite Nat.sub_0_r in *. }
    destruct Hy as [<-|Hy].
    + rewrite Forall_forall in Hf, Hnl.
      assert (Hin : In x (b :: l)) by (eapply nth_error_In; eauto).
      apply not_lt_le; auto.
    + now apply IH.
Qed.

Lemma sort_no_nan l :
  Forall (fun z => F64.is_nan z = false) l ->
  Forall (fun z => F64.is_nan z = false) (sort l).
Proof.
  intros H. rewrite Forall_forall in *. intros y Hy. apply H. now apply sort_in.
Qed.

Theorem sorted_bounds arr lo hi x :
  Forall (fun z => F64.is_nan z = false) arr ->
  py_index (sort arr) 0 = Ok lo ->
  py_index (sort arr) (Z.of_nat (List.length arr) - 1) = Ok hi ->
  In x (sort arr) ->
  F64.leb lo x = true /\ F64.leb x hi = true.
Proof.
  intros Hn Hlo Hhi Hx.
  pose proof (sort_ascending arr) as Ha. pose proof (sort_no_nan arr Hn) as Hn'.
  assert (Hlen : (0 < List.length (sort arr))%nat)
    by (destruct (sort arr); [destruct Hx | simpl; lia]).
  rewrite <- (sort_length arr) in Hhi.
  destruct (py_index_ok (sort arr) 0 ltac:(lia)) as (lo' & Hlo' & Nlo).
  destruct (py_index_ok (sort arr) (Z.of_nat (List.length (sort arr)) - 1) ltac:(lia))
    as (hi' & Hhi' & Nhi).
  rewrite Hlo in Hlo'. rewrite Hhi in Hhi'. inversion Hlo'; inversion Hhi'; subst lo' hi'.
  split.
  - destruct (nth_error_first _ _ Nlo) as (t & Et). rewrite Et in *.
    now apply (ascending_first lo t x).
  - apply (ascending_last (sort arr)); auto.
    replace (List.length (sort arr) - 1)%nat
      with (Z.to_nat (Z.of_nat (List.length (sort arr)) - 1)) by lia.
    exact Nhi.
Qed.

(** ** Lists too long for the rank to be exact *)

Lemma ascending_repeat x n : F64.ltb x x = false -> ascending (repeat x n).
Proof.
  intros Hx. unfold ascending. induction n as [|n IH]; cbn [repeat]; constructor.
  - exact IH.
  - apply Forall_forall. intros y Hy. apply repeat_spec in Hy. now subst.
Qed.

Lemma ascending_repeat_app x y n :
  F64.ltb x x = false -> F64.ltb y x = false -> ascending (repeat x n ++ [y]).
Proof.
  intros Hx Hy. unfold ascending. induction n as [|n IH]; cbn [repeat app].
  - repeat constructor.
  - constructor; [exact IH|]. apply Forall_app. split.
    + apply Forall_forall. intros z Hz. apply repeat_spec in Hz. now subst.
    + now repeat constructor.
Qed.

Lemma py_index_repeat (x : float) n i :
  0 <= i < Z.of_nat n -> py_index (repeat x n) i = Ok x.
Proof.
  intros Hi. destruct (py_index_ok (repeat x n) i) as (y & Hy & Hn).
  - now rewrite repeat_length.
  - rewrite Hy. f_equal. apply nth_error_In, repeat_spec in Hn. exact Hn.
Qed.

Lemma py_index_repeat_app (x y : float) n i :
  0 <= i <= Z.of_nat n ->
  py_index (repeat x n ++ [y]) i = Ok (if i =? Z.of_nat n then y else x).
Proof.
  intros Hi. destruct (py_index_ok (repeat x n ++ [y]) i) as (z & Hz & Hn).
  - rewrite length_app, repeat_length. cbn. lia.
  - rewrite Hz. f_equal. destruct (Z.eqb_spec i (Z.of_nat n)) as [E|E].
    + rewrite nth_error_app2 in Hn by (rewrite repeat_length; lia).
      rewrite repeat_length in Hn. replace (Z.to_nat i - n)%nat with 0%nat in Hn by lia.
      now inversion Hn.
    + rewrite nth_error_app1 in Hn by (rewrite repeat_length; lia).
      apply nth_error_In, repeat_spec in Hn. exact Hn.
Qed.

Lemma overrun_rank :
  pctpos count_overrun (PFloat hundred) = Ok (S754_finite false 5764607523034289 (-4))
  /\ pctposi (S754_finite false 5764607523034289 (-4)) = Ok (count_overrun - 1)
  /\ wgt (S754_finite false 5764607523034289 (-4)) (count_overrun - 1)
     = Ok (S754_finite false 4503599627370496 (-56))
  /\ F64.ltb (F64.abs (S754_finite false 4503599627370496 (-56))) prec = false.
Proof. repeat split; vm_compute; reflexivity. Qed.

Lemma overrun_percentile arr :
  Z.of_nat (List.length arr) = count_overrun ->
  percentile arr count_overrun (PFloat hundred) = Raise IndexError.
Proof.
  intros Hlen. destruct overrun_rank as (Hp & Hi & Hw & Hlt).
  unfold percentile. rewrite Hp. cbn [bind]. rewrite Hi. cbn [bind].
  rewrite Hw. cbn [bind]. unfold pctl. rewrite Hlt.
  rewrite py_index_out; [reflexivity|]. rewrite Hlen. unfold count_overrun. lia.
Qed.

Lemma overrun_stats_of_length n :
  Z.of_nat n = count_overrun ->
  snd (stats (repeat one n) (PFloat hundred) 2 false) = Raise IndexError.
Proof.
  intros Hn. unfold stats. cbn [snd].
  rewrite (sort_fixed (repeat one n)) by (now apply ascending_repeat).
  rewrite repeat_length, Hn.
  rewrite summarize_percentile.
  rewrite middle_ok by (unfold count_overrun; lia). cbn [bind].
  rewrite med_even by reflexivity.
  rewrite !py_index_repeat
    by (rewrite Hn; split; [apply Z.leb_le | apply Z.ltb_lt]; reflexivity).
  cbn [bind]. rewrite avg_ok by (unfold count_overrun; lia). cbn [bind].
  rewrite overrun_percentile by (now rewrite repeat_length). reflexivity.
Qed.

Lemma overrun_not_empty n : Z.of_nat n = count_overrun -> repeat one n <> [].
Proof.
  intros Hn E. apply (f_equal (@List.length float)) in E.
  rewrite repeat_length in E. cbn in E. subst n. discriminate.
Qed.

Lemma inexact_rank :
  pctpos count_inexact (PFloat hundred) = Ok (S754_finite false 5764607523034255 (-4))
  /\ pctposi (S754_finite false 5764607523034255 (-4)) = Ok (count_inexact - 2)
  /\ wgt (S754_finite false 5764607523034255 (-4)) (count_inexact - 2)
     = Ok (S754_finite false 8444249301319680 (-53))
  /\ F64.ltb (F64.abs (S754_finite false 8444249301319680 (-53))) prec = false
  /\ pctl [one; two] 0 (S754_finite false 8444249301319680 (-53))
     = Ok (S754_finite false 8725724278030336 (-52)).
Proof. repeat split; vm_compute; reflexivity. Qed.

Lemma inexact_percentile n :
  Z.of_nat n = count_inexact - 1 ->
  percentile (repeat one n ++ [two]) count_inexact (PFloat hundred)
  = Ok (S754_finite false 8725724278030336 (-52)).
Proof.
  intros Hn. destruct inexact_rank as (Hp & Hi & Hw & Hlt & Hv).
  unfold percentile. rewrite Hp. cbn [bind]. rewrite Hi. cbn [bind].
  rewrite Hw. cbn [bind]. unfold pctl in *. rewrite Hlt in *.
  rewrite !py_index_repeat_app
    by (rewrite Hn; split; apply Z.leb_le; reflexivity).
  rewrite Hn. exact Hv.
Qed.

Lemma inexact_summary n :
  Z.of_nat n = count_inexact - 1 ->
  summarize (sort (repeat one n ++ [two])) count_inexact (PFloat hundred)
  = Ok (Summary count_inexact one one
          (F64.div (sum (repeat one n ++ [two])) (F64.of_Z count_inexact))
          (S754_finite false 8725724278030336 (-52)) two).
Proof.
  intros Hn.
  rewrite (sort_fixed (repeat one n ++ [two])) by (now apply ascending_repeat_app).
  rewrite summarize_percentile.
  rewrite middle_ok by (unfold count_inexact; lia). cbn [bind].
  rewrite med_even by reflexivity.
  rewrite avg_ok by (unfold count_inexact; lia).
  rewrite inexact_percentile by assumption.
  rewrite !py_index_repeat_app
    by (rewrite Hn; split; apply Z.leb_le; reflexivity).
  rewrite Hn. reflexivity.
Qed.

(** The bound [25 * (count - 1) < 2^53] on the count, under which the
    rank for [pct = 100.0] is exact, is within two items of the best the
    arithmetic allows.  Past it the product [(count - 1) * 100.0] is rounded: with
    360287970189644 items the rank is [360287970189643.0625], the index
    is [count - 1] and the weight [0.0625].  No process holds such a
    list; the lemma says why the theorems on [pct = 100] carry the
    bound. *)
Lemma rank_rounded_past_bound :
  repeat one (Z.to_nat count_overrun) <> []
  /\ Z.of_nat (List.length (repeat one (Z.to_nat count_overrun))) = count_overrun
  /\ pctpos count_overrun (PFloat hundred)
     = Ok (S754_finite false 5764607523034289 (-4))
  /\ pctposi (S754_finite false 5764607523034289 (-4)) = Ok (count_overrun - 1)
  /\ wgt (S754_finite false 5764607523034289 (-4)) (count_overrun - 1)
     = Ok (S754_finite false 4503599627370496 (-56))
  /\ F64.ltb (F64.abs (S754_finite false 4503599627370496 (-56))) prec = false
  /\ snd (stats (repeat one (Z.to_nat count_overrun)) (PFloat hundred) 2 false)
     = Raise IndexError.
Proof.
  assert (H : Z.of_nat (Z.to_nat count_overrun) = count_overrun)
    by (apply Z2Nat.id; discriminate).
  split; [now apply overrun_not_empty|].
  split; [now rewrite repeat_length|].
  destruct overrun_rank as (Hp & Hi & Hw & Hlt).
  do 4 (split; [assumption|]).
  now apply overrun_stats_of_length.
Qed.

(** With 360287970189642 items, all [1.0] but the last, [2.0], the rank
    for [pct = 100.0] is [360287970189640.9375] and the index
    [count - 2]. *)
Lemma rank_short_of_last_past_bound :
  Z.of_nat (List.length (repeat one (Z.to_nat (count_inexact - 1)) ++ [two]))
  = count_inexact
  /\ exists v,
       summarize (sort (repeat one (Z.to_nat (count_inexact - 1)) ++ [two]))
         count_inexact (PFloat hundred) = Ok v
       /\ s_max v = two
       /\ s_pctl v = S754_finite false 8725724278030336 (-52)
       /\ F64.eqb (s_pctl v) (s_max v) = false.
Proof.
  assert (H : Z.of_nat (Z.to_nat (count_inexact - 1)) = count_inexact - 1)
    by (apply Z2Nat.id; discriminate).
  split.
  - rewrite length_app, repeat_length, Nat2Z.inj_add, H. reflexivity.
  - eexists. split; [now apply inexact_summary|].
    cbn [s_max s_pctl]. repeat split.
Qed.

(** ** Halving: [x / 2.0] and [x * 0.5] *)

Lemma two_ref : two = round_ref false 1 1.
Proof. reflexivity. Qed.

Lemma half_ref : half = round_ref false 1 (-1).
Proof. reflexivity. Qed.

Lemma valid_finite_intro s m e :
  -1074 <= e <= 971 -> Zdigits2 (Zpos m) <= 53 ->
  Zdigits2 (Zpos m) = 53 \/ e = -1074 ->
  F64.valid (S754_finite s m e) = true.
Proof.
  intros He Hd Hc.
  unfold F64.valid, valid_binary, bounded, canonical_mantissa.
  rewrite fexp64_eq. change (Z.pos (digits2_pos m)) with (Zdigits2 (Z.pos m)).
  apply andb_true_intro. split.
  - apply Z.eqb_eq. unfold fexp64. lia.
  - apply Z.leb_le. change (F64.emax - F64.prec) with 971. lia.
Qed.

Lemma repr_valid s m e :
  F64.valid (S754_finite s m e) = true -> representable (Zpos m) e.
Proof.
  intros H. apply valid_finite_inv in H. unfold representable. lia.
Qed.

Lemma repr_one e : -1074 <= e <= 1023 -> representable 1 e.
Proof. unfold representable. change (Zdigits2 1) with 1. lia. Qed.

Lemma valid_lower s m e :
  F64.valid (S754_finite s m e) = true -> -1074 < e ->
  F64.valid (S754_finite s m (e - 1)) = true.
Proof.
  intros H He. apply valid_finite_inv in H. apply valid_finite_intro; lia.
Qed.

Lemma mul_half s m e :
  F64.valid (S754_finite s m e) = true -> -1074 < e ->
  F64.mul (S754_finite s m e) half = S754_finite s m (e - 1).
Proof.
  intros H He.
  rewrite <- (round_ref_valid s m e H), half_ref.
  rewrite mul_exact by (first [eapply repr_valid; eassumption | apply repr_one; lia]).
  rewrite xorb_false_r, Z.mul_1_r. change (e + -1) with (e - 1).
  now apply round_ref_valid, valid_lower.
Qed.

Lemma div_two s m e :
  F64.valid (S754_finite s m e) = true -> -1074 < e ->
  F64.div (S754_finite s m e) two = S754_finite s m (e - 1).
Proof.
  intros H He. pose proof (valid_lower s m e H He) as Hl.
  rewrite <- (round_ref_valid s m e H), two_ref.
  rewrite (div_exact s (Zpos m) e false 1 1 (Zpos m) (e - 1) 0 0);
    try lia; try (eapply repr_valid; eassumption); try (apply repr_one; lia).
  rewrite xorb_false_r. now apply round_ref_valid.
Qed.

Lemma finite_or_inf_half s R E :
  2 ^ 52 <= R < 2 ^ 53 -> -1074 < E ->
  F64.is_finite (finite_or_inf s R E) = true ->
  F64.div (finite_or_inf s R E) two = finite_or_inf s R (E - 1).
Proof.
  intros HR HE. unfold finite_or_inf.
  destruct (Z.leb_spec E 971) as [Hle|Hgt]; [|discriminate].
  replace (E - 1 <=? 971) with true by (symmetry; apply Z.leb_le; lia).
  destruct R as [|p|p]; try lia. intros _.
  apply div_two; [|exact HE].
  apply valid_finite_intro; try lia.
  - rewrite (Zdigits2_unique (Zpos p) 53); [lia|exact HR|lia].
  - left. apply Zdigits2_unique; [exact HR|lia].
Qed.

Lemma round_ref_half s z e :
  0 < z -> -1074 < e ->
  F64.is_finite (round_ref s z e) = true ->
  F64.div (round_ref s z e) two = round_ref s z (e - 1).
Proof.
  intros Hz He Hf.
  pose proof (Zdigits2_bounds z Hz) as Hd.
  pose proof (Zdigits2_pos z Hz) as Hd0.
  destruct (Z_le_gt_dec (Zdigits2 z) 53) as [Hs|Hl].
  - assert (Hr : representable z e).
    { unfold representable. repeat split; try lia.
      revert Hf. unfold round_ref.
      replace (fexp64 (Zdigits2 z + e) - e <=? 0) with true
        by (symmetry; apply Z.leb_le; unfold fexp64; lia).
      unfold finite_or_inf.
      destruct (Z.leb_spec (e + (fexp64 (Zdigits2 z + e) - e)) 971) as [H|H];
        [|discriminate].
      intros _. unfold fexp64 in H. lia. }
    rewrite two_ref.
    rewrite (div_exact s z e false 1 1 z (e - 1) 0 0); try lia; try assumption.
    + now rewrite xorb_false_r.
    + apply repr_one; lia.
    + unfold representable in *. lia.
  - revert Hf. unfold round_ref.
    assert (Hn : fexp64 (Zdigits2 z + e) - e = Zdigits2 z - 53)
      by (unfold fexp64; lia).
    assert (Hn' : fexp64 (Zdigits2 z + (e - 1)) - (e - 1) = Zdigits2 z - 53)
      by (unfold fexp64; lia).
    rewrite Hn, Hn'.
    replace (Zdigits2 z - 53 <=? 0) with false by (symmetry; apply Z.leb_gt; lia).
    pose proof (rne_bounds z (Zdigits2 z - 53) ltac:(lia) ltac:(lia)) as Hr.
    assert (Hq : 2 ^ 52 <= z / 2 ^ (Zdigits2 z - 53) < 2 ^ 53).
    { split.
      - apply Z.div_le_lower_bound; [apply Z.pow_pos_nonneg; lia|].
        rewrite <- Z.pow_add_r by lia.
        replace (Zdigits2 z - 53 + 52) with (Zdigits2 z - 1) by lia. lia.
      - apply Z.div_lt_upper_bound; [apply Z.pow_pos_nonneg; lia|].
        rewrite <- Z.pow_add_r by lia.
        replace (Zdigits2 z - 53 + 53) with (Zdigits2 z) by lia. lia. }
    replace (rne z (Zdigits2 z - 53) =? 0) with false
      by (symmetry; apply Z.eqb_neq; lia).
    destruct (Z.ltb_spec (rne z (Zdigits2 z - 53)) (2 ^ 53)) as [Hlt|Hge]; intros Hf.
    + replace (e - 1 + (Zdigits2 z - 53)) with (e + (Zdigits2 z - 53) - 1) by lia.
      apply finite_or_inf_half; [lia | lia | exact Hf].
    + replace (e - 1 + (Zdigits2 z - 53) + 1) with (e + (Zdigits2 z - 53) + 1 - 1)
        by lia.
      apply finite_or_inf_half; [lia | lia | exact Hf].
Qed.

Lemma normalize_ref_half z e :
  -1074 < e ->
  F64.is_finite (normalize_ref z e) = true ->
  F64.div (normalize_ref z e) two = normalize_ref z (e - 1).
Proof.
  intros He. destruct z as [|p|p]; cbn [normalize_ref].
  - reflexivity.
  - now apply round_ref_half.
  - now apply round_ref_half.
Qed.

(** [b * 0.5 + a * 0.5] and [(a + b) / 2.0] are the same float when
    neither halving underflows and the sum does not overflow. *)
Theorem median_interpolation a b :
  halvable a -> halvable b ->
  F64.is_finite (F64.add a b) = true ->
  F64.add (F64.mul b half) (F64.mul a half) = F64.div (F64.add a b) two.
Proof.
  intros [Va Ha] [Vb Hb].
  destruct a as [sa|sa| |sa ma ea]; try contradiction;
    destruct b as [sb|sb| |sb mb eb]; try contradiction.
  - intros _. destruct sa, sb; reflexivity.
  - intros _. change (F64.add (S754_zero sa) (S754_finite sb mb eb))
      with (S754_finite sb mb eb).
    rewrite mul_half, div_two by assumption. destruct sa; reflexivity.
  - intros _. change (F64.add (S754_finite sa ma ea) (S754_zero sb))
      with (S754_finite sa ma ea).
    rewrite mul_half, div_two by assumption. destruct sb; reflexivity.
  - rewrite !mul_half by assumption. rewrite !add_finite. intros Hf.
    replace (Z.min (eb - 1) (ea - 1)) with (Z.min ea eb - 1) by lia.
    replace (eb - 1 - (Z.min ea eb - 1)) with (eb - Z.min ea eb) by lia.
    replace (ea - 1 - (Z.min ea eb - 1)) with (ea - Z.min ea eb) by lia.
    rewrite normalize_ref_half by (assumption || lia).
    now rewrite Z.add_comm.
Qed.

(** ** Order of finite floats, in integers *)

Lemma pow2_pos k : 0 <= k -> 0 < 2 ^ k.
Proof. intros; apply Z.pow_pos_nonneg; lia. Qed.

Lemma mantissa_lt m : Zdigits2 (Zpos m) <= 53 -> Zpos m < 2 ^ 53.
Proof.
  intros H. pose proof (Zdigits2_bounds (Zpos m) (Pos2Z.is_pos m)) as [_ Hb].
  eapply Z.lt_le_trans; [exact Hb|]. apply Z.pow_le_mono_r; lia.
Qed.

Lemma mantissa_ge m : Zdigits2 (Zpos m) = 53 -> 2 ^ 52 <= Zpos m.
Proof.
  intros H. pose proof (Zdigits2_bounds (Zpos m) (Pos2Z.is_pos m)) as [Hb _].
  now rewrite H in Hb.
Qed.

Lemma lower_binade m1 e1 m2 e2 :
  0 <= m1 < 2 ^ 53 -> 2 ^ 52 <= m2 -> -1075 <= e1 -> e1 < e2 ->
  m1 * 2 ^ (e1 + 1075) < m2 * 2 ^ (e2 + 1075).
Proof.
  intros H1 H2 He Hlt.
  replace (e2 + 1075) with ((e2 - e1 - 1) + (1 + (e1 + 1075))) by lia.
  rewrite (Z.pow_add_r 2 (e2 - e1 - 1)), (Z.pow_add_r 2 1) by lia.
  pose proof (pow2_pos (e1 + 1075) ltac:(lia)) as Hp.
  pose proof (pow2_pos (e2 - e1 - 1) ltac:(lia)) as Hq.
  change (2 ^ 1) with 2.
  assert (m1 < m2 * (2 ^ (e2 - e1 - 1) * 2)) by nia.
  nia.
Qed.

Lemma units_lt_exp s1 s2 m1 e1 m2 e2 :
  F64.valid (S754_finite s1 m1 e1) = true ->
  F64.valid (S754_finite s2 m2 e2) = true ->
  e1 < e2 ->
  Zpos m1 * 2 ^ (e1 + 1075) < Zpos m2 * 2 ^ (e2 + 1075).
Proof.
  intros V1 V2 He.
  apply valid_finite_inv in V1 as (He1 & Hd1 & _).
  apply valid_finite_inv in V2 as (He2 & Hd2 & Hc2).
  apply lower_binade; try lia.
  - split; [lia | now apply mantissa_lt].
  - apply mantissa_ge. lia.
Qed.

Lemma leb_units x y :
  F64.valid x = true -> F64.valid y = true ->
  F64.is_finite x = true -> F64.is_finite y = true ->
  F64.leb x y = (units x <=? units y).
Proof.
  intros Vx Vy Fx Fy.
  destruct x as [sx|sx| |sx mx ex]; try discriminate;
    destruct y as [sy|sy| |sy my ey]; try discriminate; clear Fx Fy.
  - reflexivity.
  - cbn [units]. pose proof (valid_finite_inv _ _ _ Vy) as (He & _).
    pose proof (pow2_pos (ey + 1075) ltac:(lia)).
    unfold F64.leb, SFleb; cbn [SFcompare].
    destruct sy; cbn [cond_Zopp]; symmetry;
      [apply Z.leb_gt | apply Z.leb_le]; nia.
  - cbn [units]. pose proof (valid_finite_inv _ _ _ Vx) as (He & _).
    pose proof (pow2_pos (ex + 1075) ltac:(lia)).
    unfold F64.leb, SFleb; cbn [SFcompare].
    destruct sx; cbn [cond_Zopp]; symmetry;
      [apply Z.leb_le | apply Z.leb_gt]; nia.
  - cbn [units].
    pose proof (valid_finite_inv _ _ _ Vx) as (Hex & _).
    pose proof (valid_finite_inv _ _ _ Vy) as (Hey & _).
    pose proof (pow2_pos (ex + 1075) ltac:(lia)) as Hpx.
    pose proof (pow2_pos (ey + 1075) ltac:(lia)) as Hpy.
    assert (Hlt : ex < ey ->
              Zpos mx * 2 ^ (ex + 1075) < Zpos my * 2 ^ (ey + 1075))
      by (intros H; now apply (units_lt_exp sx sy)).
    assert (Hgt : ey < ex ->
              Zpos my * 2 ^ (ey + 1075) < Zpos mx * 2 ^ (ex + 1075))
      by (intros H; now apply (units_lt_exp sy sx)).
    unfold F64.leb, SFleb; cbn [SFcompare].
    destruct sx, sy; cbn [cond_Zopp]; symmetry.
    + destruct (Z.compare_spec ex ey) as [E|E|E].
      * subst ey. change (Pos.compare_cont Eq mx my) with (Pos.compare mx my).
        destruct (Pos.compare_spec mx my) as [F|F|F]; cbn [CompOpp];
          [apply Z.leb_le | apply Z.leb_gt | apply Z.leb_le]; nia.
      * apply Z.leb_gt. specialize (Hlt E). lia.
      * apply Z.leb_le. specialize (Hgt E). lia.
    + apply Z.leb_le. nia.
    + apply Z.leb_gt. nia.
    + destruct (Z.compare_spec ex ey) as [E|E|E].
      * subst ey. change (Pos.compare_cont Eq mx my) with (Pos.compare mx my).
        destruct (Pos.compare_spec mx my) as [F|F|F];
          [apply Z.leb_le | apply Z.leb_le | apply Z.leb_gt]; nia.
      * apply Z.leb_le. specialize (Hlt E). lia.
      * apply Z.leb_gt. specialize (Hgt E). lia.
Qed.

(** ** The float that rounding gives, among the floats around it *)

Lemma grid_opp v : grid v -> grid (- v).
Proof. intros (m & e & H). exists m, e. now rewrite Z.abs_opp. Qed.

Lemma grid_double v : grid v -> grid (2 * v).
Proof.
  intros (m & e & Hm & He & H). exists m, (e + 1). repeat split; try lia.
  rewrite Z.abs_mul, H. change (Z.abs 2) with 2.
  replace (e + 1 + 1075) with (1 + (e + 1075)) by lia.
  rewrite (Z.pow_add_r 2 1) by lia. change (2 ^ 1) with 2. ring.
Qed.

Lemma grid_units x : F64.valid x = true -> grid (units x).
Proof.
  intros V. destruct x as [s|s| |s m e]; try (exists 0, 0; cbn; lia).
  apply valid_finite_inv in V as (He & Hd & _).
  exists (Zpos m), e. repeat split; try lia.
  - now apply mantissa_lt.
  - cbn [units]. pose proof (pow2_pos (e + 1075) ltac:(lia)).
    destruct s; cbn [cond_Zopp]; lia.
Qed.

Lemma rne_floor m n : 0 <= m -> 0 <= n -> m mod 2 ^ n = 0 -> rne m n = m / 2 ^ n.
Proof.
  intros Hm Hn H0. pose proof (pow2_pos n Hn) as Hp.
  rewrite (Z.div_mod m (2 ^ n)) at 1 by lia.
  rewrite H0, Z.add_0_r, Z.mul_comm. apply rne_exact; [|exact Hn].
  apply Z.div_pos; lia.
Qed.

(** Rounding [m * 2^e], with [n > 0] bits dropped, to [r] units of
    [2^(e+n)]: no float lies strictly between the number and its
    rounding. *)
Lemma rounded_between m e n r v :
  0 < m -> -1075 <= e -> 0 < n ->
  m / 2 ^ n <= r <= m / 2 ^ n + 1 ->
  (m mod 2 ^ n = 0 -> r = m / 2 ^ n) ->
  (-1074 < e + n -> 2 ^ 52 <= m / 2 ^ n) ->
  grid v ->
  (v <= m * 2 ^ (e + 1075) -> v <= r * 2 ^ (e + n + 1075))
  /\ (m * 2 ^ (e + 1075) <= v -> r * 2 ^ (e + n + 1075) <= v).
Proof.
  intros Hm He Hn Hr Hex Hnorm (mv & ev & Hmv & Hev & Hv).
  set (B := 2 ^ (e + 1075)). set (N := 2 ^ n).
  assert (HB : 0 < B) by (apply pow2_pos; lia).
  assert (HN : 0 < N) by (apply pow2_pos; lia).
  assert (HP : 2 ^ (e + n + 1075) = N * B).
  { unfold N, B. rewrite <- Z.pow_add_r by lia. f_equal. lia. }
  rewrite HP. fold N in Hr, Hex, Hnorm.
  pose proof (Z.div_mod m N ltac:(lia)) as Hdm.
  pose proof (Z.mod_pos_bound m N HN) as Hrho.
  set (q := m / N) in *. set (rho := m mod N) in *.
  assert (Hq0 : 0 <= q) by (apply Z.div_pos; lia).
  destruct (Z_le_gt_dec v 0) as [Hneg|Hpos].
  { split; intros H; [|].
    - assert (0 <= r * (N * B)) by nia. lia.
    - assert (0 < m * B) by nia. lia. }
  rewrite Z.abs_eq in Hv by lia.
  destruct (Z_le_gt_dec (e + n) ev) as [Hhi|Hlo].
  - (* the float is a multiple of the unit of the rounding *)
    set (t := mv * 2 ^ (ev - (e + n))).
    assert (Ht : v = t * (N * B)).
    { rewrite Hv. unfold t. rewrite <- HP, <- Z.mul_assoc, <- Z.pow_add_r by lia.
      do 2 f_equal. lia. }
    rewrite Ht. split; intros H.
    + assert (t * N <= m) by nia.
      assert (t <= q) by (apply Z.div_le_lower_bound; lia).
      nia.
    + assert (Hge : m <= t * N) by nia.
      destruct (Z.eq_dec rho 0) as [E|E].
      * rewrite (Hex E). assert (q <= t) by nia. nia.
      * assert (q < t) by nia. nia.
  - (* the float is below the binade of the rounding *)
    assert (Hq : 2 ^ 52 <= q) by (apply Hnorm; lia).
    assert (Hlt : v < 2 ^ 52 * (N * B)).
    { rewrite Hv, <- HP. apply lower_binade; lia. }
    split; intros H.
    + nia.
    + assert (q * (N * B) <= m * B) by nia. nia.
Qed.

Lemma cond_Zopp_mul s a b : cond_Zopp s a * b = cond_Zopp s (a * b).
Proof. destruct s; cbn [cond_Zopp]; lia. Qed.

Lemma units_finite_or_inf s r E :
  0 <= r -> -1075 <= E ->
  F64.is_finite (finite_or_inf s r E) = true ->
  units (finite_or_inf s r E) = cond_Zopp s (r * 2 ^ (E + 1075))
  /\ 0 < r /\ E <= 971.
Proof.
  unfold finite_or_inf. intros Hr HE.
  destruct (Z.leb_spec E 971); [|discriminate].
  destruct r as [|p|p]; try discriminate; try lia.
  intros _. cbn [units]. repeat split; lia.
Qed.

(** What [round_ref] gives when it does not overflow: a float in
    canonical form, of [r] units of [2^(e+n)]. *)
Lemma round_ref_cases s m e :
  0 < m -> -1075 <= e ->
  F64.is_finite (round_ref s m e) = true ->
  let n := fexp64 (Zdigits2 m + e) - e in
  F64.valid (round_ref s m e) = true
  /\ units (round_ref s m e)
     = cond_Zopp s ((if n <=? 0 then m * 2 ^ (- n) else rne m n)
                    * 2 ^ (e + n + 1075)).
Proof.
  intros Hm He Hf n. revert Hf. unfold round_ref. fold n.
  pose proof (Zdigits2_bounds m Hm) as Hd.
  pose proof (Zdigits2_pos m Hm) as Hd0.
  assert (HE : -1074 <= e + n) by (unfold n, fexp64; lia).
  destruct (Z.leb_spec n 0) as [Hn|Hn].
  - intros Hf.
    assert (Hp : 0 < m * 2 ^ (- n)) by (pose proof (pow2_pos (- n) ltac:(lia)); nia).
    destruct (units_finite_or_inf s (m * 2 ^ (- n)) (e + n)
                ltac:(lia) ltac:(lia) Hf) as (Hu & _ & Hmax).
    split; [|exact Hu].
    unfold finite_or_inf in *.
    replace (e + n <=? 971) with true in * by (symmetry; apply Z.leb_le; lia).
    destruct (m * 2 ^ (- n)) as [|p|p] eqn:Ep; try lia.
    assert (Hdp : Zdigits2 (Zpos p) = Zdigits2 m - n)
      by (rewrite <- Ep, Zdigits2_shift by lia; lia).
    apply valid_finite_intro; try lia; unfold n, fexp64 in *; lia.
  - pose proof (rne_bounds m n ltac:(lia) ltac:(lia)) as Hr.
    pose proof (quotient_digits m n Hm ltac:(lia) ltac:(unfold n, fexp64; lia)) as Hq.
    assert (Hq0 : 0 <= m / 2 ^ n)
      by (apply Z.div_pos; [lia | apply pow2_pos; lia]).
    destruct (Z.eqb_spec (rne m n) 0) as [E0|E0].
    + intros _. rewrite E0. split; [reflexivity|]. now destruct s.
    + destruct (Z.ltb_spec (rne m n) (2 ^ 53)) as [Hlt|Hge]; intros Hf.
      * destruct (units_finite_or_inf s (rne m n) (e + n)
                    ltac:(lia) ltac:(lia) Hf) as (Hu & _ & Hmax).
        split; [|exact Hu].
        unfold finite_or_inf in *.
        replace (e + n <=? 971) with true in * by (symmetry; apply Z.leb_le; lia).
        destruct (rne m n) as [|p|p] eqn:Ep; try lia.
        assert (Hdp : Zdigits2 (Zpos p) <= 53) by (apply Zdigits2_le; lia).
        apply valid_finite_intro; try lia.
        destruct (Z.eq_dec (e + n) (-1074)) as [|Hne]; [now right|left].
        apply Zdigits2_unique; [|lia]. split; [|exact Hlt].
        assert (Hn53 : n = Zdigits2 m - 53) by (unfold n, fexp64 in *; lia).
        assert (2 ^ 52 <= m / 2 ^ n); [|lia].
        apply Z.div_le_lower_bound; [apply pow2_pos; lia|].
        rewrite <- Z.pow_add_r by lia.
        replace (n + 52) with (Zdigits2 m - 1) by lia. lia.
      * destruct (units_finite_or_inf s (2 ^ 52) (e + n + 1)
                    ltac:(lia) ltac:(lia) Hf) as (Hu & _ & Hmax).
        split.
        -- unfold finite_or_inf.
           replace (e + n + 1 <=? 971) with true by (symmetry; apply Z.leb_le; lia).
           change (2 ^ 52) with (Zpos 4503599627370496). cbv iota.
           apply valid_finite_intro; [lia | | left]; reflexivity.
        -- rewrite Hu. f_equal. replace (rne m n) with (2 ^ 53) by lia.
           replace (e + n + 1 + 1075) with (1 + (e + n + 1075)) by lia.
           rewrite (Z.pow_add_r 2 1) by lia. rewrite Z.mul_assoc. reflexivity.
Qed.

Theorem round_ref_between s m e :
  0 < m -> -1075 <= e ->
  F64.is_finite (round_ref s m e) = true ->
  F64.valid (round_ref s m e) = true
  /\ between (cond_Zopp s (m * 2 ^ (e + 1075))) 0 (round_ref s m e).
Proof.
  intros Hm He Hf.
  destruct (round_ref_cases s m e Hm He Hf) as [Hv Hu]. split; [exact Hv|].
  assert (Hpos : forall v, grid v ->
            (v <= m * 2 ^ (e + 1075) -> v <= Z.abs (units (round_ref s m e)))
            /\ (m * 2 ^ (e + 1075) <= v -> Z.abs (units (round_ref s m e)) <= v)).
  { intros v Hg. rewrite Hu. clear Hu Hv Hf.
    set (n := fexp64 (Zdigits2 m + e) - e).
    pose proof (Zdigits2_bounds m Hm) as Hd.
    pose proof (Zdigits2_pos m Hm) as Hd0.
    assert (HE : -1074 <= e + n) by (unfold n, fexp64; lia).
    pose proof (pow2_pos (e + n + 1075) ltac:(lia)) as HP.
    destruct (Z.leb_spec n 0) as [Hn|Hn].
    - assert (E : Z.abs (cond_Zopp s (m * 2 ^ (- n) * 2 ^ (e + n + 1075)))
                  = m * 2 ^ (e + 1075)).
      { pose proof (pow2_pos (- n) ltac:(lia)).
        rewrite <- Z.mul_assoc, <- Z.pow_add_r by lia.
        replace (- n + (e + n + 1075)) with (e + 1075) by lia.
        pose proof (pow2_pos (e + 1075) ltac:(lia)).
        destruct s; cbn [cond_Zopp]; nia. }
      rewrite E. lia.
    - pose proof (rne_bounds m n ltac:(lia) ltac:(lia)) as Hr.
      assert (Hq0 : 0 <= m / 2 ^ n)
        by (apply Z.div_pos; [lia | apply pow2_pos; lia]).
      assert (E : Z.abs (cond_Zopp s (rne m n * 2 ^ (e + n + 1075)))
                  = rne m n * 2 ^ (e + n + 1075))
        by (destruct s; cbn [cond_Zopp]; nia).
      rewrite E. apply rounded_between; auto; try lia.
      + intros H0. apply rne_floor; lia.
      + intros Hnorm. assert (Hn53 : n = Zdigits2 m - 53) by (unfold n, fexp64 in *; lia).
        apply Z.div_le_lower_bound; [apply pow2_pos; lia|].
        rewrite <- Z.pow_add_r by lia.
        replace (n + 52) with (Zdigits2 m - 1) by lia. lia. }
  assert (Hsign : units (round_ref s m e)
                  = cond_Zopp s (Z.abs (units (round_ref s m e)))).
  { rewrite Hu. set (n := fexp64 (Zdigits2 m + e) - e).
    assert (0 <= (if n <=? 0 then m * 2 ^ (- n) else rne m n) * 2 ^ (e + n + 1075)).
    { assert (HE : -1074 <= e + n) by (unfold n, fexp64; lia).
      pose proof (pow2_pos (e + n + 1075) ltac:(lia)).
      destruct (Z.leb_spec n 0).
      - pose proof (pow2_pos (- n) ltac:(lia)). nia.
      - pose proof (rne_bounds m n ltac:(lia) ltac:(lia)).
        assert (0 <= m / 2 ^ n) by (apply Z.div_pos; [lia | apply pow2_pos; lia]).
        nia. }
    destruct s; cbn [cond_Zopp]; lia. }
  intros v Hg. unfold between. rewrite Z.pow_0_r, Z.mul_1_r, Hsign.
  destruct s; cbn [cond_Zopp].
  - destruct (Hpos (- v) (grid_opp v Hg)) as [H1 H2]. split; intros H.
    + assert (Z.abs (units (round_ref true m e)) <= - v) by (apply H2; lia). lia.
    + assert (- v <= Z.abs (units (round_ref true m e))) by (apply H1; lia). lia.
  - apply Hpos, Hg.
Qed.

Lemma between_exact x : between (units x) 0 x.
Proof.
  intros v _. rewrite Z.pow_0_r, Z.mul_1_r. split; intros H; exact H.
Qed.

Theorem normalize_ref_between z e :
  -1075 <= e ->
  F64.is_finite (normalize_ref z e) = true ->
  F64.valid (normalize_ref z e) = true
  /\ between (z * 2 ^ (e + 1075)) 0 (normalize_ref z e).
Proof.
  intros He. destruct z as [|p|p]; cbn [normalize_ref]; intros Hf.
  - split; [reflexivity|]. apply (between_exact (S754_zero false)).
  - now apply (round_ref_between false (Zpos p) e).
  - destruct (round_ref_between true (Zpos p) e) as [Hv Hb]; auto; try lia.
    split; [exact Hv|].
    replace (Z.neg p * 2 ^ (e + 1075))
      with (cond_Zopp true (Z.pos p * 2 ^ (e + 1075))); [exact Hb|].
    cbn [cond_Zopp]. lia.
Qed.

(** The sum of two finite floats, when it is finite. *)
Theorem add_between a b :
  F64.valid a = true -> F64.valid b = true ->
  F64.is_finite a = true -> F64.is_finite b = true ->
  F64.is_finite (F64.add a b) = true ->
  F64.valid (F64.add a b) = true
  /\ between (units a + units b) 0 (F64.add a b).
Proof.
  intros Va Vb Fa Fb.
  destruct a as [sa|sa| |sa ma ea]; try discriminate;
    destruct b as [sb|sb| |sb mb eb]; try discriminate; clear Fa Fb.
  - intros _. split; [now destruct sa, sb|].
    destruct sa, sb; apply (between_exact (S754_zero _)).
  - intros _. split; [exact Vb|]. apply (between_exact (S754_finite sb mb eb)).
  - intros _. split; [exact Va|].
    change (units (S754_zero sb)) with 0. rewrite Z.add_0_r.
    apply (between_exact (S754_finite sa ma ea)).
  - rewrite add_finite. intros Hf.
    apply valid_finite_inv in Va as (Hea & _).
    apply valid_finite_inv in Vb as (Heb & _).
    set (mn := Z.min ea eb) in *.
    destruct (normalize_ref_between _ mn ltac:(lia) Hf) as [Hv Hb].
    split; [exact Hv|].
    replace (units (S754_finite sa ma ea) + units (S754_finite sb mb eb))
      with ((cond_Zopp sa (Zpos ma * 2 ^ (ea - mn))
             + cond_Zopp sb (Zpos mb * 2 ^ (eb - mn))) * 2 ^ (mn + 1075));
      [exact Hb|].
    cbn [units]. rewrite Z.mul_add_distr_r, !cond_Zopp_mul.
    rewrite <- !Z.mul_assoc, <- !Z.pow_add_r by lia.
    replace (ea - mn + (mn + 1075)) with (ea + 1075) by lia.
    replace (eb - mn + (mn + 1075)) with (eb + 1075) by lia.
    reflexivity.
Qed.

(** ** Halving a finite float: [x / 2.0] in general *)

Lemma div_core_two p :
  Zdigits2 (Zpos p) <= 53 ->
  SFdiv_core_binary F64.prec F64.emax (Zpos p) (-1074) (2 ^ 52) (-51)
  = (Zpos p / 2, -1074, if Z.odd (Zpos p) then loc_Inexact Eq else loc_Exact).
Proof.
  intros Hd. unfold SFdiv_core_binary. cbv zeta. rewrite fexp64_eq.
  change (Zdigits2 (2 ^ 52)) with 53.
  pose proof (Zdigits2_pos (Zpos p) (Pos2Z.is_pos p)) as Hd0.
  replace (Z.min (fexp64 (Zdigits2 (Z.pos p) + -1074 - (53 + -51))) (-1074 - -51))
    with (-1074) by (unfold fexp64; lia).
  change (-1074 - -51 - -1074) with 51. cbv iota.
  rewrite Z.shiftl_mul_pow2 by lia.
  assert (Hq : Zpos p * 2 ^ 51 / 2 ^ 52 = Zpos p / 2).
  { change (2 ^ 52) with (2 * 2 ^ 51). apply Z.div_mul_cancel_r; lia. }
  assert (Hr : (Zpos p * 2 ^ 51) mod 2 ^ 52 = (Zpos p mod 2) * 2 ^ 51).
  { change (2 ^ 52) with (2 * 2 ^ 51). apply Z.mul_mod_distr_r; lia. }
  unfold Z.div, Z.modulo in Hq, Hr.
  destruct (Z.div_eucl (Z.pos p * 2 ^ 51) (2 ^ 52)) as [q r].
  cbn [fst snd] in Hq, Hr. subst q r.
  f_equal. change (Z.pos p mod 2) with (Z.modulo (Zpos p) 2).
  fold (Z.modulo (Zpos p) 2). rewrite (Zmod_odd (Zpos p)).
  destruct (Z.odd (Zpos p)); reflexivity.
Qed.

Lemma shifted_one m :
  shifted m 1
  = shr_record_of_loc (m / 2) (if Z.odd m then loc_Inexact Eq else loc_Exact).
Proof.
  unfold shifted. change (2 ^ 1) with 2. rewrite (Zmod_odd m).
  destruct (Z.odd m); reflexivity.
Qed.

Lemma div_two_subnormal s p :
  Zdigits2 (Zpos p) <= 53 ->
  F64.div (S754_finite s p (-1074)) two = round_ref s (Zpos p) (-1075).
Proof.
  intros Hd.
  pose proof (Zdigits2_pos (Zpos p) (Pos2Z.is_pos p)) as Hd0.
  rewrite <- binary_round_aux_ref by (unfold fexp64; lia).
  unfold F64.div, two, SFdiv.
  change (Z.pos 4503599627370496) with (2 ^ 52).
  rewrite (div_core_two p Hd), xorb_false_r.
  unfold binary_round_aux.
  rewrite (shr_fexp_exact (Zpos p) (-1075)) by lia. cbv zeta.
  replace (fexp64 (Zdigits2 (Z.pos p) + -1075) - -1075) with 1
    by (unfold fexp64; lia).
  change (1 <=? 0) with false. cbv iota. change (-1075 + 1) with (-1074).
  rewrite shifted_one.
  assert (Hh : fexp64 (Zdigits2 (Zpos p / 2) + -1074) - -1074 = 0).
  { assert (0 <= Zdigits2 (Zpos p / 2) <= 53); [|unfold fexp64; lia].
    destruct (Z.eq_dec (Zpos p / 2) 0) as [E|E]; [rewrite E; cbn; lia|].
    assert (0 < Zpos p / 2)
      by (pose proof (Z.div_pos (Zpos p) 2 ltac:(lia) ltac:(lia)); lia).
    split; [pose proof (Zdigits2_pos _ H); lia|].
    etransitivity; [|exact Hd]. apply Zdigits2_mono; [exact H|].
    apply Z.div_le_upper_bound; lia. }
  unfold shr_fexp at 1. rewrite fexp64_eq, Hh. reflexivity.
Qed.

Lemma div_two_round s p E :
  F64.valid (S754_finite s p E) = true ->
  F64.div (S754_finite s p E) two = round_ref s (Zpos p) (E - 1).
Proof.
  intros V. pose proof (valid_finite_inv s p E V) as (He & Hd & _).
  destruct (Z.eq_dec E (-1074)) as [->|Hne].
  - now apply div_two_subnormal.
  - rewrite div_two by (assumption || lia).
    symmetry. apply round_ref_valid, valid_lower; [assumption | lia].
Qed.

Lemma div_two_finite s p E :
  F64.valid (S754_finite s p E) = true ->
  F64.is_finite (round_ref s (Zpos p) (E - 1)) = true.
Proof.
  intros V. pose proof (valid_finite_inv s p E V) as (He & Hd & _).
  pose proof (Zdigits2_pos (Zpos p) (Pos2Z.is_pos p)) as Hd0.
  destruct (Z.eq_dec E (-1074)) as [->|Hne].
  - unfold round_ref. change (-1074 - 1) with (-1075).
    replace (fexp64 (Zdigits2 (Z.pos p) + -1075) - -1075) with 1
      by (unfold fexp64; lia).
    change (1 <=? 0) with false. cbv iota.
    pose proof (rne_bounds (Zpos p) 1 ltac:(lia) ltac:(lia)) as Hr.
    change (2 ^ 1) with 2 in Hr.
    pose proof (mantissa_lt p Hd) as Hlt.
    assert (0 <= Zpos p / 2 < 2 ^ 52).
    { split; [apply Z.div_pos; lia|].
      apply Z.div_lt_upper_bound; [lia|]. change (2 * 2 ^ 52) with (2 ^ 53). lia. }
    destruct (Z.eqb_spec (rne (Zpos p) 1) 0); [reflexivity|].
    replace (rne (Z.pos p) 1 <? 2 ^ 53) with true by (symmetry; apply Z.ltb_lt; lia).
    unfold finite_or_inf. change (-1075 + 1 <=? 971) with true. cbv iota.
    destruct (rne (Zpos p) 1); [lia | reflexivity | lia].
  - apply round_ref_finite. unfold representable. lia.
Qed.

(** Half of a finite float. *)
Theorem half_between x :
  F64.valid x = true -> F64.is_finite x = true ->
  F64.valid (F64.div x two) = true
  /\ F64.is_finite (F64.div x two) = true
  /\ between (units x) 1 (F64.div x two).
Proof.
  intros V F. destruct x as [s|s| |s p E]; try discriminate.
  - split; [reflexivity|]. split; [reflexivity|].
    intros v _. change (units (F64.div (S754_zero s) two)) with 0.
    change (units (S754_zero s)) with 0. change (2 ^ 1) with 2. lia.
  - rewrite (div_two_round s p E V).
    pose proof (div_two_finite s p E V) as Hf.
    pose proof (valid_finite_inv s p E V) as (He & _).
    destruct (round_ref_between s (Zpos p) (E - 1) (Pos2Z.is_pos p) ltac:(lia) Hf)
      as [Hv Hb].
    split; [exact Hv|]. split; [exact Hf|].
    assert (E2 : units (S754_finite s p E)
                 = 2 * cond_Zopp s (Zpos p * 2 ^ (E - 1 + 1075))).
    { cbn [units]. replace (E + 1075) with (1 + (E - 1 + 1075)) by lia.
      rewrite (Z.pow_add_r 2 1) by lia. change (2 ^ 1) with 2.
      destruct s; cbn [cond_Zopp]; lia. }
    intros v Hg. destruct (Hb v Hg) as [H1 H2].
    rewrite Z.pow_0_r, Z.mul_1_r in H1, H2. rewrite E2.
    change (2 ^ 1) with 2. split; intros H; [apply H1 | apply H2]; lia.
Qed.

(** The median of an even count lies between the two items in the
    middle, when their sum does not overflow. *)
Theorem median_between a b :
  F64.valid a = true -> F64.valid b = true ->
  F64.leb a b = true ->
  F64.is_finite (F64.add a b) = true ->
  F64.leb a (F64.div (F64.add a b) two) = true
  /\ F64.leb (F64.div (F64.add a b) two) b = true.
Proof.
  intros Va Vb Hle Hf.
  assert (Fa : F64.is_finite a = true)
    by (destruct a, b; try reflexivity; try discriminate;
        destruct s; try discriminate; destruct s0; discriminate).
  assert (Fb : F64.is_finite b = true)
    by (destruct a, b; try reflexivity; try discriminate;
        destruct s; try discriminate; destruct s0; discriminate).
  rewrite (leb_units a b Va Vb Fa Fb) in Hle. apply Z.leb_le in Hle.
  destruct (add_between a b Va Vb Fa Fb Hf) as [Vs Bs].
  destruct (half_between (F64.add a b) Vs Hf) as (Vm & Fm & Bm).
  pose proof (grid_units a Va) as Ga. pose proof (grid_units b Vb) as Gb.
  rewrite (leb_units a _ Va Vm Fa Fm), (leb_units _ b Vm Vb Fm Fb).
  split; apply Z.leb_le.
  - apply (Bm _ Ga). change (2 ^ 1) with 2.
    destruct (Bs _ (grid_double _ Ga)) as [H _].
    rewrite Z.pow_0_r, Z.mul_1_r in H. specialize (H ltac:(lia)). lia.
  - apply (Bm _ Gb). change (2 ^ 1) with 2.
    destruct (Bs _ (grid_double _ Gb)) as [_ H].
    rewrite Z.pow_0_r, Z.mul_1_r in H. specialize (H ltac:(lia)). lia.
Qed.

(** ** Items in the middle of a sorted list *)

Lemma leb_trans x y z :
  F64.leb x y = true -> F64.leb y z = true -> F64.leb x z = true.
Proof.
  unfold F64.leb, SFleb.
  destruct x as [sx|sx| |sx mx ex], y as [sy|sy| |sy my ey], z as [sz|sz| |sz mz ez];
    simpl; try discriminate; try reflexivity;
    repeat match goal with s : bool |- _ => destruct s end;
    try discriminate; try reflexivity;
    intros H1 H2; cmp_cases; simpl in *; try discriminate; try reflexivity; try lia.
Qed.

Lemma ascending_nth_le l : forall i j x y,
  ascending l -> no_nan l -> (i < j)%nat ->
  nth_error l i = Some x -> nth_error l j = Some y -> F64.leb x y = true.
Proof.
  unfold ascending, no_nan.
  induction l as [|h t IH]; intros i j x y Hs Hn Hij Hx Hy.
  - destruct i; discriminate.
  - inversion Hs as [|? ? Ht Hh]; subst. inversion Hn as [|? ? Nh Nt]; subst.
    destruct j as [|j]; [lia|]. cbn [nth_error] in Hy.
    destruct i as [|i]; cbn [nth_error] in Hx.
    + inversion Hx; subst x. apply nth_error_In in Hy.
      rewrite Forall_forall in Hh, Nt.
      apply not_lt_le; auto.
    + apply (IH i j); auto. lia.
Qed.

Lemma py_index_nth {A : Type} (arr : list A) i x :
  0 <= i -> py_index arr i = Ok x -> nth_error arr (Z.to_nat i) = Some x.
Proof.
  intros Hi. unfold py_index.
  replace (i <? 0) with false by (symmetry; apply Z.ltb_ge; lia).
  destruct ((0 <=? i) && (i <? Z.of_nat (List.length arr))); [|discriminate].
  destruct (nth_error arr (Z.to_nat i)); [|discriminate].
  now intros H; inversion H.
Qed.

Lemma sort_canonical arr : canonical arr -> canonical (sort arr).
Proof.
  unfold canonical. rewrite !Forall_forall. intros H x Hx.
  now apply H, sort_in.
Qed.

(** The median of an even count, between the minimum and the maximum. *)
Theorem median_even_bounds arr lo hi a b :
  no_nan arr -> canonical arr ->
  let aln := Z.of_nat (List.length arr) in
  1 <= aln / 2 ->
  py_index (sort arr) 0 = Ok lo ->
  py_index (sort arr) (aln - 1) = Ok hi ->
  py_index (sort arr) (aln / 2 - 1) = Ok a ->
  py_index (sort arr) (aln / 2) = Ok b ->
  F64.is_finite (F64.add a b) = true ->
  F64.leb lo (F64.div (F64.add a b) two) = true
  /\ F64.leb (F64.div (F64.add a b) two) hi = true.
Proof.
  intros Hn Hc aln Hmid Hlo Hhi Ha Hb Hf.
  pose proof (sort_canonical arr Hc) as Hsc. unfold canonical in Hsc.
  rewrite Forall_forall in Hsc.
  pose proof (py_index_in _ _ _ Ha) as Ia. pose proof (py_index_in _ _ _ Hb) as Ib.
  assert (Hab : F64.leb a b = true).
  { apply (ascending_nth_le (sort arr) (Z.to_nat (aln / 2 - 1)) (Z.to_nat (aln / 2))).
    - apply sort_ascending.
    - now apply sort_no_nan.
    - lia.
    - apply py_index_nth; [lia | exact Ha].
    - apply py_index_nth; [lia | exact Hb]. }
  destruct (median_between a b (Hsc a Ia) (Hsc b Ib) Hab Hf) as [H1 H2].
  destruct (sorted_bounds arr lo hi a Hn Hlo Hhi Ia) as [La _].
  destruct (sorted_bounds arr lo hi b Hn Hlo Hhi Ib) as [_ Lb].
  split; [now apply leb_trans with a | now apply leb_trans with b].
Qed.

(** ** Splitting and joining *)

Lemma split_space_cons s : exists w ws, split_space s = w :: ws.
Proof.
  destruct (split_space s) as [|w ws] eqn:E.
  - now destruct (split_space_nonempty s).
  - now exists w, ws.
Qed.

Lemma join_split s : join_space (split_space s) = s.
Proof.
  induction s as [|c t IH]; [reflexivity|].
  cbn [split_space]. destruct (Ascii.eqb_spec c " ") as [->|Hc].
  - destruct (split_space_cons t) as (w & ws & E). rewrite E in *.
    cbn [join_space] in *. cbn [append]. now rewrite IH.
  - destruct (split_space_cons t) as (w & ws & E). rewrite E in *.
    cbn [join_space] in *. destruct ws; [now rewrite IH|].
    cbn [append]. now rewrite IH.
Qed.

Lemma split_spaceless s : Forall (fun w => spaceless w = true) (split_space s).
Proof.
  induction s as [|c t IH]; [repeat constructor|].
  cbn [split_space]. destruct (Ascii.eqb_spec c " ") as [->|Hc].
  - constructor; [reflexivity | exact IH].
  - destruct (split_space_cons t) as (w & ws & E). rewrite E in *.
    inversion IH; subst. constructor; [|assumption].
    cbn [spaceless]. apply andb_true_intro. split; [|assumption].
    apply negb_true_iff. now apply Ascii.eqb_neq.
Qed.

Lemma split_length s : List.length (split_space s) = S (count_spaces s).
Proof.
  induction s as [|c t IH]; [reflexivity|].
  cbn [split_space count_spaces]. destruct (Ascii.eqb c " ").
  - cbn [List.length]. now rewrite IH.
  - destruct (split_space_cons t) as (w & ws & E). rewrite E in *.
    cbn [List.length] in *. lia.
Qed.

Lemma split_spaceless_word w : spaceless w = true -> split_space w = [w].
Proof.
  induction w as [|c t IH]; [reflexivity|].
  cbn [spaceless split_space]. intros H. apply andb_prop in H as [Hc Ht].
  apply negb_true_iff in Hc. rewrite Hc, (IH Ht). reflexivity.
Qed.

Lemma split_app w s :
  spaceless w = true ->
  split_space (w ++ String " " s) = w :: split_space s.
Proof.
  induction w as [|c t IH]; intros H.
  - reflexivity.
  - cbn [spaceless] in H. apply andb_prop in H as [Hc Ht].
    apply negb_true_iff in Hc.
    cbn [append split_space]. rewrite Hc, (IH Ht). reflexivity.
Qed.

Lemma split_join ws :
  ws <> [] -> Forall (fun w => spaceless w = true) ws ->
  split_space (join_space ws) = ws.
Proof.
  induction ws as [|w rest IH]; [congruence|]. intros _ H.
  inversion H as [|? ? Hw Hr]; subst.
  destruct rest as [|w' rest'].
  - now apply split_spaceless_word.
  - change (join_space (w :: w' :: rest'))
      with (w ++ String " " (join_space (w' :: rest')))%string.
    rewrite split_app by exact Hw. f_equal. apply IH; [discriminate | exact Hr].
Qed.

(** ** Trailing line feeds *)

Lemma rstrip_newlines_app s k :
  rstrip_newlines (s ++ newlines k) = rstrip_newlines s.
Proof.
  induction s as [|c t IH].
  - cbn [append]. induction k as [|k IHk]; [reflexivity|].
    cbn [newlines rstrip_newlines]. rewrite IHk. now rewrite Ascii.eqb_refl.
  - cbn [append rstrip_newlines]. now rewrite IH.
Qed.

(** ** The option loop *)

Lemma parse_options_silent_upto n : forall argv o out o',
  (List.length argv <= n)%nat ->
  parse_options argv o = (out, Ok o') -> out = EmptyString.
Proof.
  induction n as [|n IH]; intros argv o out o' Hn H.
  { destruct argv; [now inversion H | cbn in Hn; lia]. }
  destruct argv as [|a rest]; [now inversion H|].
  cbn [List.length] in Hn. cbn [parse_options] in H.
  destruct (String.eqb a "-p").
  { destruct rest as [|v rest']; [discriminate|]. cbn [List.length] in Hn.
    destruct (float_of_string v); [|discriminate].
    apply IH in H; [exact H | lia]. }
  destruct (String.eqb a "-d").
  { destruct rest as [|v rest']; [discriminate|]. cbn [List.length] in Hn.
    destruct (int_of_string v); [|discriminate].
    apply IH in H; [exact H | lia]. }
  destruct (String.eqb a "-m"); [apply IH in H; [exact H | lia]|].
  destruct (percent_format usage_template [AStr a]); discriminate.
Qed.

Lemma parse_options_silent argv o out o' :
  parse_options argv o = (out, Ok o') -> out = EmptyString.
Proof. apply (parse_options_silent_upto (List.length argv)), Nat.le_refl. Qed.

Lemma parse_options_value_missing flag o :
  flag = "-p"%string \/ flag = "-d"%string ->
  parse_options [flag] o = (EmptyString, Raise IndexError).
Proof. intros [-> | ->]; reflexivity. Qed.

Lemma parse_options_value_refused flag v rest o :
  (flag = "-p"%string /\ exists e, float_of_string v = Raise e)
  \/ (flag = "-d"%string /\ exists e, int_of_string v = Raise e) ->
  parse_options (flag :: v :: rest) o = (EmptyString, Raise ValueError).
Proof.
  intros [[-> [e He]] | [-> [e He]]]; cbn [parse_options].
  - change (String.eqb "-p" "-p") with true. cbv iota.
    rewrite He. now rewrite (float_of_string_raises v e He).
  - change (String.eqb "-d" "-p") with false.
    change (String.eqb "-d" "-d") with true. cbv iota.
    rewrite He. now rewrite (int_of_string_raises v e He).
Qed.

Lemma main_options_raise argv stdin e :
  parse_options argv defaults = (EmptyString, Raise e) ->
  main argv stdin = (EmptyString, Raise e).
Proof. intros H. unfold main. now rewrite H. Qed.

(** What the loop leaves in the three variables. *)
Lemma parse_options_final n : forall argv o o',
  (List.length argv <= n)%nat ->
  parse_options argv o = (EmptyString, Ok o') ->
  (o_machine o' = true <-> o_machine o = true \/ In "-m"%string argv)
  /\ (~ In "-p"%string argv -> o_pct o' = o_pct o)
  /\ (~ In "-d"%string argv -> o_dig o' = o_dig o).
Proof.
  induction n as [|n IH]; intros argv o o' Hn H.
  { destruct argv; [|cbn in Hn; lia]. inversion H; subst. cbn [In]. tauto. }
  destruct argv as [|a rest].
  { inversion H; subst. cbn [In]. tauto. }
  cbn [List.length] in Hn. cbn [parse_options] in H.
  destruct (String.eqb_spec a "-p") as [->|Np].
  { destruct rest as [|v rest']; [discriminate|].
    destruct (float_of_string v) as [x|] eqn:Ev; [|discriminate].
    cbn [List.length] in Hn.
    destruct (IH rest' _ o' ltac:(lia) H) as (Hm & Hp & Hd).
    cbn [o_machine o_pct o_dig] in *.
    split; [|split].
    - rewrite Hm. cbn [In]. split; [tauto|].
      intros [?|[?|[E|?]]]; try tauto; try discriminate.
      subst v. vm_compute in Ev. discriminate.
    - cbn [In]. tauto.
    - intros Hnd. apply Hd. cbn [In] in Hnd. tauto. }
  destruct (String.eqb_spec a "-d") as [->|Nd].
  { destruct rest as [|v rest']; [discriminate|].
    destruct (int_of_string v) as [x|] eqn:Ev; [|discriminate].
    cbn [List.length] in Hn.
    destruct (IH rest' _ o' ltac:(lia) H) as (Hm & Hp & Hd).
    cbn [o_machine o_pct o_dig] in *.
    split; [|split].
    - rewrite Hm. cbn [In]. split; [tauto|].
      intros [?|[?|[E|?]]]; try tauto; try discriminate.
      subst v. vm_compute in Ev. discriminate.
    - intros Hnp. apply Hp. cbn [In] in Hnp. tauto.
    - cbn [In]. tauto. }
  destruct (String.eqb_spec a "-m") as [->|Nm].
  { destruct (IH rest _ o' ltac:(lia) H) as (Hm & Hp & Hd).
    cbn [o_machine o_pct o_dig] in *.
    split; [|split].
    - rewrite Hm. cbn [In]. tauto.
    - intros Hnp. apply Hp. cbn [In] in Hnp. tauto.
    - intros Hnd. apply Hd. cbn [In] in Hnd. tauto. }
  destruct (percent_format usage_template [AStr a]); discriminate.
Qed.

(** The value that follows the last [-p], and the last [-d]. *)
Lemma parse_options_last pre flag v post o o' :
  parse_options (pre ++ flag :: v :: post) defaults = (EmptyString, Ok o') ->
  parse_options pre defaults = (EmptyString, Ok o) ->
  (flag = "-p"%string -> ~ In "-p"%string post ->
   exists x, float_of_string v = Ok x /\ o_pct o' = PFloat x)
  /\ (flag = "-d"%string -> ~ In "-d"%string post ->
      int_of_string v = Ok (o_dig o')).
Proof.
  intros H Hpre. rewrite (parse_options_app pre defaults o _ Hpre) in H.
  split; intros -> Hn; cbn [parse_options] in H.
  - change (String.eqb "-p" "-p") with true in H. cbv iota in H.
    destruct (float_of_string v) as [x|]; [|discriminate].
    destruct (parse_options_final _ post _ o' (Nat.le_refl _) H) as (_ & Hp & _).
    exists x. rewrite (Hp Hn). split; reflexivity.
  - change (String.eqb "-d" "-p") with false in H.
    change (String.eqb "-d" "-d") with true in H. cbv iota in H.
    destruct (int_of_string v) as [d|]; [|discriminate].
    destruct (parse_options_final _ post _ o' (Nat.le_refl _) H) as (_ & _ & Hd).
    rewrite (Hd Hn). reflexivity.
Qed.

(** ** Tokens that are no numbers *)

Lemma floats_of_tokens_refused ts t e :
  In t ts -> float_of_string t = Raise e ->
  floats_of_tokens ts = Raise ValueError.
Proof.
  induction ts as [|a rest IH]; intros Hin He; [contradiction|].
  cbn [floats_of_tokens].
  destruct (float_of_string a) as [x|e'] eqn:Ea.
  - cbn [bind]. destruct Hin as [->|Hin]; [congruence|].
    now rewrite (IH Hin He).
  - cbn [bind]. now rewrite (float_of_string_raises a e' Ea).
Qed.

(** ** The sorted list and the order of the input *)

Lemma insert_permutation x l : Permutation (x :: l) (insert x l).
Proof.
  induction l as [|y t IH]; cbn [insert]; [reflexivity|].
  destruct (F64.ltb x y); [reflexivity|].
  rewrite perm_swap. now constructor.
Qed.

Lemma fold_insert_permutation l : forall acc,
  Permutation (l ++ acc) (fold_left (fun a x => insert x a) l acc).
Proof.
  induction l as [|x t IH]; intros acc; cbn [fold_left app]; [reflexivity|].
  rewrite <- IH. rewrite <- insert_permutation.
  now rewrite Permutation_middle.
Qed.

Lemma sort_permutation l : Permutation l (sort l).
Proof.
  unfold sort. rewrite <- fold_insert_permutation. now rewrite app_nil_r.
Qed.

Lemma leb_antisym (x y : float) :
  x <> S754_zero true -> y <> S754_zero true ->
  F64.leb x y = true -> F64.leb y x = true -> x = y.
Proof.
  unfold F64.leb, SFleb.
  destruct x as [sx|sx| |sx mx ex], y as [sy|sy| |sy my ey];
    cbn [SFcompare]; intros Hx Hy;
    repeat match goal with s : bool |- _ => destruct s end;
    try discriminate; try reflexivity; try congruence.
  all: change (Pos.compare_cont Eq mx my) with (Pos.compare mx my);
    change (Pos.compare_cont Eq my mx) with (Pos.compare my mx);
    destruct (Z.compare_spec ex ey) as [E|E|E];
    destruct (Z.compare_spec ey ex) as [F|F|F]; try lia;
    try discriminate; try (intros; discriminate).
  all: subst ey;
    destruct (Pos.compare_spec mx my) as [G|G|G];
    destruct (Pos.compare_spec my mx) as [K|K|K]; try lia;
    cbn [CompOpp]; try discriminate; try (intros; discriminate);
    intros _ _; congruence.
Qed.

Lemma ascending_unique l1 : forall l2,
  ascending l1 -> ascending l2 -> Permutation l1 l2 ->
  no_nan l1 -> no_negative_zero l1 -> l1 = l2.
Proof.
  unfold ascending, no_nan, no_negative_zero.
  induction l1 as [|x t1 IH]; intros l2 S1 S2 P N Z.
  - now apply Permutation_nil in P.
  - destruct l2 as [|y t2];
      [apply Permutation_sym, Permutation_nil in P; discriminate|].
    pose proof (Permutation_Forall P N) as N2.
    pose proof (Permutation_Forall P Z) as Z2.
    inversion S1 as [|? ? St1 Hx]; subst. inversion S2 as [|? ? St2 Hy]; subst.
    inversion N as [|? ? Nx Nt]; subst. inversion N2 as [|? ? Ny Nt2]; subst.
    inversion Z as [|? ? Zx Zt]; subst. inversion Z2 as [|? ? Zy Zt2]; subst.
    pose proof (proj1 (Forall_forall _ _) Nt) as Nt'.
    pose proof (proj1 (Forall_forall _ _) Nt2) as Nt2'.
    rewrite Forall_forall in Hx, Hy.
    assert (Hxy : F64.leb x y = true).
    { assert (In y (x :: t1)) as [->|Hin]
        by (apply (Permutation_in y (Permutation_sym P)); now left).
      - now apply leb_refl.
      - apply not_lt_le; auto. }
    assert (Hyx : F64.leb y x = true).
    { assert (In x (y :: t2)) as [->|Hin]
        by (apply (Permutation_in x P); now left).
      - now apply leb_refl.
      - apply not_lt_le; auto. }
    assert (E : x = y) by (now apply leb_antisym). subst y.
    f_equal. apply IH; auto. now apply Permutation_cons_inv in P.
Qed.

Lemma sort_order_independent a b :
  Permutation a b -> no_nan a -> no_negative_zero a -> sort a = sort b.
Proof.
  intros P N Z. apply ascending_unique.
  - apply sort_ascending.
  - apply sort_ascending.
  - now rewrite <- (sort_permutation a), <- (sort_permutation b).
  - now apply sort_no_nan.
  - unfold no_negative_zero. apply (Permutation_Forall (sort_permutation a)), Z.
Qed.

(** ** A list of one item *)

Lemma one_ref : one = round_ref false 1 0.
Proof. reflexivity. Qed.

Lemma div_one (x : float) :
  F64.valid x = true -> F64.div x one = x.
Proof.
  intros V. destruct x as [s|s| |s m e]; try reflexivity.
  - now destruct s.
  - now destruct s.
  - pose proof (valid_finite_inv s m e V) as (He & Hd & _).
    rewrite <- (round_ref_valid s m e V) at 1. rewrite one_ref.
    rewrite (div_exact s (Zpos m) e false 1 0 (Zpos m) e 0 0);
      try lia; try (unfold representable; cbn; lia);
      try (unfold representable; lia).
    rewrite xorb_false_r. now apply round_ref_valid.
Qed.

Lemma sum_one (x : float) : x <> S754_zero true -> sum [x] = x.
Proof.
  intros Hx. unfold sum. cbn [fold_left].
  destruct x as [s|s| |s m e]; try reflexivity.
  destruct s; [congruence | reflexivity].
Qed.

Lemma percentile_one_item (x : float) pct :
  match pct with PInt _ => True | PFloat f => F64.is_finite f = true end ->
  percentile [x] 1 pct = Ok x.
Proof.
  intros Hp. destruct pct as [k|f].
  - reflexivity.
  - destruct f as [s|s| |s m e]; try discriminate; destruct s; reflexivity.
Qed.

Lemma summarize_one_item (x : float) pct :
  F64.valid x = true -> x <> S754_zero true ->
  match pct with PInt _ => True | PFloat f => F64.is_finite f = true end ->
  summarize (sort [x]) 1 pct = Ok (Summary 1 x x x x x).
Proof.
  intros V Hx Hp. change (sort [x]) with [x].
  rewrite summarize_percentile.
  change (middle 1) with (Ok 0). cbn [bind].
  change (med [x] 1 0) with (Ok x). cbn [bind].
  rewrite avg_ok by lia. cbn [bind].
  rewrite (percentile_one_item x pct Hp). cbn [bind].
  change (py_index [x] 0) with (Ok x). change (py_index [x] (1 - 1)) with (Ok x).
  cbn [bind].
  assert (E : F64.div (sum [x]) (F64.of_Z 1) = x)
    by (rewrite (sum_one x Hx); apply (div_one x V)).
  change (Ok (Summary 1 x x (F64.div (sum [x]) (F64.of_Z 1)) x x)
          = Ok (Summary 1 x x x x x)).
  now rewrite E.
Qed.

(** ** The label of a percentile without fraction *)

Lemma int_of_float_of_Z k :
  0 <= k < 2 ^ 53 -> int_of_float (F64.of_Z k) = Ok k.
Proof.
  intros Hk. destruct (Z.eq_dec k 0) as [->|Hn]; [reflexivity|].
  rewrite of_Z_pos by lia.
  pose proof (repr_int k ltac:(lia)) as (_ & Hd & _).
  rewrite (int_of_round_ref k 0) by (unfold fexp64; lia).
  change (2 ^ (- 0)) with 1. now rewrite Z.div_1_r.
Qed.

Lemma sub_self_of_Z k :
  0 <= k < 2 ^ 53 -> F64.sub (F64.of_Z k) (F64.of_Z k) = zero.
Proof.
  intros Hk. destruct (Z.eq_dec k 0) as [->|Hn]; [reflexivity|].
  rewrite of_Z_pos by lia.
  rewrite (sub_exact false k 0 false k 0 0)
    by (try apply repr_int; lia).
  cbn [cond_Zopp]. now rewrite Z.sub_diag.
Qed.

Lemma pctfmt_integral k :
  0 <= k < 2 ^ 53 ->
  pctfmt (PFloat (F64.of_Z k)) = Ok (str_of_int k ++ "%")%string.
Proof.
  intros Hk. unfold pctfmt. cbn [py_int].
  rewrite (int_of_float_of_Z k Hk). cbn [bind py_sub to_float].
  rewrite (float_of_int_small k Hk). cbn [bind].
  rewrite (sub_self_of_Z k Hk). cbn [py_abs].
  change (py_eq_int (PFloat (F64.abs zero)) 0) with true. cbv iota.
  apply percent_i_text. cbn [py_int]. apply (int_of_float_of_Z k Hk).
Qed.

(** ** A percentile that is no number *)

Lemma med_total (arr : list float) :
  arr <> [] ->
  exists m, med arr (Z.of_nat (List.length arr))
              (Z.of_nat (List.length arr) / 2) = Ok m.
Proof.
  intros Hne. set (aln := Z.of_nat (List.length arr)).
  assert (Hpos : 0 < aln) by (unfold aln; destruct arr; [congruence | cbn; lia]).
  assert (Hdiv : 0 <= aln / 2 < aln).
  { split; [apply Z.div_pos; lia | apply Z.div_lt_upper_bound; lia]. }
  destruct (py_index_ok arr (aln / 2) Hdiv) as (b & Hb & _).
  destruct (Z.odd aln) eqn:Ho.
  - exists b. now rewrite med_odd.
  - assert (H1 : 1 <= aln / 2).
    { apply Z.div_le_lower_bound; [lia|].
      destruct (Z.eq_dec aln 1) as [E|]; [rewrite E in Ho; discriminate | lia]. }
    destruct (py_index_ok arr (aln / 2 - 1) ltac:(lia)) as (a & Ha & _).
    exists (F64.div (F64.add a b) two).
    now rewrite med_even, Ha, Hb.
Qed.

Lemma summarize_percentile_raises (arr : list float) pct e :
  arr <> [] -> Z.of_nat (List.length arr) < 2 ^ 53 ->
  percentile arr (Z.of_nat (List.length arr)) pct = Raise e ->
  summarize arr (Z.of_nat (List.length arr)) pct = Raise e.
Proof.
  intros Hne Hlt Hp. destruct (med_total arr Hne) as (m & Hm).
  set (aln := Z.of_nat (List.length arr)) in *.
  assert (Hpos : 0 < aln) by (unfold aln; destruct arr; [congruence | cbn; lia]).
  rewrite summarize_percentile, middle_ok by lia. cbn [bind].
  rewrite Hm. cbn [bind]. rewrite avg_ok by lia. cbn [bind].
  now rewrite Hp.
Qed.

Lemma of_Z_positive n :
  0 < n < 2 ^ 53 -> exists m e, F64.of_Z n = S754_finite false m e.
Proof.
  intros Hn. rewrite of_Z_pos by lia.
  destruct (round_ref_repr false n 0 (repr_int n Hn)) as (p & E & H & _).
  now exists p, E.
Qed.

Lemma percentile_nan (arr : list float) aln :
  0 < aln < 2 ^ 53 ->
  percentile arr aln (PFloat S754_nan) = Raise ValueError.
Proof.
  intros Hn. unfold percentile, pctpos. cbn [py_mul to_float].
  rewrite (float_of_int_small (aln - 1)) by lia. cbn [bind].
  replace (F64.mul (F64.of_Z (aln - 1)) S754_nan) with S754_nan
    by (now destruct (F64.of_Z (aln - 1))).
  reflexivity.
Qed.

Lemma percentile_infinite (arr : list float) aln s :
  0 < aln < 2 ^ 53 ->
  percentile arr aln (PFloat (S754_infinity s))
  = Raise (if aln =? 1 then ValueError else OverflowError).
Proof.
  intros Hn. unfold percentile, pctpos. cbn [py_mul to_float].
  rewrite (float_of_int_small (aln - 1)) by lia. cbn [bind].
  destruct (Z.eqb_spec aln 1) as [->|Hne].
  - now destruct s.
  - destruct (of_Z_positive (aln - 1) ltac:(lia)) as (m & e & ->).
    now destruct s.
Qed.

(** ** The exceptions that can be raised *)

Lemma of_Z_not_zero n s : n <> 0 -> F64.of_Z n <> S754_zero s.
Proof.
  intros Hn. rewrite of_Z_ref.
  assert (H : forall b m, 0 < m -> round_ref b m 0 <> S754_zero s).
  { intros b m Hm. unfold round_ref.
    pose proof (Zdigits2_bounds m Hm) as Hd.
    pose proof (Zdigits2_pos m Hm) as Hd0.
    set (k := fexp64 (Zdigits2 m + 0) - 0).
    destruct (Z.leb_spec k 0) as [Hk|Hk].
    - unfold finite_or_inf. destruct (0 + k <=? 971); [|discriminate].
      destruct (m * 2 ^ (- k)); discriminate.
    - assert (Hk53 : k = Zdigits2 m - 53) by (unfold k, fexp64 in *; lia).
      pose proof (rne_bounds m k ltac:(lia) ltac:(lia)) as Hr.
      assert (2 ^ 52 <= m / 2 ^ k).
      { apply Z.div_le_lower_bound; [apply Z.pow_pos_nonneg; lia|].
        rewrite <- Z.pow_add_r by lia.
        replace (k + 52) with (Zdigits2 m - 1) by lia. lia. }
      replace (rne m k =? 0) with false by (symmetry; apply Z.eqb_neq; lia).
      unfold finite_or_inf.
      destruct (rne m k <? 2 ^ 53).
      + destruct (0 + k <=? 971); [|discriminate].
        destruct (rne m k); discriminate.
      + destruct (0 + k + 1 <=? 971); discriminate. }
  destruct n as [|p|p]; [congruence | |]; cbn [normalize_ref]; apply H; lia.
Qed.

Section Raised.

Variable allowed : exn -> Prop.
Hypothesis allowed_value : allowed ValueError.
Hypothesis allowed_index : allowed IndexError.
Hypothesis allowed_overflow : allowed OverflowError.

Lemma raises_only_ok {A : Type} (a : A) : raises_only allowed (Ok a).
Proof. intros e H; discriminate. Qed.

Lemma raises_only_raise {A : Type} (e : exn) :
  allowed e -> raises_only allowed (@Raise A e).
Proof. intros H e' E. now inversion E; subst. Qed.

Lemma raises_only_bind {A B : Type} (r : result A) (k : A -> result B) :
  raises_only allowed r ->
  (forall a, r = Ok a -> raises_only allowed (k a)) ->
  raises_only allowed (bind r k).
Proof.
  intros Hr Hk e. destruct r as [a|e']; cbn [bind].
  - now apply Hk.
  - intros E. apply Hr. now inversion E.
Qed.

Ltac raised_step :=
  match goal with
  | |- raises_only _ (Ok _) => apply raises_only_ok
  | |- raises_only _ (Raise ValueError) => apply raises_only_raise, allowed_value
  | |- raises_only _ (Raise IndexError) => apply raises_only_raise, allowed_index
  | |- raises_only _ (Raise OverflowError) => apply raises_only_raise, allowed_overflow
  | |- raises_only _ (bind _ _) => apply raises_only_bind; [|intros]
  | |- raises_only _ (match ?x with _ => _ end) => destruct x
  | |- raises_only _ (if ?x then _ else _) => destruct x
  | |- raises_only _ (let '(_, _) := ?x in _) => destruct x
  end.

Lemma raised_int_of_float x : raises_only allowed (int_of_float x).
Proof. unfold int_of_float; repeat raised_step. Qed.

Lemma raised_float_of_int n : raises_only allowed (float_of_int n).
Proof. unfold float_of_int; repeat raised_step. Qed.

Lemma raised_to_float v : raises_only allowed (to_float v).
Proof. destruct v; cbn [to_float]; [apply raised_float_of_int | apply raises_only_ok]. Qed.

Lemma raised_int_truediv a b : b <> 0 -> raises_only allowed (int_truediv a b).
Proof.
  intros Hb. unfold int_truediv.
  destruct (Z.abs b) eqn:Eb; [lia | |]; repeat raised_step.
Qed.

Lemma raised_py_index {A : Type} (l : list A) i : raises_only allowed (py_index l i).
Proof. unfold py_index; repeat raised_step. Qed.

Lemma raised_py_mul a b : raises_only allowed (py_mul a b).
Proof.
  unfold py_mul. destruct a, b; repeat raised_step; apply raised_to_float.
Qed.

Lemma raised_py_sub a b : raises_only allowed (py_sub a b).
Proof.
  unfold py_sub. destruct a, b; repeat raised_step; apply raised_to_float.
Qed.

Lemma raised_py_int a : raises_only allowed (py_int a).
Proof. destruct a; cbn [py_int]; [apply raises_only_ok | apply raised_int_of_float]. Qed.

Lemma raised_div_hundred t : raises_only allowed (py_truediv t (PInt 100)).
Proof.
  destruct t as [z|f]; cbn [py_truediv to_float bind].
  - apply raised_int_truediv. lia.
  - change (float_of_int 100) with (Ok hundred). cbn [bind].
    rewrite float_truediv_hundred. apply raises_only_ok.
Qed.

Lemma raised_apply_spec spec v : raises_only allowed (apply_spec spec v).
Proof. unfold apply_spec; repeat raised_step. Qed.

Lemma raised_select_arg name auto next args :
  raises_only allowed (select_arg name auto next args).
Proof. unfold select_arg; repeat raised_step. Qed.

Lemma raised_format_from fstr : forall mode auto next args,
  raises_only allowed (format_from mode auto next fstr args).
Proof.
  assert (H : forall n fstr, (String.length fstr <= n)%nat ->
            forall mode auto next args,
              raises_only allowed (format_from mode auto next fstr args)).
  { induction n as [|n IH]; intros t Hn mode auto next args.
    - destruct t; [|simpl in Hn; lia]. cbn [format_from]. repeat raised_step.
    - destruct t as [|c t]; [cbn [format_from]; repeat raised_step|].
      simpl in Hn.
      assert (IH1 : forall mode auto next args,
                raises_only allowed (format_from mode auto next t args))
        by (intros; apply IH; lia).
      assert (IH2 : forall c' t', t = String c' t' ->
                forall mode auto next args,
                  raises_only allowed (format_from mode auto next t' args)).
      { intros c' t' -> *. apply IH. simpl in Hn. lia. }
      cbn [format_from].
      repeat match goal with
      | H : forall mode auto next args,
              raises_only _ (format_from mode auto next ?s args)
        |- raises_only _ (format_from _ _ _ ?s _) => apply H
      | |- raises_only _ (format_from _ _ _ _ _) => eapply IH2; reflexivity
      | |- raises_only _ (apply_spec _ _) => apply raised_apply_spec
      | |- raises_only _ (select_arg _ _ _ _) => apply raised_select_arg
      | |- _ => raised_step
      end. }
  intros; eapply H; eauto.
Qed.

Lemma raised_pctfmt pct : raises_only allowed (pctfmt pct).
Proof.
  unfold pctfmt. apply raises_only_bind; [apply raised_py_int|].
  intros ip Hip. apply raises_only_bind; [apply raised_py_sub|].
  intros d _. destruct (py_eq_int (py_abs d) 0).
  - rewrite (percent_i_text pct ip Hip). apply raises_only_ok.
  - destruct pct as [z|f].
    + cbn [percent_format]. apply raises_only_bind; [apply raised_to_float|].
      intros; repeat raised_step.
    + rewrite percent_2f_text. apply raises_only_ok.
Qed.

Lemma fstr_ok pct machine f label : exists t, fstr pct machine f label = Ok t.
Proof.
  unfold fstr. destruct machine; [|destruct (py_gt_int pct 50)];
    eexists; cbn [percent_format]; reflexivity.
Qed.

Lemma raised_render v pct digi machine :
  raises_only allowed (render v pct digi machine).
Proof.
  unfold render. rewrite fmt_text. cbn [bind].
  apply raises_only_bind; [apply raised_pctfmt|]. intros label _.
  destruct (fstr_ok pct machine (String "." (str_of_int digi ++ "f")) label)
    as (t & ->).
  cbn [bind]. apply raises_only_bind; [apply raised_format_from|].
  intros; apply raises_only_ok.
Qed.

Lemma med_not_empty (arr : list float) aln mid m :
  med arr aln mid = Ok m -> arr <> [].
Proof.
  intros H ->. unfold med in H.
  destruct (negb (aln mod 2 =? 0)).
  - unfold py_index in H. cbn [List.length Z.of_nat] in H.
    destruct (mid <? 0); rewrite ?Z.add_0_r in H;
      destruct (0 <=? mid) eqn:E1, (mid <? 0) eqn:E2;
      cbn [andb] in H; try discriminate;
      apply Z.leb_le in E1; apply Z.ltb_lt in E2; lia.
  - assert (E : py_index (@nil float) (mid - 1) = Raise IndexError).
    { unfold py_index. cbn [List.length Z.of_nat].
      destruct (mid - 1 <? 0); rewrite ?Z.add_0_r;
        destruct (0 <=? mid - 1) eqn:E1, (mid - 1 <? 0) eqn:E2;
        cbn [andb]; try reflexivity;
        apply Z.leb_le in E1; apply Z.ltb_lt in E2; lia. }
    rewrite E in H. discriminate.
Qed.

Lemma raised_summarize (arr : list float) pct :
  raises_only allowed (summarize arr (Z.of_nat (List.length arr)) pct).
Proof.
  unfold summarize.
  apply raises_only_bind.
  { unfold middle. apply raises_only_bind;
      [apply raised_int_truediv; lia | intros; apply raised_int_of_float]. }
  intros mid _. apply raises_only_bind.
  { unfold med. destruct (negb _); [apply raised_py_index|].
    repeat raised_step; try apply raised_py_index.
    rewrite float_truediv_two. apply raises_only_ok. }
  intros m Hm. apply med_not_empty in Hm.
  apply raises_only_bind.
  { unfold avg. cbn [py_truediv to_float bind].
    apply raises_only_bind; [apply raised_float_of_int|].
    intros y Hy. unfold float_of_int in Hy.
    destruct (F64.is_finite _); [|discriminate]. inversion Hy; subst y.
    assert (Hn : Z.of_nat (List.length arr) <> 0)
      by (destruct arr; [congruence | cbn; lia]).
    unfold float_truediv.
    destruct (F64.of_Z (Z.of_nat (List.length arr))) as [s| | |] eqn:E;
      try apply raises_only_ok.
    now destruct (of_Z_not_zero _ s Hn). }
  intros a _. apply raises_only_bind.
  { unfold pctpos. apply raises_only_bind; [apply raised_py_mul|].
    intros; apply raised_div_hundred. }
  intros pp _. apply raises_only_bind; [apply raised_int_of_float|].
  intros i _. apply raises_only_bind.
  { unfold wgt. apply raises_only_bind; [apply raised_float_of_int|].
    intros; apply raises_only_ok. }
  intros w _. apply raises_only_bind.
  { unfold pctl. destruct (F64.ltb _ _); [apply raised_py_index|].
    repeat raised_step; apply raised_py_index. }
  intros p _. repeat raised_step; apply raised_py_index.
Qed.

Lemma raised_stats arr pct digi machine :
  raises_only allowed (snd (stats arr pct digi machine)).
Proof.
  unfold stats. cbn [snd]. rewrite <- (sort_length arr).
  apply raises_only_bind; [apply raised_summarize|].
  intros; apply raised_render.
Qed.


End Raised.

(** ** How [main] ends *)


(** ** Rounding a quotient *)

Lemma shr_1_shifted m k : 0 <= m -> 0 <= k ->
  shr_1 (shifted m k) = shifted m (k + 1).
Proof.
  intros Hm Hk. unfold shifted.
  assert (Hp : 0 < 2 ^ k) by (apply Z.pow_pos_nonneg; lia).
  rewrite shr_1_nonneg by (apply Z.div_pos; lia).
  rewrite Z.pow_add_r by lia. change (2 ^ 1) with 2.
  set (P := 2 ^ k) in *.
  rewrite Z.div_div by lia.
  pose proof (Z.rem_mul_r m P 2 ltac:(lia) ltac:(lia)) as Hr.
  rewrite Hr.
  pose proof (Z.mod_pos_bound m P Hp) as Hb.
  pose proof (Zmod_odd (m / P)) as Ho.
  set (rho := m mod P) in *. set (q := m / P) in *.
  destruct (Z.odd q); rewrite Ho; f_equal.
  + symmetry. apply Z.leb_le. lia.
  + destruct (Z.leb_spec P (2 * rho)), (Z.eqb_spec rho 0), (Z.eqb_spec (2 * rho) P),
      (Z.eqb_spec (rho + P * 1) 0), (Z.eqb_spec (2 * (rho + P * 1)) (P * 2));
      simpl; try reflexivity; lia.
  + symmetry. apply Z.leb_gt. lia.
  + destruct (Z.leb_spec P (2 * rho)), (Z.eqb_spec rho 0), (Z.eqb_spec (2 * rho) P),
      (Z.eqb_spec (rho + P * 0) 0), (Z.eqb_spec (2 * (rho + P * 0)) (P * 2));
      simpl; try reflexivity; lia.
Qed.

Lemma shr_iter_from m k : 0 <= m -> 0 <= k -> forall n : nat,
  Nat.iter n shr_1 (shifted m k) = shifted m (k + Z.of_nat n).
Proof.
  intros Hm Hk. induction n as [|n IH].
  - cbn [Nat.iter]. now rewrite Z.add_0_r.
  - rewrite Nat.iter_succ, IH, shr_1_shifted by lia. f_equal. lia.
Qed.

Lemma shr_from m k e n : 0 <= m -> 0 <= k -> 0 <= n ->
  shr (shifted m k) e n = (shifted m (k + n), e + n).
Proof.
  intros Hm Hk Hn. destruct n as [|p|p]; try lia.
  - cbn [shr]. now rewrite !Z.add_0_r.
  - cbn [shr]. rewrite iter_pos_nat, shr_iter_from by assumption.
    now rewrite positive_nat_Z.
Qed.

Lemma record_of_loc m l : 0 <= m ->
  shr_record_of_loc m l = shifted (4 * m + loc_code l) 2.
Proof.
  intros Hm. unfold shifted. change (2 ^ 2) with 4.
  assert (Hc : 0 <= loc_code l < 4) by (destruct l as [|[]]; cbn; lia).
  replace ((4 * m + loc_code l) / 4) with m
    by (apply Z.div_unique with (loc_code l); lia).
  replace ((4 * m + loc_code l) mod 4) with (loc_code l)
    by (apply Z.mod_unique with m; lia).
  destruct l as [|[]]; reflexivity.
Qed.

Lemma digits_with_code m c : 0 < m -> 0 <= c < 4 ->
  Zdigits2 (4 * m + c) = Zdigits2 m + 2.
Proof.
  intros Hm Hc. pose proof (Zdigits2_bounds m Hm) as [B1 B2].
  pose proof (Zdigits2_pos m Hm) as Hd.
  apply Zdigits2_unique; [|lia].
  replace (Zdigits2 m + 2 - 1) with (2 + (Zdigits2 m - 1)) by lia.
  replace (Zdigits2 m + 2) with (2 + Zdigits2 m) by lia.
  rewrite !Z.pow_add_r by lia. change (2 ^ 2) with 4. lia.
Qed.

(** Rounding a mantissa whose location is known is rounding the
    mantissa with two more bits. *)
Theorem binary_round_aux_loc s m e l :
  0 <= m -> 0 < 4 * m + loc_code l ->
  fexp64 (Zdigits2 (4 * m + loc_code l) + (e - 2)) = fexp64 (Zdigits2 m + e) ->
  0 <= fexp64 (Zdigits2 m + e) - e ->
  binary_round_aux F64.prec F64.emax s m e l
  = round_ref s (4 * m + loc_code l) (e - 2).
Proof.
  intros Hm HM Hd Hn.
  destruct (4 * m + loc_code l) as [|M|M] eqn:EM; try lia.
  rewrite <- binary_round_aux_ref by (rewrite Hd; lia).
  unfold binary_round_aux.
  rewrite (shr_fexp_exact (Zpos M) (e - 2)) by lia. cbv zeta.
  rewrite Hd.
  set (n := fexp64 (Zdigits2 m + e) - e) in *.
  replace (fexp64 (Zdigits2 m + e) - (e - 2)) with (2 + n) by (unfold n; lia).
  replace (2 + n <=? 0) with false by (symmetry; apply Z.leb_gt; lia).
  unfold shr_fexp at 1. rewrite fexp64_eq. fold n.
  rewrite (record_of_loc m l) by lia. rewrite EM.
  rewrite (shr_from (Zpos M) 2 e n) by lia.
  replace (e - 2 + (2 + n)) with (e + n) by lia.
  reflexivity.
Qed.

Lemma div_core m1 e1 m2 e2 :
  let e' := div_exponent (Zpos m1) e1 (Zpos m2) e2 in
  let sh := e1 - e2 - e' in
  SFdiv_core_binary F64.prec F64.emax (Zpos m1) e1 (Zpos m2) e2
  = (Zpos m1 * 2 ^ sh / Zpos m2, e',
     new_location (Zpos m2) ((Zpos m1 * 2 ^ sh) mod Zpos m2)).
Proof.
  intros e' sh. unfold SFdiv_core_binary.
  rewrite fexp64_eq. fold (div_exponent (Zpos m1) e1 (Zpos m2) e2). fold e'. fold sh.
  assert (Hsh : 0 <= sh) by (unfold sh, e', div_exponent; lia).
  replace (match sh with
           | 0 => Z.pos m1
           | Z.pos _ => Z.shiftl (Z.pos m1) sh
           | Z.neg _ => 0
           end) with (Z.pos m1 * 2 ^ sh).
  2:{ destruct sh as [|p|p] eqn:E; [lia| |lia]. now rewrite Z.shiftl_mul_pow2 by lia. }
  unfold Z.div, Z.modulo.
  destruct (Z.div_eucl (Z.pos m1 * 2 ^ sh) (Z.pos m2)) as [q r].
  reflexivity.
Qed.

Lemma loc_code_new_location q r :
  0 <= loc_code (new_location q r) < 4
  /\ (loc_code (new_location q r) = 0 <-> r = 0).
Proof.
  unfold new_location, new_location_even, new_location_odd.
  destruct (Z.even q), (Z.eqb_spec r 0) as [->|Hr]; cbn [loc_code];
    try (split; [lia | tauto]).
  - destruct (2 * r ?= q); cbn [loc_code]; (split; [lia | split; [lia | tauto]]).
  - destruct (2 * r + 1 ?= q); cbn [loc_code]; (split; [lia | split; [lia | tauto]]).
Qed.

Lemma quotient_digits_ge a sh b :
  0 < a -> 0 < b -> 0 <= sh -> 0 < a * 2 ^ sh / b ->
  Zdigits2 a + sh - Zdigits2 b <= Zdigits2 (a * 2 ^ sh / b).
Proof.
  intros Ha Hb Hsh Hq.
  pose proof (Zdigits2_bounds a Ha) as [A1 _].
  pose proof (Zdigits2_bounds b Hb) as [_ B2].
  pose proof (Zdigits2_pos a Ha) as Da. pose proof (Zdigits2_pos b Hb) as Db.
  pose proof (Zdigits2_pos _ Hq) as Dq.
  set (k := Zdigits2 a + sh - 1 - Zdigits2 b).
  destruct (Z_lt_le_dec k 0) as [Hk|Hk]; [lia|].
  assert (H2 : 2 ^ k <= a * 2 ^ sh / b).
  { apply Z.div_le_lower_bound; [lia|].
    assert (b * 2 ^ k <= 2 ^ Zdigits2 b * 2 ^ k)
      by (apply Z.mul_le_mono_nonneg_r; [apply Z.pow_nonneg|]; lia).
    rewrite <- Z.pow_add_r in H by lia.
    replace (Zdigits2 b + k) with (Zdigits2 a - 1 + sh) in H by (unfold k; lia).
    rewrite Z.pow_add_r in H by lia.
    assert (2 ^ (Zdigits2 a - 1) * 2 ^ sh <= a * 2 ^ sh)
      by (apply Z.mul_le_mono_nonneg_r; [apply Z.pow_nonneg|]; lia).
    lia. }
  pose proof (Zdigits2_bounds _ Hq) as [_ Q2].
  assert (k < Zdigits2 (a * 2 ^ sh / b)).
  { apply (Z.pow_lt_mono_r_iff 2); lia. }
  unfold k in *. lia.
Qed.

(** What [round_ref] gives when it does not overflow, whatever the
    exponent. *)
Lemma round_ref_shape s m e :
  0 < m -> F64.is_finite (round_ref s m e) = true ->
  let n := fexp64 (Zdigits2 m + e) - e in
  F64.valid (round_ref s m e) = true
  /\ units (round_ref s m e)
     = cond_Zopp s ((if n <=? 0 then m * 2 ^ (- n) else rne m n)
                    * 2 ^ (e + n + 1075)).
Proof.
  intros Hm Hf n. revert Hf. unfold round_ref. fold n.
  pose proof (Zdigits2_bounds m Hm) as Hd.
  pose proof (Zdigits2_pos m Hm) as Hd0.
  assert (HE : -1074 <= e + n) by (unfold n, fexp64; lia).
  destruct (Z.leb_spec n 0) as [Hn|Hn].
  - intros Hf.
    assert (Hp : 0 < m * 2 ^ (- n)) by (pose proof (pow2_pos (- n) ltac:(lia)); nia).
    destruct (units_finite_or_inf s (m * 2 ^ (- n)) (e + n)
                ltac:(lia) ltac:(lia) Hf) as (Hu & _ & Hmax).
    split; [|exact Hu].
    unfold finite_or_inf in *.
    replace (e + n <=? 971) with true in * by (symmetry; apply Z.leb_le; lia).
    destruct (m * 2 ^ (- n)) as [|p|p] eqn:Ep; try lia.
    assert (Hdp : Zdigits2 (Zpos p) = Zdigits2 m - n)
      by (rewrite <- Ep, Zdigits2_shift by lia; lia).
    apply valid_finite_intro; try lia; unfold n, fexp64 in *; lia.
  - pose proof (rne_bounds m n ltac:(lia) ltac:(lia)) as Hr.
    pose proof (quotient_digits m n Hm ltac:(lia) ltac:(unfold n, fexp64; lia)) as Hq.
    assert (Hq0 : 0 <= m / 2 ^ n)
      by (apply Z.div_pos; [lia | apply pow2_pos; lia]).
    destruct (Z.eqb_spec (rne m n) 0) as [E0|E0].
    + intros _. rewrite E0. split; [reflexivity|]. now destruct s.
    + destruct (Z.ltb_spec (rne m n) (2 ^ 53)) as [Hlt|Hge]; intros Hf.
      * destruct (units_finite_or_inf s (rne m n) (e + n)
                    ltac:(lia) ltac:(lia) Hf) as (Hu & _ & Hmax).
        split; [|exact Hu].
        unfold finite_or_inf in *.
        replace (e + n <=? 971) with true in * by (symmetry; apply Z.leb_le; lia).
        destruct (rne m n) as [|p|p] eqn:Ep; try lia.
        assert (Hdp : Zdigits2 (Zpos p) <= 53) by (apply Zdigits2_le; lia).
        apply valid_finite_intro; try lia.
        destruct (Z.eq_dec (e + n) (-1074)) as [|Hne]; [now right|left].
        apply Zdigits2_unique; [|lia]. split; [|exact Hlt].
        assert (Hn53 : n = Zdigits2 m - 53) by (unfold n, fexp64 in *; lia).
        assert (2 ^ 52 <= m / 2 ^ n); [|lia].
        apply Z.div_le_lower_bound; [apply pow2_pos; lia|].
        rewrite <- Z.pow_add_r by lia.
        replace (n + 52) with (Zdigits2 m - 1) by lia. lia.
      * destruct (units_finite_or_inf s (2 ^ 52) (e + n + 1)
                    ltac:(lia) ltac:(lia) Hf) as (Hu & _ & Hmax).
        split.
        -- unfold finite_or_inf.
           replace (e + n + 1 <=? 971) with true by (symmetry; apply Z.leb_le; lia).
           change (2 ^ 52) with (Zpos 4503599627370496). cbv iota.
           apply valid_finite_intro; [lia | | left]; reflexivity.
        -- rewrite Hu. f_equal. replace (rne m n) with (2 ^ 53) by lia.
           replace (e + n + 1 + 1075) with (1 + (e + n + 1075)) by lia.
           rewrite (Z.pow_add_r 2 1) by lia. rewrite Z.mul_assoc. reflexivity.
Qed.

(** [a / b] units of [2^(E - n)], with the quotient by [2^n] rounded to
    [r]: no float lies strictly between the number and its rounding. *)
Lemma ratio_rounded_between a b n E r v :
  0 < a -> 0 < b -> 0 <= n -> -1074 <= E -> 0 <= E - n + 1075 ->
  a / (b * 2 ^ n) <= r <= a / (b * 2 ^ n) + 1 ->
  (a mod (b * 2 ^ n) = 0 -> r = a / (b * 2 ^ n)) ->
  (-1074 < E -> 2 ^ 52 <= a / (b * 2 ^ n)) ->
  grid v ->
  (v * b <= a * 2 ^ (E - n + 1075) -> v <= r * 2 ^ (E + 1075))
  /\ (a * 2 ^ (E - n + 1075) <= v * b -> r * 2 ^ (E + 1075) <= v).
Proof.
  intros Ha Hb Hn HE HW Hr Hex Hnorm (mv & ev & Hmv & Hev & Hv).
  set (W := 2 ^ (E - n + 1075)). set (N := 2 ^ n).
  assert (HWp : 0 < W) by (apply pow2_pos; lia).
  assert (HN : 0 < N) by (apply pow2_pos; lia).
  assert (HP : 2 ^ (E + 1075) = N * W).
  { unfold N, W. rewrite <- Z.pow_add_r by lia. f_equal. lia. }
  rewrite HP. fold N in Hr, Hex, Hnorm.
  assert (HbN : 0 < b * N) by nia.
  pose proof (Z.div_mod a (b * N) ltac:(lia)) as Hdm.
  pose proof (Z.mod_pos_bound a (b * N) HbN) as Hrho.
  set (q := a / (b * N)) in *. set (rho := a mod (b * N)) in *.
  assert (Hq0 : 0 <= q) by (apply Z.div_pos; lia).
  destruct (Z_le_gt_dec v 0) as [Hneg|Hpos].
  { split; intros H.
    - assert (0 <= r * (N * W)) by nia. lia.
    - assert (0 < a * W) by nia. assert (v * b <= 0) by nia. lia. }
  rewrite Z.abs_eq in Hv by lia.
  destruct (Z_le_gt_dec E ev) as [Hhi|Hlo].
  - set (t := mv * 2 ^ (ev - E)).
    assert (Ht : v = t * (N * W)).
    { rewrite Hv. unfold t. rewrite <- HP, <- Z.mul_assoc, <- Z.pow_add_r by lia.
      do 2 f_equal. lia. }
    rewrite Ht. split; intros H.
    + assert (H1 : t * (b * N) * W <= a * W) by nia.
      assert (H2 : t * (b * N) <= a) by nia.
      assert (t <= q) by (apply Z.div_le_lower_bound; lia).
      nia.
    + assert (H1 : a * W <= t * (b * N) * W) by nia.
      assert (H2 : a <= t * (b * N)) by nia.
      destruct (Z.eq_dec rho 0) as [E0|E0].
      * rewrite (Hex E0). assert (q <= t) by nia. nia.
      * assert (q < t) by nia. nia.
  - assert (Hq : 2 ^ 52 <= q) by (apply Hnorm; lia).
    assert (Hlt : v < 2 ^ 52 * (N * W)).
    { rewrite Hv, <- HP. apply lower_binade; lia. }
    split; intros H.
    + nia.
    + assert (H1 : q * (b * N) <= a) by nia.
      assert (H2 : v * b < 2 ^ 52 * (N * W) * b) by nia.
      assert (H3 : 2 ^ 52 * (N * W) * b <= q * (N * W) * b) by nia.
      assert (H4 : q * (N * W) * b = q * (b * N) * W) by ring.
      assert (H5 : q * (b * N) * W <= a * W) by nia.
      lia.
Qed.

(** The quotient of two positive floats, before rounding: the mantissa
    with the two bits of its location. *)
Lemma quotient_mantissa m1 e1 m2 e2 :
  -1074 <= e1 - e2 ->
  let e' := div_exponent (Zpos m1) e1 (Zpos m2) e2 in
  let a := Zpos m1 * 2 ^ (e1 - e2 - e') in
  let c := loc_code (new_location (Zpos m2) (a mod Zpos m2)) in
  let n := fexp64 (Zdigits2 (a / Zpos m2) + e') - e' in
  -1074 <= e' /\ 0 <= e1 - e2 - e' /\ 0 <= a / Zpos m2
  /\ 0 < 4 * (a / Zpos m2) + c /\ 0 <= c < 4 /\ (c = 0 <-> a mod Zpos m2 = 0)
  /\ 0 <= n
  /\ fexp64 (Zdigits2 (4 * (a / Zpos m2) + c) + (e' - 2))
     = fexp64 (Zdigits2 (a / Zpos m2) + e').
Proof.
  intros He e' a c n.
  set (D := Zdigits2 (Zpos m1) + e1 - (Zdigits2 (Zpos m2) + e2)).
  assert (He' : e' = Z.min (fexp64 D) (e1 - e2)) by reflexivity.
  assert (Hlo : -1074 <= e') by (rewrite He'; unfold fexp64; lia).
  assert (Hsh : 0 <= e1 - e2 - e') by lia.
  pose proof (pow2_pos _ Hsh) as Hp2.
  assert (Ha : 0 < a) by (unfold a; nia).
  assert (Hq0 : 0 <= a / Zpos m2) by (apply Z.div_pos; lia).
  destruct (loc_code_new_location (Zpos m2) (a mod Zpos m2)) as [Hc Hc0].
  fold c in Hc, Hc0.
  pose proof (Zdigits2_bounds (Zpos m1) (Pos2Z.is_pos m1)) as [B1 _].
  pose proof (Zdigits2_bounds (Zpos m2) (Pos2Z.is_pos m2)) as [_ B2].
  pose proof (Zdigits2_pos (Zpos m1) (Pos2Z.is_pos m1)) as D1.
  pose proof (Zdigits2_pos (Zpos m2) (Pos2Z.is_pos m2)) as D2.
  destruct (Z.eq_dec (a / Zpos m2) 0) as [E0|N0].
  - (* the quotient is below one unit: the subnormal range *)
    assert (Hr : a mod Zpos m2 = a).
    { pose proof (Z.div_mod a (Zpos m2) ltac:(lia)) as H. rewrite E0 in H. lia. }
    assert (Hlt : a < Zpos m2).
    { pose proof (Z.mod_pos_bound a (Zpos m2) ltac:(lia)). lia. }
    assert (Hc1 : c <> 0) by (intros E; apply Hc0 in E; lia).
    assert (Hf : fexp64 D = -1074).
    { destruct (Z.eq_dec (fexp64 D) (-1074)) as [|Hne]; [assumption|exfalso].
      assert (HD : fexp64 D = D - 53) by (unfold fexp64 in *; lia).
      assert (Hs : Zdigits2 (Zpos m2) - Zdigits2 (Zpos m1) + 53 <= e1 - e2 - e')
        by (unfold D in *; lia).
      assert (2 ^ (Zdigits2 (Zpos m2)) <= a); [|lia].
      assert (H1 : 2 ^ Zdigits2 (Zpos m2)
                   <= 2 ^ (Zdigits2 (Zpos m1) - 1 + (e1 - e2 - e')))
        by (apply Z.pow_le_mono_r; lia).
      rewrite Z.pow_add_r in H1 by lia.
      assert (H2 : 2 ^ (Zdigits2 (Zpos m1) - 1) * 2 ^ (e1 - e2 - e')
                   <= Zpos m1 * 2 ^ (e1 - e2 - e'))
        by (apply Z.mul_le_mono_nonneg_r; lia).
      unfold a. lia. }
    assert (E' : e' = -1074) by lia.
    rewrite E0. cbn [Zdigits2 Z.mul Z.add].
    assert (Hdc : 0 < Zdigits2 c <= 2).
    { split; [apply Zdigits2_pos; lia | apply Zdigits2_le; [lia|]].
      change (2 ^ 2) with 4. lia. }
    unfold n. rewrite E0. cbn [Zdigits2 Z.add].
    repeat split; try lia; try tauto; try apply Hc0;
      rewrite ?E'; unfold fexp64; lia.
  - assert (Hq : 0 < a / Zpos m2) by lia.
    pose proof (quotient_digits_ge (Zpos m1) (e1 - e2 - e') (Zpos m2)
                  (Pos2Z.is_pos m1) (Pos2Z.is_pos m2) Hsh Hq) as Hd.
    fold a in Hd.
    pose proof (digits_with_code (a / Zpos m2) c Hq Hc) as Hdc.
    assert (Hn : 0 <= n).
    { unfold n.
      assert (fexp64 D <= fexp64 (Zdigits2 (a / Zpos m2) + e'))
        by (apply fexp64_mono; unfold D; lia).
      lia. }
    repeat split; try lia; try tauto; try apply Hc0.
    rewrite Hdc. f_equal. lia.
Qed.

Lemma quotient_round s m1 e1 m2 e2 :
  -1074 <= e1 - e2 ->
  (let '(mz, ez, lz) :=
     SFdiv_core_binary F64.prec F64.emax (Zpos m1) e1 (Zpos m2) e2 in
   binary_round_aux F64.prec F64.emax s mz ez lz)
  = quotient_ref s m1 e1 m2 e2.
Proof.
  intros He. pose proof (quotient_mantissa m1 e1 m2 e2 He) as H. cbv zeta in H.
  destruct H as (_ & _ & Hq & HM & _ & _ & Hn & Hf).
  pose proof (div_core m1 e1 m2 e2) as Hc. cbv zeta in Hc. rewrite Hc.
  unfold quotient_ref. now apply binary_round_aux_loc.
Qed.

Theorem div_finite_ref sx mx ex sy my ey :
  -1074 <= ex - ey ->
  F64.div (S754_finite sx mx ex) (S754_finite sy my ey)
  = quotient_ref (xorb sx sy) mx ex my ey.
Proof. intros He. unfold F64.div, SFdiv. now apply quotient_round. Qed.

Theorem of_ratio_ref s p q : F64.of_ratio s p q = quotient_ref s p 0 q 0.
Proof. unfold F64.of_ratio. apply quotient_round. lia. Qed.

(** The quotient of two positive floats, when it does not overflow. *)
Theorem quotient_between s m1 e1 m2 e2 :
  -1074 <= e1 - e2 ->
  F64.is_finite (quotient_ref s m1 e1 m2 e2) = true ->
  F64.valid (quotient_ref s m1 e1 m2 e2) = true
  /\ (s = false ->
      forall v, grid v ->
        (v * Zpos m2 <= Zpos m1 * 2 ^ (e1 - e2 + 1075)
         -> v <= units (quotient_ref s m1 e1 m2 e2))
        /\ (Zpos m1 * 2 ^ (e1 - e2 + 1075) <= v * Zpos m2
            -> units (quotient_ref s m1 e1 m2 e2) <= v)).
Proof.
  intros He Hfin.
  pose proof (quotient_mantissa m1 e1 m2 e2 He) as H. cbv zeta in H.
  destruct H as (Hlo & Hsh & Hq & HM & Hc & Hc0 & Hn & Hf).
  unfold quotient_ref in *.
  set (e' := div_exponent (Zpos m1) e1 (Zpos m2) e2) in *.
  set (a := Zpos m1 * 2 ^ (e1 - e2 - e')) in *.
  set (c := loc_code (new_location (Zpos m2) (a mod Zpos m2))) in *.
  set (M := 4 * (a / Zpos m2) + c) in *.
  set (n := fexp64 (Zdigits2 (a / Zpos m2) + e') - e') in *.
  destruct (round_ref_shape s M (e' - 2) HM Hfin) as [Hv Hu]. cbv zeta in Hu.
  split; [exact Hv|]. intros -> v Hg.
  assert (Hn2 : fexp64 (Zdigits2 M + (e' - 2)) - (e' - 2) = n + 2)
    by (rewrite Hf; unfold n; lia).
  rewrite Hn2 in Hu.
  replace (n + 2 <=? 0) with false in Hu by (symmetry; apply Z.leb_gt; lia).
  replace (e' - 2 + (n + 2) + 1075) with (e' + n + 1075) in Hu by lia.
  cbn [cond_Zopp] in Hu. rewrite Hu.
  pose proof (pow2_pos _ Hsh) as Hp2.
  assert (Ha : 0 < a) by (unfold a; nia).
  assert (HN : 0 < 2 ^ n) by (apply pow2_pos; lia).
  assert (HQ : M / 2 ^ (n + 2) = a / (Zpos m2 * 2 ^ n)).
  { rewrite Z.pow_add_r by lia. change (2 ^ 2) with 4.
    rewrite (Z.mul_comm (2 ^ n) 4), <- Z.div_div by lia.
    replace (M / 4) with (a / Zpos m2)
      by (unfold M; apply Z.div_unique with c; lia).
    now rewrite Z.div_div by lia. }
  pose proof (rne_bounds M (n + 2) ltac:(lia) ltac:(lia)) as Hr.
  rewrite HQ in Hr.
  replace (Zpos m1 * 2 ^ (e1 - e2 + 1075))
    with (a * 2 ^ (e' + n - n + 1075)).
  2:{ unfold a. rewrite <- Z.mul_assoc, <- Z.pow_add_r by lia. do 2 f_equal. lia. }
  apply ratio_rounded_between; try lia; try assumption.
  - (* an exact quotient is not moved *)
    intros Hex. rewrite <- HQ. apply rne_floor; try lia.
    assert (Hab : a = Zpos m2 * 2 ^ n * (a / (Zpos m2 * 2 ^ n))).
    { pose proof (Z.div_mod a (Zpos m2 * 2 ^ n) ltac:(nia)). lia. }
    assert (Hr0 : a mod Zpos m2 = 0).
    { rewrite Hab. rewrite <- !Z.mul_assoc, Z.mul_comm. apply Z.mod_mul. lia. }
    assert (Hc' : c = 0) by (now apply Hc0).
    assert (Hdiv : a / Zpos m2 = 2 ^ n * (a / (Zpos m2 * 2 ^ n))).
    { rewrite Hab at 1. rewrite <- Z.mul_assoc, Z.mul_comm.
      apply Z.div_mul. lia. }
    unfold M. rewrite Hc', Z.add_0_r, Hdiv.
    rewrite Z.pow_add_r by lia. change (2 ^ 2) with 4.
    replace (4 * (2 ^ n * (a / (Z.pos m2 * 2 ^ n))))
      with ((a / (Z.pos m2 * 2 ^ n)) * (2 ^ n * 4)) by ring.
    apply Z.mod_mul. lia.
  - (* in the normal range the quotient has its 53 bits *)
    intros Hnorm. rewrite <- HQ.
    pose proof (Zdigits2_bounds M HM) as [B1 _].
    pose proof (Zdigits2_pos M HM) as DM.
    assert (Hn53 : n + 2 = Zdigits2 M - 53).
    { rewrite <- Hn2. unfold fexp64 in *. lia. }
    rewrite Hn53.
    apply Z.div_le_lower_bound; [apply pow2_pos; lia|].
    rewrite <- Z.pow_add_r by lia.
    replace (Zdigits2 M - 53 + 52) with (Zdigits2 M - 1) by lia. lia.
Qed.

(** ** Ranks that stay inside the list *)

Lemma round_ref_finite_below s m e :
  0 < m -> Zdigits2 m + e <= 1023 ->
  F64.is_finite (round_ref s m e) = true.
Proof.
  intros Hm Hd. unfold round_ref.
  pose proof (Zdigits2_pos m Hm) as Hd0.
  set (n := fexp64 (Zdigits2 m + e) - e).
  assert (HE : e + n <= 970) by (unfold n, fexp64; lia).
  destruct (Z.leb_spec n 0) as [Hn|Hn].
  - unfold finite_or_inf.
    replace (e + n <=? 971) with true by (symmetry; apply Z.leb_le; lia).
    pose proof (pow2_pos (- n) ltac:(lia)).
    destruct (m * 2 ^ (- n)) eqn:E; try reflexivity; nia.
  - pose proof (rne_bounds m n ltac:(lia) ltac:(lia)) as Hr.
    assert (0 <= m / 2 ^ n) by (apply Z.div_pos; [lia | apply pow2_pos; lia]).
    destruct (Z.eqb_spec (rne m n) 0); [reflexivity|].
    unfold finite_or_inf. destruct (rne m n <? 2 ^ 53).
    + replace (e + n <=? 971) with true by (symmetry; apply Z.leb_le; lia).
      destruct (rne m n) eqn:E; try reflexivity; lia.
    + replace (e + n + 1 <=? 971) with true by (symmetry; apply Z.leb_le; lia).
      reflexivity.
Qed.

Lemma digits_below z e k :
  0 < z -> 0 <= e + 1075 -> 0 <= k + 1075 ->
  z * 2 ^ (e + 1075) < 2 ^ (k + 1075) -> Zdigits2 z + e <= k.
Proof.
  intros Hz He Hk H.
  pose proof (Zdigits2_bounds z Hz) as [B _].
  pose proof (Zdigits2_pos z Hz) as Hd.
  assert (H1 : 2 ^ (Zdigits2 z - 1) * 2 ^ (e + 1075) <= z * 2 ^ (e + 1075))
    by (apply Z.mul_le_mono_nonneg_r; [apply Z.pow_nonneg|]; lia).
  rewrite <- Z.pow_add_r in H1 by lia.
  assert (H2 : Zdigits2 z - 1 + (e + 1075) < k + 1075)
    by (apply (Z.pow_lt_mono_r_iff 2); lia).
  lia.
Qed.

(** The quotient of two floats is finite when the dividend is not too
    large for the divisor. *)
Lemma quotient_finite s m1 e1 m2 e2 :
  -1074 <= e1 - e2 -> Zdigits2 (Zpos m1) + (e1 - e2) <= 1022 ->
  F64.is_finite (quotient_ref s m1 e1 m2 e2) = true.
Proof.
  intros He Hd.
  pose proof (quotient_mantissa m1 e1 m2 e2 He) as H. cbv zeta in H.
  destruct H as (Hlo & Hsh & Hq & HM & Hc & Hc0 & Hn & Hf).
  unfold quotient_ref.
  set (e' := div_exponent (Zpos m1) e1 (Zpos m2) e2) in *.
  set (a := Zpos m1 * 2 ^ (e1 - e2 - e')) in *.
  set (c := loc_code (new_location (Zpos m2) (a mod Zpos m2))) in *.
  set (M := 4 * (a / Zpos m2) + c) in *.
  apply round_ref_finite_below; [exact HM|].
  assert (Ha : 0 < a) by (unfold a; pose proof (pow2_pos _ Hsh); nia).
  assert (Hqa : a / Zpos m2 <= a).
  { apply Z.div_le_upper_bound; [lia|]. nia. }
  assert (HM8 : M < a * 2 ^ 3) by (change (2 ^ 3) with 8; lia).
  assert (Hda : Zdigits2 (a * 2 ^ 3) = Zdigits2 (Zpos m1) + (e1 - e2 - e') + 3).
  { unfold a. rewrite !Zdigits2_shift; try lia; try (pose proof (pow2_pos _ Hsh); nia). }
  pose proof (Zdigits2_mono M (a * 2 ^ 3) HM ltac:(lia)). lia.
Qed.

(** The quotient of two positive floats is at most a float [v] that the
    exact quotient does not exceed, and it is not negative. *)
Lemma quotient_upper m1 e1 m2 e2 v :
  -1074 <= e1 - e2 -> Zdigits2 (Zpos m1) + (e1 - e2) <= 1022 ->
  grid v -> Zpos m1 * 2 ^ (e1 - e2 + 1075) <= v * Zpos m2 ->
  F64.valid (quotient_ref false m1 e1 m2 e2) = true
  /\ F64.is_finite (quotient_ref false m1 e1 m2 e2) = true
  /\ 0 <= units (quotient_ref false m1 e1 m2 e2) <= v.
Proof.
  intros He Hd Hg Hv.
  pose proof (quotient_finite false m1 e1 m2 e2 He Hd) as Hf.
  destruct (quotient_between false m1 e1 m2 e2 He Hf) as [Hval Hb].
  specialize (Hb eq_refl).
  split; [exact Hval|]. split; [exact Hf|]. split.
  - assert (G0 : grid 0) by (exists 0, 0; cbn; lia).
    apply (proj1 (Hb 0 G0)).
    pose proof (pow2_pos (e1 - e2 + 1075) ltac:(lia)). nia.
  - now apply (proj2 (Hb v Hg)).
Qed.

(** A finite float in canonical form that is not negative. *)
Lemma nonneg_shape (x : float) :
  F64.valid x = true -> F64.is_finite x = true -> 0 <= units x ->
  (exists s, x = S754_zero s) \/ (exists m e, x = S754_finite false m e).
Proof.
  destruct x as [s|s| |s m e]; try discriminate; intros V _ H.
  - left. now exists s.
  - right. destruct s; [|now exists m, e].
    apply valid_finite_inv in V as (He & _).
    pose proof (pow2_pos (e + 1075) ltac:(lia)).
    cbn [units cond_Zopp] in H. nia.
Qed.

Lemma trunc_units (x : float) :
  F64.valid x = true -> 0 <= units x -> F64.trunc x = units x / 2 ^ 1075.
Proof.
  intros V H. destruct x as [s|s| |s m e]; try reflexivity.
  pose proof (valid_finite_inv _ _ _ V) as (He & _).
  pose proof (pow2_pos (e + 1075) ltac:(lia)) as Hp.
  destruct s; [cbn [units cond_Zopp] in H; nia|].
  cbn [F64.trunc units cond_Zopp].
  destruct (Z_le_gt_dec 0 e) as [Hpos|Hneg].
  - rewrite Z.shiftl_mul_pow2 by lia.
    rewrite Z.pow_add_r, Z.mul_assoc by lia.
    symmetry. apply Z.div_mul. lia.
  - rewrite Z.shiftl_div_pow2 by lia.
    replace 1075 with (e + 1075 + - e) at 2 by lia.
    rewrite (Z.pow_add_r 2 (e + 1075) (- e)) by lia.
    rewrite (Z.mul_comm (2 ^ (e + 1075))).
    symmetry. apply Z.div_mul_cancel_r; [|lia].
    pose proof (pow2_pos (- e) ltac:(lia)). lia.
Qed.

(** The sum of two floats that are not negative does not overflow while
    the exact sum stays below a power of two. *)
Lemma add_finite_below (a b : float) k :
  F64.valid a = true -> F64.valid b = true ->
  F64.is_finite a = true -> F64.is_finite b = true ->
  0 <= units a -> 0 <= units b -> -1075 <= k <= 1023 ->
  units a + units b < 2 ^ (k + 1075) ->
  F64.is_finite (F64.add a b) = true.
Proof.
  intros Va Vb Fa Fb Ha Hb Hk H.
  destruct (nonneg_shape a Va Fa Ha) as [[sa ->] | (ma & ea & ->)];
    destruct (nonneg_shape b Vb Fb Hb) as [[sb ->] | (mb & eb & ->)].
  - destruct sa, sb; reflexivity.
  - reflexivity.
  - reflexivity.
  - rewrite add_finite. cbn [cond_Zopp].
    apply valid_finite_inv in Va as (Hea & _), Vb as (Heb & _).
    set (e := Z.min ea eb) in *.
    assert (He : -1074 <= e) by (unfold e; lia).
    pose proof (pow2_pos (ea - e) ltac:(unfold e; lia)) as Pa.
    pose proof (pow2_pos (eb - e) ltac:(unfold e; lia)) as Pb.
    set (z := Z.pos ma * 2 ^ (ea - e) + Z.pos mb * 2 ^ (eb - e)).
    assert (Hz : 0 < z) by (unfold z; nia).
    destruct z as [|p|p] eqn:Ez; try lia. cbn [normalize_ref].
    apply round_ref_finite_below; [lia|].
    apply (Z.le_trans _ k); [|lia].
    apply digits_below; try lia.
    rewrite <- Ez. unfold z. cbn [units cond_Zopp] in H.
    rewrite Z.mul_add_distr_r, <- !Z.mul_assoc, <- !Z.pow_add_r by (unfold e; lia).
    replace (ea - e + (e + 1075)) with (ea + 1075) by lia.
    replace (eb - e + (e + 1075)) with (eb + 1075) by lia.
    exact H.
Qed.

(** [n - 1 - 2^-k], in units of [2^-1075]. *)
Lemma grid_below n k :
  0 <= k <= 9 -> 2 <= n < 2 ^ 44 -> grid ((2 ^ k * (n - 1) - 1) * 2 ^ (1075 - k)).
Proof.
  intros Hk Hn. exists (2 ^ k * (n - 1) - 1), (- k).
  assert (2 ^ k <= 2 ^ 9) by (apply Z.pow_le_mono_r; lia).
  pose proof (pow2_pos k ltac:(lia)).
  assert (0 <= 2 ^ k * (n - 1) - 1 < 2 ^ 53).
  { change (2 ^ 53) with (2 ^ 9 * 2 ^ 44). nia. }
  repeat split; try lia.
  replace (- k + 1075) with (1075 - k) by lia.
  pose proof (pow2_pos (1075 - k) ltac:(lia)).
  apply Z.abs_eq. nia.
Qed.

Lemma pctpos_int_bounded n z :
  2 <= n < 2 ^ 44 -> 0 <= z <= 99 ->
  exists pos, pctpos n (PInt z) = Ok pos
    /\ F64.valid pos = true /\ F64.is_finite pos = true
    /\ 0 <= units pos <= (2 ^ 7 * (n - 1) - 1) * 2 ^ (1075 - 7).
Proof.
  intros Hn Hz. unfold pctpos. cbn [py_mul bind py_truediv]. unfold int_truediv.
  pose proof (pow2_pos (1075 - 7) ltac:(lia)) as HP.
  destruct ((n - 1) * z) as [|p|p] eqn:E; try nia.
  - exists (S754_zero false). cbn [Z.abs Z.ltb Z.compare xorb].
    repeat split; cbn [units]; nia.
  - cbn [Z.abs Z.ltb Z.compare xorb]. rewrite of_ratio_ref.
    destruct (quotient_upper p 0 100 0 ((2 ^ 7 * (n - 1) - 1) * 2 ^ (1075 - 7)))
      as (V & F & U).
    + lia.
    + apply (Z.le_trans _ 51); [|lia].
      apply digits_below; try lia. rewrite Z.sub_0_r, Z.add_0_l.
      assert (Z.pos p < 2 ^ 51) by (change (2 ^ 51) with (2 ^ 44 * 2 ^ 7); nia).
      rewrite (Z.pow_add_r 2 51 1075) by lia.
      apply Z.mul_lt_mono_pos_r; [apply pow2_pos|]; lia.
    + apply grid_below; lia.
    + rewrite Z.sub_0_r, Z.add_0_l.
      replace 1075 with (7 + (1075 - 7)) at 1 by lia.
      rewrite (Z.pow_add_r 2 7) by lia.
      rewrite <- E. change (2 ^ 7) with 128. nia.
    + rewrite F. exists (quotient_ref false p 0 100 0). auto.
Qed.

Lemma units_ninety_nine : units ninety_nine = 99 * 2 ^ 1075.
Proof. vm_compute. reflexivity. Qed.

Lemma ninety_nine_valid :
  F64.valid ninety_nine = true /\ F64.is_finite ninety_nine = true.
Proof. split; reflexivity. Qed.

(** A float from zero to 99: a zero, or a positive number of at most
    [99 * 2^1075] units. *)
Lemma at_most_99_shape (f : float) :
  F64.valid f = true -> F64.leb zero f = true -> F64.leb f ninety_nine = true ->
  (exists s, f = S754_zero s)
  \/ (exists m e, f = S754_finite false m e
        /\ Zpos m * 2 ^ (e + 1075) <= 99 * 2 ^ 1075).
Proof.
  intros V H0 H99. destruct f as [s|s| |s m e].
  - left. now exists s.
  - destruct s; [discriminate H0 | discriminate H99].
  - discriminate H0.
  - right. destruct s; [discriminate H0|].
    exists m, e. split; [reflexivity|].
    destruct ninety_nine_valid as [V9 F9].
    rewrite (leb_units _ _ V V9 eq_refl F9) in H99.
    apply Z.leb_le in H99. rewrite units_ninety_nine in H99. exact H99.
Qed.

Lemma div_zero_hundred s : F64.div (S754_zero s) hundred = S754_zero s.
Proof. destruct s; reflexivity. Qed.

Lemma hundred_mantissa : Zpos 7036874417766400 = 100 * 2 ^ 46.
Proof. reflexivity. Qed.

Lemma pctpos_float_bounded n (f : float) :
  2 <= n < 2 ^ 44 -> F64.valid f = true ->
  F64.leb zero f = true -> F64.leb f ninety_nine = true ->
  exists pos, pctpos n (PFloat f) = Ok pos
    /\ F64.valid pos = true /\ F64.is_finite pos = true
    /\ 0 <= units pos <= (2 ^ 7 * (n - 1) - 1) * 2 ^ (1075 - 7).
Proof.
  intros Hn V H0 H99. unfold pctpos.
  cbn [py_mul to_float bind]. rewrite float_of_int_small by lia.
  cbn [bind py_truediv to_float].
  change (float_of_int 100) with (Ok hundred). cbn [bind].
  rewrite float_truediv_hundred.
  pose proof (pow2_pos (1075 - 7) ltac:(lia)) as HP.
  assert (Hcap : 0 <= (2 ^ 7 * (n - 1) - 1) * 2 ^ (1075 - 7))
    by (change (2 ^ 7) with 128; nia).
  rewrite of_Z_pos by lia.
  assert (Rn : representable (n - 1) 0) by (apply repr_int; lia).
  destruct (at_most_99_shape f V H0 H99) as [[s ->] | (m & e & -> & Hle)].
  - destruct (round_ref_repr false (n - 1) 0 Rn) as (p & E & -> & _).
    exists (S754_zero s). split; [now destruct s|].
    repeat split; cbn [units]; lia.
  - pose proof (valid_finite_inv _ _ _ V) as (He & Hd & _).
    rewrite <- (round_ref_valid false m e V).
    rewrite mul_exact by (try assumption; eapply repr_valid; eassumption).
    cbn [xorb Z.add].
    set (M := (n - 1) * Z.pos m).
    assert (HM : 0 < M) by (unfold M; nia).
    pose proof (pow2_pos (e + 1075) ltac:(lia)) as Pe.
    pose proof (pow2_pos 1075 ltac:(lia)) as P0.
    assert (HMle : M * 2 ^ (e + 1075) <= 99 * (n - 1) * 2 ^ 1075)
      by (unfold M; nia).
    assert (Hft : F64.is_finite (round_ref false M e) = true).
    { apply round_ref_finite_below; [exact HM|].
      apply (Z.le_trans _ 51); [|lia].
      apply digits_below; lia. }
    destruct (round_ref_between false M e HM ltac:(lia) Hft) as [Vt Bt].
    cbn [cond_Zopp] in Bt.
    assert (G0 : grid 0) by (exists 0, 0; cbn; lia).
    assert (G99 : grid (99 * (n - 1) * 2 ^ 1075)).
    { exists (99 * (n - 1)), 0. repeat split; lia. }
    assert (Ut : 0 <= units (round_ref false M e) <= 99 * (n - 1) * 2 ^ 1075).
    { split.
      - apply (proj1 (Bt 0 G0)). rewrite Z.pow_0_r. nia.
      - apply (proj2 (Bt _ G99)). rewrite Z.pow_0_r. lia. }
    destruct (nonneg_shape _ Vt Hft (proj1 Ut)) as [[st Et] | (mt & et & Et)];
      rewrite Et in *.
    + rewrite div_zero_hundred. exists (S754_zero st).
      repeat split; cbn [units]; lia.
    + cbn [units cond_Zopp] in Ut.
      pose proof (valid_finite_inv _ _ _ Vt) as (Het & _).
      pose proof (pow2_pos (et + 1075) ltac:(lia)) as Pt.
      change hundred with (S754_finite false 7036874417766400 (-46)).
      rewrite div_finite_ref by lia. cbn [xorb].
      destruct (quotient_upper mt et 7036874417766400 (-46)
                  ((2 ^ 7 * (n - 1) - 1) * 2 ^ (1075 - 7))) as (Vq & Fq & Uq).
      * lia.
      * assert (Zdigits2 (Z.pos mt) + et <= 51); [|lia].
        apply digits_below; lia.
      * apply grid_below; lia.
      * rewrite hundred_mantissa.
        replace (et - -46 + 1075) with (et + 1075 + 46) by lia.
        rewrite (Z.pow_add_r 2 (et + 1075) 46) by lia.
        assert (Hc : Z.pos mt * 2 ^ (et + 1075)
                     <= (2 ^ 7 * (n - 1) - 1) * 2 ^ (1075 - 7) * 100).
        { replace (2 ^ 1075) with (2 ^ 7 * 2 ^ (1075 - 7)) in Ut
            by (rewrite <- Z.pow_add_r by lia; f_equal).
          change (2 ^ 7) with 128 in *. nia. }
        pose proof (pow2_pos 46 ltac:(lia)). nia.
      * eexists. split; [reflexivity|]. auto.
Qed.

Lemma units_prec : 0 < units prec < 2 ^ (1075 - 8).
Proof. split; reflexivity. Qed.

Lemma prec_valid : F64.valid prec = true /\ F64.is_finite prec = true.
Proof. split; reflexivity. Qed.

Lemma int_of_float_finite (x : float) :
  F64.is_finite x = true -> int_of_float x = Ok (F64.trunc x).
Proof. destruct x; try discriminate; reflexivity. Qed.

(** A rank of at most [n - 1 - 1/128] gives an index of at most
    [n - 2]. *)
Lemma pctposi_below n (pos : float) :
  2 <= n < 2 ^ 44 ->
  F64.valid pos = true -> F64.is_finite pos = true ->
  0 <= units pos <= (2 ^ 7 * (n - 1) - 1) * 2 ^ (1075 - 7) ->
  exists i, pctposi pos = Ok i /\ 0 <= i <= n - 2.
Proof.
  intros Hn V F U. unfold pctposi.
  destruct prec_valid as [Vp Fp]. pose proof units_prec as Up.
  pose proof (pow2_pos (1075 - 8) ltac:(lia)) as P8.
  assert (E7 : 2 ^ (1075 - 7) = 2 * 2 ^ (1075 - 8))
    by (rewrite <- (Z.pow_succ_r 2) by lia; f_equal).
  assert (E0 : 2 ^ 1075 = 2 ^ 8 * 2 ^ (1075 - 8))
    by (rewrite <- Z.pow_add_r by lia; f_equal).
  change (2 ^ 7) with 128 in *. change (2 ^ 8) with 256 in *.
  set (Q := 2 ^ (1075 - 8)) in *.
  assert (Hsum : units pos + units prec <= (256 * (n - 1) - 1) * Q) by nia.
  assert (Ff : F64.is_finite (F64.add pos prec) = true).
  { apply (add_finite_below pos prec 44); try assumption; lia. }
  destruct (add_between pos prec V Vp F Fp Ff) as [Va Ba].
  assert (G0 : grid 0) by (exists 0, 0; cbn; lia).
  pose proof (grid_below n 8 ltac:(lia) Hn) as G8.
  change (2 ^ 8) with 256 in G8. fold Q in G8.
  assert (Ua : 0 <= units (F64.add pos prec) <= (256 * (n - 1) - 1) * Q).
  { split.
    - apply (proj1 (Ba 0 G0)). rewrite Z.pow_0_r. lia.
    - apply (proj2 (Ba _ G8)). rewrite Z.pow_0_r. lia. }
  rewrite (int_of_float_finite _ Ff). eexists. split; [reflexivity|].
  rewrite (trunc_units _ Va (proj1 Ua)). rewrite E0. split.
  - apply Z.div_pos; lia.
  - assert (units (F64.add pos prec) / (256 * Q) < n - 1); [|lia].
    apply Z.div_lt_upper_bound; nia.
Qed.

(** An index of at most [n - 2] reads inside the list, with or without
    interpolation. *)
Lemma pctl_ok (arr : list float) i (p : float) :
  0 <= i <= Z.of_nat (List.length arr) - 2 ->
  Z.of_nat (List.length arr) < 2 ^ 53 ->
  exists w x, wgt p i = Ok w /\ pctl arr i w = Ok x.
Proof.
  intros Hi Hlen. unfold wgt. rewrite float_of_int_small by lia. cbn [bind].
  destruct (py_index_ok arr i ltac:(lia)) as (lo & Elo & _).
  destruct (py_index_ok arr (i + 1) ltac:(lia)) as (hi & Ehi & _).
  eexists. unfold pctl. rewrite Elo, Ehi. cbn [bind].
  destruct (F64.ltb _ prec); eexists; split; reflexivity.
Qed.

(** With one item the rank is a zero. *)
Lemma pctpos_one pct :
  valid_num pct -> at_most_99 pct -> exists s, pctpos 1 pct = Ok (S754_zero s).
Proof.
  destruct pct as [z|f]; cbn [valid_num at_most_99].
  - intros _ Hz. exists false. unfold pctpos. cbn [py_mul bind Z.sub Z.add Z.pos_sub Z.mul].
    reflexivity.
  - intros V [H0 H99].
    destruct (at_most_99_shape f V H0 H99) as [[s ->] | (m & e & -> & _)].
    + exists s. destruct s; reflexivity.
    + exists false. reflexivity.
Qed.

Lemma percentile_of_zero arr s : pctposi (S754_zero s) = Ok 0
  /\ wgt (S754_zero s) 0 = Ok (S754_zero s)
  /\ pctl arr 0 (S754_zero s) = py_index arr 0.
Proof. destruct s; repeat split; reflexivity. Qed.

(** The percentile of a list of fewer than [2^44] items, for [pct] from
    0 to 99 or equal to 100: an item of the list or an interpolation,
    never an exception. *)
Theorem percentile_total (arr : list float) pct :
  arr <> [] -> Z.of_nat (List.length arr) < 2 ^ 44 ->
  valid_num pct -> at_most_99 pct \/ is_pct 100 pct ->
  exists p, percentile arr (Z.of_nat (List.length arr)) pct = Ok p.
Proof.
  intros Hne Hlen V [H99 | H100].
  - set (n := Z.of_nat (List.length arr)) in *.
    assert (H1 : 1 <= n) by (unfold n; destruct arr; [congruence | cbn; lia]).
    unfold percentile.
    destruct (Z.eq_dec n 1) as [E1|E1].
    + rewrite E1. destruct (pctpos_one pct V H99) as [s ->]. cbn [bind].
      destruct (percentile_of_zero arr s) as (Ei & Ew & Ep).
      rewrite Ei. cbn [bind]. rewrite Ew. cbn [bind]. rewrite Ep.
      destruct (py_index_ok arr 0 ltac:(fold n; lia)) as (x & -> & _). now exists x.
    + assert (Hn : 2 <= n < 2 ^ 44) by lia.
      assert (Hpos : exists pos, pctpos n pct = Ok pos
                /\ F64.valid pos = true /\ F64.is_finite pos = true
                /\ 0 <= units pos <= (2 ^ 7 * (n - 1) - 1) * 2 ^ (1075 - 7)).
      { destruct pct as [z|f]; cbn [valid_num at_most_99] in *.
        - now apply pctpos_int_bounded.
        - destruct H99. now apply pctpos_float_bounded. }
      destruct Hpos as (pos & -> & Vp & Fp & Up). cbn [bind].
      destruct (pctposi_below n pos Hn Vp Fp Up) as (i & -> & Hi). cbn [bind].
      destruct (pctl_ok arr i pos ltac:(fold n; lia) ltac:(fold n; lia))
        as (w & x & Ew & Ex).
      rewrite Ew. cbn [bind]. rewrite Ex. now exists x.
  - set (n := Z.of_nat (List.length arr)) in *.
    assert (H1 : 1 <= n) by (unfold n; destruct arr; [congruence | cbn; lia]).
    rewrite percentile_100 by (try assumption; lia).
    destruct (py_index_ok arr (n - 1) ltac:(fold n; lia)) as (x & -> & _).
    now exists x.
Qed.

(** ** The whole line *)

Lemma at_most_99_finite pct :
  valid_num pct -> at_most_99 pct \/ is_pct 100 pct ->
  match pct with PInt _ => True | PFloat f => F64.is_finite f = true end.
Proof.
  intros V [H | [-> | ->]]; try exact I; try reflexivity.
  destruct pct as [z|f]; [exact I|]. destruct H as [H0 H99].
  destruct (at_most_99_shape f V H0 H99) as [[s ->] | (m & e & -> & _)];
    reflexivity.
Qed.

Lemma summarize_total (arr : list float) pct :
  arr <> [] -> Z.of_nat (List.length arr) < 2 ^ 44 ->
  valid_num pct -> at_most_99 pct \/ is_pct 100 pct ->
  exists v, summarize (sort arr) (Z.of_nat (List.length arr)) pct = Ok v.
Proof.
  intros Hne Hlen V Hp.
  assert (Hs : sort arr <> []).
  { intros E. apply Hne. apply Permutation_nil. rewrite <- E.
    apply Permutation_sym, sort_permutation. }
  rewrite <- (sort_length arr) in *.
  destruct (percentile_total (sort arr) pct Hs Hlen V Hp) as [p Ep].
  destruct (summarize_ok (sort arr) _ pct p eq_refl) as (lo & m & a & hi & E & _).
  - split; [|lia]. destruct (sort arr); [congruence | cbn; lia].
  - exact Ep.
  - eexists. exact E.
Qed.

Lemma render_total v pct digi machine :
  valid_num pct -> at_most_99 pct \/ is_pct 100 pct -> 0 <= digi <= int_max ->
  exists text, render v pct digi machine = Ok (text ++ line_end)%string.
Proof.
  intros V Hp Hd.
  destruct (pctfmt_ok pct V (at_most_99_finite pct V Hp)) as (label & Hl & Hpl).
  destruct machine.
  - eexists. now apply (render_machine v pct digi label).
  - destruct (py_gt_int pct 50) eqn:G; eexists.
    + now apply (render_high v pct digi label).
    + now apply (render_low v pct digi label).
Qed.

(** ** Floats read from text are in canonical form *)

Lemma round_ref_canonical s m e : 0 < m -> F64.valid (round_ref s m e) = true.
Proof.
  intros Hm. destruct (F64.is_finite (round_ref s m e)) eqn:F.
  - now apply round_ref_shape.
  - destruct (round_ref s m e); try reflexivity; discriminate F.
Qed.

Lemma of_ratio_canonical s p q : F64.valid (F64.of_ratio s p q) = true.
Proof.
  rewrite of_ratio_ref.
  pose proof (quotient_mantissa p 0 q 0 ltac:(lia)) as H. cbv zeta in H.
  destruct H as (_ & _ & _ & HM & _). unfold quotient_ref.
  apply round_ref_canonical, HM.
Qed.

Lemma float_of_decimal_canonical s n k : F64.valid (float_of_decimal s n k) = true.
Proof.
  unfold float_of_decimal. destruct n; try reflexivity.
  destruct k; apply of_ratio_canonical.
Qed.

Lemma float_of_string_canonical t (x : float) :
  float_of_string t = Ok x -> F64.valid x = true.
Proof.
  unfold float_of_string.
  destruct (drop_underscores _ _) as [cs|]; [|discriminate].
  destruct (take_sign cs) as [sg body].
  destruct (_ || _).
  { intros H; inversion H; reflexivity. }
  destruct (String.eqb _ "nan").
  { intros H; inversion H; reflexivity. }
  destruct (parse_decimal body) as [[n k]|]; [|discriminate].
  intros H; inversion H. apply float_of_decimal_canonical.
Qed.

Lemma floats_of_tokens_canonical ts : forall arr,
  floats_of_tokens ts = Ok arr -> canonical arr.
Proof.
  induction ts as [|t ts IH]; cbn [floats_of_tokens]; intros arr H.
  - inversion H. constructor.
  - destruct (float_of_string t) as [x|] eqn:Et; cbn [bind] in H; [|discriminate].
    destruct (floats_of_tokens ts) as [xs|]; cbn [bind] in H; [|discriminate].
    inversion H; subst. constructor.
    + now apply (float_of_string_canonical t).
    + now apply IH.
Qed.

Lemma parse_options_valid n : forall argv o out o',
  (List.length argv <= n)%nat -> valid_num (o_pct o) ->
  parse_options argv o = (out, Ok o') -> valid_num (o_pct o').
Proof.
  induction n as [|n IH]; intros argv o out o' Hn V H.
  { destruct argv; [now inversion H; subst | cbn in Hn; lia]. }
  destruct argv as [|a rest]; [now inversion H; subst|].
  cbn [List.length] in Hn. cbn [parse_options] in H.
  destruct (String.eqb a "-p").
  { destruct rest as [|v rest']; [discriminate|]. cbn [List.length] in Hn.
    destruct (float_of_string v) as [x|] eqn:Ev; [|discriminate].
    apply IH in H; [exact H | lia |].
    cbn [o_pct valid_num]. now apply (float_of_string_canonical v). }
  destruct (String.eqb a "-d").
  { destruct rest as [|v rest']; [discriminate|]. cbn [List.length] in Hn.
    destruct (int_of_string v); [|discriminate].
    apply IH in H; [exact H | lia | exact V]. }
  destruct (String.eqb a "-m"); [apply IH in H; [exact H | lia | exact V]|].
  destruct (percent_format usage_template [AStr a]); discriminate.
Qed.

(** ** The line that is printed *)













(** ** Claims about the driver *)

(** C7, as the specification states it, fails: in the argument list
    [-p abc -x] the token [-x] is no option and is not the value of an
    option, yet no usage message is printed, because converting [abc]
    ends the loop first with a [ValueError]; and in [-x -y] the message
    names [-x], not the unknown token [-y]. *)
Lemma usage_error_counterexample :
  In "-x"%string (option_positions ["-p"; "abc"; "-x"]%string)
  /\ is_option "-x" = false
  /\ main ["-p"; "abc"; "-x"]%string "1 2 3" = (EmptyString, Raise ValueError)
  /\ In "-y"%string (option_positions ["-x"; "-y"]%string)
  /\ is_option "-y" = false
  /\ fst (main ["-x"; "-y"]%string "1 2 3")
     <> (usage "-y" ++ String newline EmptyString)%string.
Proof.
  repeat split; try reflexivity.
  - simpl; auto.
  - simpl; auto.
  - vm_compute. discriminate.
Qed.

(** C7 (amended): when the options before it are read without an
    exception, the first token that is none of [-p], [-d], [-m] makes the
    driver print the usage message naming that token on standard output
    and exit with status 1; and [sys.exit] is reached on no other path:
    whenever [main] ends in [SystemExit], the status is 1 and the output is
    that message for the first unknown token. *)
Theorem unknown_option_usage_error :
  (forall pre o tok post stdin,
      parse_options pre defaults = (EmptyString, Ok o) ->
      is_option tok = false ->
      main (pre ++ tok :: post) stdin
      = ((usage tok ++ String newline EmptyString)%string, Raise (SystemExit 1))
      /\ exit_status (snd (main (pre ++ tok :: post) stdin)) = 1)
  /\ (forall argv stdin c,
      snd (main argv stdin) = Raise (SystemExit c) ->
      c = 1 /\ exists pre o tok post,
        argv = pre ++ tok :: post
        /\ parse_options pre defaults = (EmptyString, Ok o)
        /\ is_option tok = false
        /\ fst (main argv stdin)
           = (usage tok ++ String newline EmptyString)%string).
Proof.
  split.
  - intros pre o tok post stdin Hpre Htok.
    assert (E : main (pre ++ tok :: post) stdin
                = ((usage tok ++ String newline EmptyString)%string,
                   Raise (SystemExit 1))).
    { unfold main.
      rewrite (parse_options_app pre defaults o (tok :: post) Hpre).
      now rewrite parse_options_unknown. }
    split; [exact E | now rewrite E].
  - intros argv stdin c. unfold main.
    destruct (parse_options argv defaults) as [out [o|e]] eqn:Hp.
    + destruct (floats_of_tokens (tokens stdin)) as [arr|e] eqn:Hf.
      * destruct (snd (stats arr (o_pct o) (o_dig o) (o_machine o))) eqn:Hs;
          cbn [snd]; intros E; [discriminate|].
        inversion E; subst.
        now destruct (no_exit_stats arr (o_pct o) (o_dig o) (o_machine o) c).
      * cbn [snd]. intros E; inversion E; subst.
        now destruct (no_exit_floats_of_tokens (tokens stdin) c).
    + simpl. intros E; inversion E; subst.
      destruct (parse_options_exit argv defaults out c Hp)
        as [-> (pre & o' & tok & post & -> & Hpre & Htok & ->)].
      split; [reflexivity|]. now exists pre, o', tok, post.
Qed.

Lemma unknown_option_usage_error_witness :
  main (["-m"; "-d"; "3"]%string ++ "-x"%string :: ["-p"%string]) "1 2"
  = ((usage "-x" ++ String newline EmptyString)%string, Raise (SystemExit 1))
  /\ exit_status (snd (main (["-m"; "-d"; "3"]%string ++ "-x"%string :: ["-p"%string]) "1 2")) = 1.
Proof.
  apply (proj1 unknown_option_usage_error ["-m"; "-d"; "3"]%string
           (Options (PInt 95) 3 true)); reflexivity.
Defined.

(** C10: whatever standard input holds, splitting it gives at least one
    token, so [stats] is never called on an empty list; empty input gives
    the one empty token, which [float] rejects with [ValueError]; the
    failure of [stats] on an empty list, an [IndexError], is therefore out
    of reach of the command line. *)
Theorem tokens_never_empty :
  forall stdin,
    tokens stdin <> []
    /\ floats_of_tokens (tokens stdin) <> Ok []
    /\ tokens EmptyString = [EmptyString]
    /\ floats_of_tokens (tokens EmptyString) = Raise ValueError
    /\ main [] EmptyString = (EmptyString, Raise ValueError)
    /\ forall pct digi machine,
         snd (stats [] pct digi machine) = Raise IndexError.
Proof.
  intros stdin.
  split; [apply split_space_nonempty|].
  split.
  { intros H. apply floats_of_tokens_length in H.
    destruct (tokens stdin) eqn:E; [|discriminate].
    now apply (split_space_nonempty (rstrip_newlines stdin)). }
  do 3 (split; [reflexivity|]).
  intros pct digi machine. reflexivity.
Qed.

(** ** Claims about sorting in place *)

(** C9: a second call of [stats] on the list that a first call has
    sorted in place does what the first call did: it leaves the same list
    and writes the same line (or raises the same exception). *)
Theorem stats_twice_same_output :
  forall arr pct digi machine,
    stats (fst (stats arr pct digi machine)) pct digi machine
    = stats arr pct digi machine.
Proof.
  intros arr pct digi machine. unfold stats. cbn [fst].
  now rewrite sort_idempotent, sort_length.
Qed.

(** ** Claims about the percentile *)

Lemma length_pos (arr : list float) : arr <> [] -> 0 < Z.of_nat (List.length arr).
Proof. destruct arr; [congruence | cbn; lia]. Qed.




(** C3: for a list that is not empty, with [pct = 100] the rank is
    exactly [count - 1], the index is [count - 1], the weight is zero, the
    branch [abs(wgt) < prec] is taken, and [pctl] is the last item:
    nothing is read outside the list.  The count is taken below
    360287970189641 ([25 * (count - 1) < 2^53]), where the product
    [(count - 1) * 100.0] is exact; the pointers alone of a longer list
    would fill more than two pebibytes. *)
Theorem no_interpolation_at_100 :
  forall arr pct,
    arr <> [] -> 25 * (Z.of_nat (List.length arr) - 1) < 2 ^ 53 ->
    is_pct 100 pct ->
    let aln := Z.of_nat (List.length arr) in
    pctpos aln pct = Ok (F64.of_Z (aln - 1))
    /\ pctposi (F64.of_Z (aln - 1)) = Ok (aln - 1)
    /\ wgt (F64.of_Z (aln - 1)) (aln - 1) = Ok zero
    /\ F64.ltb (F64.abs zero) prec = true
    /\ exists x,
         py_index (sort arr) (aln - 1) = Ok x
         /\ pctl (sort arr) (aln - 1) zero = Ok x
         /\ percentile (sort arr) aln pct = Ok x.
Proof.
  intros arr pct Hne Hb Hp aln. pose proof (length_pos arr Hne) as Hn. fold aln in Hn, Hb.
  assert (Hx : exists x, py_index (sort arr) (aln - 1) = Ok x).
  { destruct (py_index_ok (sort arr) (aln - 1)) as (x & Hx & _).
    - rewrite sort_length. fold aln. lia.
    - now exists x. }
  destruct Hx as (x & Hx).
  assert (Hrest : F64.ltb (F64.abs zero) prec = true
                  /\ exists x, py_index (sort arr) (aln - 1) = Ok x
                     /\ pctl (sort arr) (aln - 1) zero = Ok x
                     /\ percentile (sort arr) aln pct = Ok x).
  { split; [reflexivity|]. exists x. repeat split; [assumption | |].
    - now rewrite pctl_zero.
    - now rewrite percentile_100 by (auto; lia). }
  destruct (Z.eq_dec aln 1) as [E1|N1].
  - rewrite E1 in *. repeat split; try apply Hrest.
    destruct Hp as [-> | ->]; reflexivity.
  - repeat split; try apply Hrest.
    + rewrite (is_pct_rank 100 0 pct aln) by (auto; lia).
      now rewrite of_Z_pos by lia.
    + rewrite of_Z_pos, pctposi_rank by (auto; lia).
      change (2 ^ (- 0)) with 1. now rewrite Z.div_1_r.
    + rewrite of_Z_pos by lia.
      replace (aln - 1) with ((aln - 1) / 2 ^ (- 0)) at 2
        by (change (2 ^ (- 0)) with 1; now rewrite Z.div_1_r).
      rewrite wgt_rank by (auto; lia). now rewrite wgt_value by auto.
Qed.

Lemma no_interpolation_at_100_witness :
  let aln := Z.of_nat (List.length [two; one; two]) in
  pctpos aln (PFloat hundred) = Ok (F64.of_Z (aln - 1))
  /\ pctposi (F64.of_Z (aln - 1)) = Ok (aln - 1)
  /\ wgt (F64.of_Z (aln - 1)) (aln - 1) = Ok zero
  /\ F64.ltb (F64.abs zero) prec = true
  /\ exists x,
       py_index (sort [two; one; two]) (aln - 1) = Ok x
       /\ pctl (sort [two; one; two]) (aln - 1) zero = Ok x
       /\ percentile (sort [two; one; two]) aln (PFloat hundred) = Ok x.
Proof.
  apply (no_interpolation_at_100 [two; one; two] (PFloat hundred)).
  - discriminate.
  - cbn. lia.
  - right. reflexivity.
Defined.

(** C4: for a list that is not empty, the summary for [pct = 0] has the
    minimum, the first item of the sorted list, as its percentile value,
    and the summary for [pct = 100] has the maximum, the last item.  The
    count is taken below [2^53], and for [pct = 100] below
    360287970189641 ([25 * (count - 1) < 2^53]), where the rank is exact;
    no list that a process can hold is that long. *)
Theorem percentile_0_min_100_max :
  forall arr pct,
    arr <> [] -> Z.of_nat (List.length arr) < 2 ^ 53 ->
    is_pct_zero pct \/ is_pct 100 pct ->
    (is_pct 100 pct -> 25 * (Z.of_nat (List.length arr) - 1) < 2 ^ 53) ->
    exists v,
      summarize (sort arr) (Z.of_nat (List.length arr)) pct = Ok v
      /\ py_index (sort arr) 0 = Ok (s_min v)
      /\ py_index (sort arr) (Z.of_nat (List.length arr) - 1) = Ok (s_max v)
      /\ (is_pct_zero pct -> s_pctl v = s_min v)
      /\ (is_pct 100 pct -> s_pctl v = s_max v).
Proof.
  intros arr pct Hne Hlt Hp Hb. pose proof (length_pos arr Hne) as Hn.
  set (aln := Z.of_nat (List.length arr)) in *.
  assert (Hlen : aln = Z.of_nat (List.length (sort arr))) by (now rewrite sort_length).
  destruct (py_index_ok (sort arr) 0 ltac:(lia)) as (lo & Hlo & _).
  destruct (py_index_ok (sort arr) (aln - 1) ltac:(lia)) as (hi & Hhi & _).
  assert (Hperc : exists p, percentile (sort arr) aln pct = Ok p
                    /\ (is_pct_zero pct -> p = lo) /\ (is_pct 100 pct -> p = hi)).
  { destruct Hp as [Hz | Hh].
    - exists lo. rewrite percentile_0 by (auto; lia). repeat split; auto.
      intros Hh. destruct Hz as [-> | [s ->]], Hh as [E | E]; try discriminate;
        inversion E as [Es]; destruct s; discriminate.
    - exists hi. rewrite percentile_100 by (auto; lia). repeat split; auto.
      intros Hz. destruct Hz as [-> | [s ->]], Hh as [E | E]; try discriminate;
        inversion E as [Es]; destruct s; discriminate. }
  destruct Hperc as (p & Hp' & Hp0 & Hp100).
  destruct (summarize_ok (sort arr) aln pct p Hlen ltac:(lia) Hp')
    as (lo' & m & a & hi' & Hs & Hlo' & Hhi' & _).
  rewrite Hlo in Hlo'. rewrite Hhi in Hhi'. inversion Hlo'; inversion Hhi'; subst lo' hi'.
  exists (Summary aln lo m a p hi). cbn. repeat split; auto.
Qed.

Lemma percentile_0_min_100_max_witness :
  exists v,
    summarize (sort [two; one; two]) (Z.of_nat (List.length [two; one; two]))
      (PFloat hundred) = Ok v
    /\ py_index (sort [two; one; two]) 0 = Ok (s_min v)
    /\ py_index (sort [two; one; two]) (Z.of_nat (List.length [two; one; two]) - 1)
       = Ok (s_max v)
    /\ (is_pct_zero (PFloat hundred) -> s_pctl v = s_min v)
    /\ (is_pct 100 (PFloat hundred) -> s_pctl v = s_max v).
Proof.
  apply (percentile_0_min_100_max [two; one; two] (PFloat hundred)).
  - discriminate.
  - reflexivity.
  - right. right. reflexivity.
  - intros _. reflexivity.
Defined.

(** C5 (amended): for a list that is not empty and has at most
    360287970189640 items, with [pct = 50]: when the count is odd, the
    percentile value and the median are both the item at [count // 2];
    when the count is even, the median is
    [(arr[count//2 - 1] + arr[count//2]) / 2.0], the percentile value is
    [arr[count//2] * 0.5 + arr[count//2 - 1] * 0.5], and the two are
    equal when each of the two items is a zero or at least [2^-1021] in
    magnitude and their sum does not overflow. *)
Theorem percentile_50_and_median :
  forall arr pct,
    arr <> [] -> 25 * (Z.of_nat (List.length arr) - 1) < 2 ^ 53 ->
    is_pct 50 pct ->
    let aln := Z.of_nat (List.length arr) in
    exists v,
      summarize (sort arr) aln pct = Ok v
      /\ (Z.odd aln = true ->
          py_index (sort arr) (aln / 2) = Ok (s_pctl v) /\ s_med v = s_pctl v)
      /\ (Z.odd aln = false ->
          exists a b,
            py_index (sort arr) (aln / 2 - 1) = Ok a
            /\ py_index (sort arr) (aln / 2) = Ok b
            /\ s_med v = F64.div (F64.add a b) two
            /\ s_pctl v = F64.add (F64.mul b half) (F64.mul a half)
            /\ (halvable a -> halvable b ->
                F64.is_finite (F64.add a b) = true -> s_pctl v = s_med v)).
Proof.
  intros arr pct Hne Hb Hp aln. pose proof (length_pos arr Hne) as Hn.
  fold aln in Hn, Hb.
  assert (Hlen : aln = Z.of_nat (List.length (sort arr))) by (now rewrite sort_length).
  assert (Hdiv : 0 <= aln / 2 < aln).
  { split; [apply Z.div_pos; lia | apply Z.div_lt_upper_bound; lia]. }
  destruct (py_index_ok (sort arr) (aln / 2) ltac:(lia)) as (b & Hb' & _).
  destruct (Z.odd aln) eqn:Ho.
  - assert (Hperc : percentile (sort arr) aln pct = Ok b)
      by (now rewrite percentile_50_odd by (auto; lia)).
    destruct (summarize_ok (sort arr) aln pct b Hlen ltac:(lia) Hperc)
      as (lo & m & a & hi & Hs & _ & _ & Hm & _).
    rewrite med_odd, Hb' in Hm by assumption. inversion Hm; subst m.
    exists (Summary aln lo b a b hi). cbn. repeat split; auto; discriminate.
  - assert (H1 : 1 <= aln / 2).
    { apply Z.div_le_lower_bound; [lia|].
      destruct (Z.eq_dec aln 1) as [E|]; [rewrite E in Ho; discriminate | lia]. }
    destruct (py_index_ok (sort arr) (aln / 2 - 1) ltac:(lia)) as (a & Ha' & _).
    assert (Hperc : percentile (sort arr) aln pct
                    = Ok (F64.add (F64.mul b half) (F64.mul a half))).
    { rewrite percentile_50_even by (auto; lia). now rewrite Hb', Ha'. }
    destruct (summarize_ok (sort arr) aln pct _ Hlen ltac:(lia) Hperc)
      as (lo & m & av & hi & Hs & _ & _ & Hm & _).
    rewrite med_even, Ha', Hb' in Hm by assumption. cbn [bind] in Hm.
    inversion Hm; subst m.
    eexists. split; [exact Hs|]. cbn. split; [discriminate|].
    intros _. exists a, b. do 4 (split; [auto|]).
    intros Ha Hb2 Hf. now apply median_interpolation.
Qed.

Lemma percentile_50_and_median_witness :
  let aln := Z.of_nat (List.length [two; one; two; one]) in
  exists v,
    summarize (sort [two; one; two; one]) aln (PFloat fifty) = Ok v
    /\ (Z.odd aln = true ->
        py_index (sort [two; one; two; one]) (aln / 2) = Ok (s_pctl v)
        /\ s_med v = s_pctl v)
    /\ (Z.odd aln = false ->
        exists a b,
          py_index (sort [two; one; two; one]) (aln / 2 - 1) = Ok a
          /\ py_index (sort [two; one; two; one]) (aln / 2) = Ok b
          /\ s_med v = F64.div (F64.add a b) two
          /\ s_pctl v = F64.add (F64.mul b half) (F64.mul a half)
          /\ (halvable a -> halvable b ->
              F64.is_finite (F64.add a b) = true -> s_pctl v = s_med v)).
Proof.
  apply (percentile_50_and_median [two; one; two; one] (PFloat fifty)).
  - discriminate.
  - cbn. lia.
  - right. reflexivity.
Defined.

(** ** Claims about the output line *)

Lemma stats_output arr pct digi machine v :
  summarize (sort arr) (Z.of_nat (List.length arr)) pct = Ok v ->
  snd (stats arr pct digi machine) = render v pct digi machine.
Proof. intros H. unfold stats. cbn [snd]. now rewrite H. Qed.

(** C2, as the specification states it, fails on its example: for the
    input [10 20 30 40] with [-m] the percentile field is [38.50]
    (40 * 0.85 + 30 * 0.15), not [39.00]. *)
Lemma machine_example_counterexample :
  fst (main ["-m"%string] "10 20 30 40")
  <> ("4|10.00|25.00|25.00|39.00|40.00" ++ line_end)%string
  /\ fst (main ["-m"%string] "10 20 30 40")
     = ("4|10.00|25.00|25.00|38.50|40.00" ++ line_end)%string.
Proof. split; [vm_compute; discriminate | vm_compute; reflexivity]. Qed.

(** C2 (amended): in machine mode the line is
    [count|min|med|avg|pctval|max], each number but the count with [digi]
    decimals, and no percentile label; a [digi] that is negative or above
    [INT_MAX] is refused with a [ValueError]; for the input [10 20 30 40]
    with [-m] and the defaults the line is
    [4|10.00|25.00|25.00|38.50|40.00]. *)
Theorem machine_mode_line :
  forall arr pct digi v,
    valid_num pct ->
    summarize (sort arr) (Z.of_nat (List.length arr)) pct = Ok v ->
    (0 <= digi <= int_max ->
     snd (stats arr pct digi true) = Ok (machine_line digi v ++ line_end)%string)
    /\ (digi < 0 \/ int_max < digi ->
        snd (stats arr pct digi true) = Raise ValueError)
    /\ main ["-m"%string] "10 20 30 40"
       = (("4|10.00|25.00|25.00|38.50|40.00" ++ line_end)%string, Ok tt).
Proof.
  intros arr pct digi v Hv Hs.
  rewrite (stats_output arr pct digi true v Hs).
  pose proof (summarize_inv _ _ _ _ Hs) as (_ & _ & _ & _ & _ & _ & Hf).
  destruct (pctfmt_ok pct Hv Hf) as (label & Hl & Hp).
  split; [|split].
  - intros Hd. now apply (render_machine v pct digi label).
  - intros Hd. now apply (render_refused v pct digi true label).
  - vm_compute. reflexivity.
Qed.

Lemma machine_mode_line_witness :
  let v := Summary 3 one one (F64.div (F64.of_Z 4) (F64.of_Z 3))
             (F64.add (F64.mul two (F64.sub (F64.of_ratio false 19 10) one))
                (F64.mul one (F64.sub one (F64.sub (F64.of_ratio false 19 10) one))))
             two in
  (0 <= 3 <= int_max ->
   snd (stats [two; one; one] (PInt 95) 3 true)
   = Ok (machine_line 3 v ++ line_end)%string)
  /\ (3 < 0 \/ int_max < 3 ->
      snd (stats [two; one; one] (PInt 95) 3 true) = Raise ValueError)
  /\ main ["-m"%string] "10 20 30 40"
     = (("4|10.00|25.00|25.00|38.50|40.00" ++ line_end)%string, Ok tt).
Proof.
  intros v. apply (machine_mode_line [two; one; one] (PInt 95) 3 v).
  - exact I.
  - vm_compute. reflexivity.
Defined.

(** C6: in human-readable mode, for every list, percentile and number
    of digits for which [stats] has a summary: [pct > 50] or [pct <= 50];
    the line printed has its fields in the order Num, Min, Med, Avg,
    label, Max if [pct > 50], and in the order Num, Min, label, Med, Avg,
    Max if [pct <= 50]; a [digi] that is negative or above [INT_MAX] is
    refused with a [ValueError], and nothing is printed. *)
Theorem human_mode_order :
  forall arr pct digi v,
    valid_num pct ->
    summarize (sort arr) (Z.of_nat (List.length arr)) pct = Ok v ->
    exists label,
      pctfmt pct = Ok label
      /\ py_le_int pct 50 = negb (py_gt_int pct 50)
      /\ (0 <= digi <= int_max -> py_gt_int pct 50 = true ->
          snd (stats arr pct digi false)
          = Ok (human_line_high digi label v ++ line_end)%string)
      /\ (0 <= digi <= int_max -> py_le_int pct 50 = true ->
          snd (stats arr pct digi false)
          = Ok (human_line_low digi label v ++ line_end)%string)
      /\ (digi < 0 \/ int_max < digi ->
          snd (stats arr pct digi false) = Raise ValueError).
Proof.
  intros arr pct digi v Hv Hs.
  pose proof (summarize_inv _ _ _ _ Hs) as (_ & _ & _ & _ & _ & _ & Hf).
  destruct (pctfmt_ok pct Hv Hf) as (label & Hl & Hp).
  exists label. split; [exact Hl|].
  split; [now apply py_gt_or_le|].
  rewrite (stats_output arr pct digi false v Hs). split; [|split].
  - intros Hd Hgt. now apply render_high.
  - intros Hd Hle. apply render_low; auto. now apply py_le_not_gt.
  - intros Hd. now apply (render_refused v pct digi false label).
Qed.

Lemma human_mode_order_witness :
  let v := Summary 3 one one (F64.div (F64.of_Z 4) (F64.of_Z 3)) one two in
  exists label,
    pctfmt (PFloat fifty) = Ok label
    /\ py_le_int (PFloat fifty) 50 = negb (py_gt_int (PFloat fifty) 50)
    /\ (0 <= 2 <= int_max -> py_gt_int (PFloat fifty) 50 = true ->
        snd (stats [one; two; one] (PFloat fifty) 2 false)
        = Ok (human_line_high 2 label v ++ line_end)%string)
    /\ (0 <= 2 <= int_max -> py_le_int (PFloat fifty) 50 = true ->
        snd (stats [one; two; one] (PFloat fifty) 2 false)
        = Ok (human_line_low 2 label v ++ line_end)%string)
    /\ (2 < 0 \/ int_max < 2 ->
        snd (stats [one; two; one] (PFloat fifty) 2 false) = Raise ValueError).
Proof.
  intros v. apply (human_mode_order [one; two; one] (PFloat fifty) 2 v).
  - reflexivity.
  - vm_compute. reflexivity.
Defined.

(** ** Claims that compare the statistics *)

(** C5, as the specification states it, fails: for the two items
    [1e308 1e308] and [pct = 50] the median [(a + b) / 2.0] overflows to
    infinity while the percentile value [b * 0.5 + a * 0.5] is [1e308];
    for the two items [5e-324 5e-324] the median is [5e-324] while the
    percentile value is [0.0], each half having underflowed. *)
Lemma percentile_50_overflow_counterexample :
  floats_of_tokens (tokens "1e308 1e308") = Ok [e308; e308]
  /\ summarize (sort [e308; e308]) 2 (PFloat fifty)
     = Ok (Summary 2 e308 (S754_infinity false) (S754_infinity false) e308 e308)
  /\ F64.eqb e308 (S754_infinity false) = false
  /\ floats_of_tokens (tokens "5e-324 5e-324") = Ok [tiny; tiny]
  /\ summarize (sort [tiny; tiny]) 2 (PFloat fifty)
     = Ok (Summary 2 tiny tiny tiny zero tiny)
  /\ F64.eqb zero tiny = false.
Proof. repeat split; vm_compute; reflexivity. Qed.

(** C8, as the specification states it, fails: for the three items
    [0.1 0.1 0.1] the mean is [0.10000000000000002], above the maximum
    [0.1]; for the two items [1e308 1e308] the median and the mean are
    infinite. *)
Lemma mean_above_max_counterexample :
  floats_of_tokens (tokens "0.1 0.1 0.1") = Ok [tenth; tenth; tenth]
  /\ summarize (sort [tenth; tenth; tenth]) 3 (PInt 95)
     = Ok (Summary 3 tenth tenth (S754_finite false 7205759403792795 (-56))
             tenth tenth)
  /\ F64.leb (S754_finite false 7205759403792795 (-56)) tenth = false
  /\ summarize (sort [e308; e308]) 2 (PInt 95)
     = Ok (Summary 2 e308 (S754_infinity false) (S754_infinity false) e308 e308)
  /\ F64.leb (S754_infinity false) e308 = false.
Proof. repeat split; vm_compute; reflexivity. Qed.

(** C8 (amended): for a list without NaN, whenever [stats] has a
    summary, the minimum is at most the maximum; when the count is odd,
    the median lies between them; when the count is even, below [2^53],
    and the items are floats in canonical form, the median
    [(a + b) / 2.0] lies between them provided the sum [a + b] of the two
    items in the middle does not overflow.  Nothing is said of the mean. *)
Theorem order_of_min_median_max :
  forall arr pct v,
    no_nan arr ->
    summarize (sort arr) (Z.of_nat (List.length arr)) pct = Ok v ->
    let aln := Z.of_nat (List.length arr) in
    F64.leb (s_min v) (s_max v) = true
    /\ (Z.odd aln = true ->
        F64.leb (s_min v) (s_med v) = true
        /\ F64.leb (s_med v) (s_max v) = true)
    /\ (Z.odd aln = false -> canonical arr -> aln < 2 ^ 53 ->
        exists a b,
          py_index (sort arr) (aln / 2 - 1) = Ok a
          /\ py_index (sort arr) (aln / 2) = Ok b
          /\ s_med v = F64.div (F64.add a b) two
          /\ (F64.is_finite (F64.add a b) = true ->
              F64.leb (s_min v) (s_med v) = true
              /\ F64.leb (s_med v) (s_max v) = true)).
Proof.
  intros arr pct v Hn Hs aln.
  pose proof (summarize_inv _ _ _ _ Hs)
    as (_ & Hlo & Hhi & _ & _ & (mid & Hmid & Hm) & _).
  fold aln in Hlo, Hhi, Hmid, Hm.
  split; [|split].
  - apply (sorted_bounds arr (s_min v) (s_max v) (s_max v) Hn Hlo Hhi).
    now apply py_index_in in Hhi.
  - intros Ho. unfold med in Hm. rewrite Zmod_odd, Ho in Hm. cbn in Hm.
    apply (sorted_bounds arr (s_min v) (s_max v) (s_med v) Hn Hlo Hhi).
    now apply py_index_in in Hm.
  - intros Ho Hc Hlt.
    assert (Hpos : 0 < aln).
    { apply py_index_in in Hlo. unfold aln. rewrite <- (sort_length arr).
      destruct (sort arr); [contradiction | cbn [List.length]; lia]. }
    rewrite middle_ok in Hmid by lia. inversion Hmid; subst mid.
    rewrite med_even in Hm by exact Ho.
    destruct (py_index (sort arr) (aln / 2 - 1)) as [a|] eqn:Ea; [|discriminate].
    destruct (py_index (sort arr) (aln / 2)) as [b|] eqn:Eb; [|discriminate].
    cbn [bind] in Hm. inversion Hm as [Em].
    exists a, b. do 3 (split; [reflexivity|]).
    intros Hf. apply (median_even_bounds arr); auto.
    fold aln. apply Z.div_le_lower_bound; [lia|].
    destruct (Z.eq_dec aln 1) as [E|E]; [rewrite E in Ho; discriminate | lia].
Qed.

Lemma order_of_min_median_max_witness :
  let v := Summary 4 one (F64.div (F64.add one two) two)
             (F64.div (F64.of_Z 6) (F64.of_Z 4)) two two in
  let aln := Z.of_nat (List.length [two; one; two; one]) in
  F64.leb (s_min v) (s_max v) = true
  /\ (Z.odd aln = true ->
      F64.leb (s_min v) (s_med v) = true
      /\ F64.leb (s_med v) (s_max v) = true)
  /\ (Z.odd aln = false -> canonical [two; one; two; one] -> aln < 2 ^ 53 ->
      exists a b,
        py_index (sort [two; one; two; one]) (aln / 2 - 1) = Ok a
        /\ py_index (sort [two; one; two; one]) (aln / 2) = Ok b
        /\ s_med v = F64.div (F64.add a b) two
        /\ (F64.is_finite (F64.add a b) = true ->
            F64.leb (s_min v) (s_med v) = true
            /\ F64.leb (s_med v) (s_max v) = true)).
Proof.
  apply (order_of_min_median_max [two; one; two; one] (PFloat hundred)).
  - repeat constructor.
  - vm_compute. reflexivity.
Defined.

(** * Further properties of the code *)

(** ** The list and its order *)

(** X1: [arr.sort()] on line 18 leaves in the caller's list the items it
    had, whatever [stats] then prints or raises, and for a list without
    NaN in ascending order.  (With a NaN, which compares false with
    everything, the order that [list.sort] leaves is not an order of the
    values.) *)
Theorem stats_leaves_list_sorted :
  forall arr pct digi machine,
    Permutation arr (fst (stats arr pct digi machine))
    /\ (no_nan arr -> ascending (fst (stats arr pct digi machine))).
Proof.
  intros arr pct digi machine. unfold stats. cbn [fst].
  split; [apply sort_permutation | intros _; apply sort_ascending].
Qed.

Lemma stats_leaves_list_sorted_witness :
  Permutation [two; one] (fst (stats [two; one] (PInt 95) 2 false))
  /\ ascending (fst (stats [two; one] (PInt 95) 2 false)).
Proof.
  destruct (stats_leaves_list_sorted [two; one] (PInt 95) 2 false) as [P A].
  split; [exact P | apply A; repeat constructor].
Defined.

(** X2: for a list without NaN and without the negative zero, the
    output of [stats] and the list it leaves do not depend on the order
    of the items.  (With both zeros in a list they do: the sort is stable
    and [0.0] and [-0.0] compare equal.) *)
Theorem input_order_irrelevant :
  forall a b pct digi machine,
    Permutation a b -> no_nan a -> no_negative_zero a ->
    stats a pct digi machine = stats b pct digi machine.
Proof.
  intros a b pct digi machine P N Z. unfold stats.
  rewrite (sort_order_independent a b P N Z).
  now rewrite (Permutation_length P).
Qed.

Lemma input_order_irrelevant_witness :
  stats [two; one; two] (PInt 95) 2 true = stats [one; two; two] (PInt 95) 2 true.
Proof.
  apply (input_order_irrelevant [two; one; two] [one; two; two]).
  - apply perm_swap.
  - repeat constructor.
  - repeat constructor; discriminate.
Defined.

(** X3: for a list of one item, a float in canonical form other than
    [-0.0], and any percentile that is finite, the minimum, the median,
    the mean, the percentile value and the maximum are all that item. *)
Theorem single_item_statistics :
  forall (x : float) pct digi machine,
    F64.valid x = true -> x <> S754_zero true ->
    match pct with PInt _ => True | PFloat f => F64.is_finite f = true end ->
    summarize (sort [x]) (Z.of_nat (List.length [x])) pct
    = Ok (Summary 1 x x x x x)
    /\ snd (stats [x] pct digi machine)
       = render (Summary 1 x x x x x) pct digi machine.
Proof.
  intros x pct digi machine V Hx Hp.
  pose proof (summarize_one_item x pct V Hx Hp) as H.
  split; [exact H|]. unfold stats. cbn [snd].
  change (Z.of_nat (List.length [x])) with 1. now rewrite H.
Qed.

Lemma single_item_statistics_witness :
  summarize (sort [two]) (Z.of_nat (List.length [two])) (PFloat hundred)
  = Ok (Summary 1 two two two two two)
  /\ snd (stats [two] (PFloat hundred) 2 false)
     = render (Summary 1 two two two two two) (PFloat hundred) 2 false.
Proof.
  apply (single_item_statistics two (PFloat hundred) 2 false).
  - reflexivity.
  - discriminate.
  - reflexivity.
Defined.

(** X4: whenever [stats] has a summary, its count is the length of the
    list, its minimum and maximum are items of the list, and so is the
    median when the count is odd. *)
Theorem statistics_are_items :
  forall arr pct v,
    summarize (sort arr) (Z.of_nat (List.length arr)) pct = Ok v ->
    s_count v = Z.of_nat (List.length arr)
    /\ In (s_min v) arr /\ In (s_max v) arr
    /\ (Z.odd (Z.of_nat (List.length arr)) = true -> In (s_med v) arr).
Proof.
  intros arr pct v Hs.
  pose proof (summarize_inv _ _ _ _ Hs)
    as (_ & Hlo & Hhi & Hc & _ & (mid & _ & Hm) & _).
  split; [exact Hc|].
  split; [now apply sort_in, (py_index_in _ _ _ Hlo)|].
  split; [now apply sort_in, (py_index_in _ _ _ Hhi)|].
  intros Ho. unfold med in Hm. rewrite Zmod_odd, Ho in Hm. cbn in Hm.
  now apply sort_in, (py_index_in _ _ _ Hm).
Qed.

Lemma statistics_are_items_witness :
  s_count (Summary 1 two two two two two) = Z.of_nat (List.length [two])
  /\ In (s_min (Summary 1 two two two two two)) [two]
  /\ In (s_max (Summary 1 two two two two two)) [two]
  /\ (Z.odd (Z.of_nat (List.length [two])) = true ->
      In (s_med (Summary 1 two two two two two)) [two]).
Proof.
  apply (statistics_are_items [two] (PInt 95)). vm_compute. reflexivity.
Defined.

(** X5: for a list of two items, neither of them [-0.0], the median and
    the mean are the same float: both are [(a + b) / 2]. *)
Theorem two_items_median_is_mean :
  forall (a b : float) pct v,
    no_negative_zero [a; b] ->
    summarize (sort [a; b]) (Z.of_nat (List.length [a; b])) pct = Ok v ->
    s_med v = s_avg v.
Proof.
  intros a b pct v Z Hs.
  assert (Hsort : exists x y, sort [a; b] = [x; y] /\ x <> S754_zero true).
  { unfold sort. cbn [fold_left insert].
    inversion Z as [|? ? Za Zt]; subst. inversion Zt as [|? ? Zb _]; subst.
    destruct (F64.ltb b a); eexists; eexists; split; try reflexivity; assumption. }
  destruct Hsort as (x & y & E & Hx). rewrite E in Hs.
  pose proof (summarize_inv _ _ _ _ Hs) as (_ & _ & _ & _ & Ha & (mid & Hmid & Hm) & _).
  change (Z.of_nat (List.length [a; b])) with 2 in *.
  change (middle 2) with (Ok 1) in Hmid. inversion Hmid; subst mid.
  change (med [x; y] 2 1) with (Ok (F64.div (F64.add x y) two)) in Hm.
  rewrite avg_ok in Ha by lia.
  inversion Hm as [Em]. inversion Ha as [Ea].
  unfold sum. cbn [fold_left].
  replace (F64.add (S754_zero false) x) with x
    by (destruct x as [s| | |]; try reflexivity; destruct s; [congruence | reflexivity]).
  reflexivity.
Qed.

Lemma two_items_median_is_mean_witness :
  s_med (Summary 2 one (F64.div (F64.add one two) two)
           (F64.div (F64.add one two) two) two two)
  = s_avg (Summary 2 one (F64.div (F64.add one two) two)
             (F64.div (F64.add one two) two) two two).
Proof.
  apply (two_items_median_is_mean two one (PFloat hundred)).
  - repeat constructor; discriminate.
  - vm_compute. reflexivity.
Defined.

(** ** The percentile *)

(** X6: a percentile without fraction has the same label whether it is
    the [int] of the default or the [float] that [-p] reads: its digits
    and a percent sign. *)
Theorem integral_percentile_label :
  forall k,
    0 <= k < 2 ^ 53 ->
    pctfmt (PInt k) = Ok (str_of_int k ++ "%")%string
    /\ pctfmt (PFloat (F64.of_Z k)) = Ok (str_of_int k ++ "%")%string.
Proof.
  intros k Hk. split; [|now apply pctfmt_integral].
  unfold pctfmt. cbn [py_int bind py_sub]. rewrite Z.sub_diag.
  cbn [py_abs py_eq_int Z.abs Z.eqb]. now apply percent_i_text.
Qed.

Lemma integral_percentile_label_witness :
  pctfmt (PInt 95) = Ok (str_of_int 95 ++ "%")%string
  /\ pctfmt (PFloat (F64.of_Z 95)) = Ok (str_of_int 95 ++ "%")%string.
Proof. apply (integral_percentile_label 95). lia. Defined.

(** X7: a percentile that is no number is refused after the median and
    the mean are computed, by [int(pctpos + prec)] on line 26: [nan] with
    a [ValueError]; an infinity with an [OverflowError], or, for a list of
    one item, where the rank is [0 * inf], with a [ValueError]. *)
Theorem percentile_not_a_number :
  forall (arr : list float) digi machine,
    arr <> [] -> Z.of_nat (List.length arr) < 2 ^ 53 ->
    snd (stats arr (PFloat S754_nan) digi machine) = Raise ValueError
    /\ forall s,
         snd (stats arr (PFloat (S754_infinity s)) digi machine)
         = Raise (if Z.of_nat (List.length arr) =? 1 then ValueError
                  else OverflowError).
Proof.
  intros arr digi machine Hne Hlt.
  assert (Hs : sort arr <> []).
  { intros E. apply (f_equal (@List.length float)) in E.
    rewrite sort_length in E. destruct arr; [congruence | discriminate]. }
  assert (Hpos : 0 < Z.of_nat (List.length arr))
    by (destruct arr; [congruence | cbn; lia]).
  unfold stats. cbn [snd]. rewrite <- (sort_length arr) in *.
  split; [|intros s].
  - rewrite (summarize_percentile_raises (sort arr) _ ValueError Hs Hlt);
      [reflexivity | apply percentile_nan; lia].
  - pose proof (percentile_infinite (sort arr)
                  (Z.of_nat (List.length (sort arr))) s (conj Hpos Hlt)) as Hp.
    now rewrite (summarize_percentile_raises (sort arr) _ _ Hs Hlt Hp).
Qed.

Lemma percentile_not_a_number_witness :
  snd (stats [one; two] (PFloat S754_nan) 2 false) = Raise ValueError
  /\ forall s,
       snd (stats [one; two] (PFloat (S754_infinity s)) 2 false)
       = Raise (if Z.of_nat (List.length [one; two]) =? 1 then ValueError
                else OverflowError).
Proof.
  apply (percentile_not_a_number [one; two] 2 false).
  - discriminate.
  - cbn. lia.
Defined.

(** ** Exceptions *)

(** X8: [stats] raises nothing but [ValueError], [IndexError] and
    [OverflowError]: in particular it never divides by zero, the mean
    being computed only after the median has been read from a list that
    is not empty. *)
Theorem stats_exceptions :
  forall arr pct digi machine e,
    snd (stats arr pct digi machine) = Raise e -> stats_errors e.
Proof.
  intros arr pct digi machine e H.
  apply (raised_stats stats_errors) in H; auto; unfold stats_errors; auto.
Qed.

Lemma stats_exceptions_witness : stats_errors IndexError.
Proof.
  apply (stats_exceptions [] (PInt 95) 2 false IndexError). reflexivity.
Defined.


(** ** Options *)

(** X10: [-p] or [-d] as the last argument, after options that are read
    without an exception, ends [main] with the [IndexError] of
    [argv[optidx]], before standard input is read. *)
Theorem option_value_missing :
  forall pre o flag stdin,
    parse_options pre defaults = (EmptyString, Ok o) ->
    flag = "-p"%string \/ flag = "-d"%string ->
    main (pre ++ [flag]) stdin = (EmptyString, Raise IndexError).
Proof.
  intros pre o flag stdin Hpre Hflag. apply main_options_raise.
  rewrite (parse_options_app pre defaults o [flag] Hpre).
  now apply parse_options_value_missing.
Qed.

Lemma option_value_missing_witness :
  main (["-m"; "-d"; "3"]%string ++ ["-p"%string]) "1 2 3"
  = (EmptyString, Raise IndexError).
Proof.
  apply (option_value_missing ["-m"; "-d"; "3"]%string (Options (PInt 95) 3 true)).
  - reflexivity.
  - now left.
Defined.

(** X11: the argument after [-p] is converted with [float], the one
    after [-d] with [int], whatever it looks like: if it is a text of
    ASCII characters and the conversion fails, [main] ends with a
    [ValueError] and prints nothing. *)
Theorem option_value_refused :
  forall pre o flag v post stdin,
    parse_options pre defaults = (EmptyString, Ok o) ->
    ascii_text v = true ->
    (flag = "-p"%string /\ exists e, float_of_string v = Raise e)
    \/ (flag = "-d"%string /\ exists e, int_of_string v = Raise e) ->
    main (pre ++ flag :: v :: post) stdin = (EmptyString, Raise ValueError).
Proof.
  intros pre o flag v post stdin Hpre _ Hv. apply main_options_raise.
  rewrite (parse_options_app pre defaults o _ Hpre).
  now apply parse_options_value_refused.
Qed.

Lemma option_value_refused_witness :
  main (["-m"%string] ++ "-p"%string :: "-m"%string :: ["-d"; "2"]%string) "1 2 3"
  = (EmptyString, Raise ValueError).
Proof.
  apply (option_value_refused ["-m"%string] (Options (PInt 95) 2 true)).
  - reflexivity.
  - reflexivity.
  - left. split; [reflexivity|]. exists ValueError. reflexivity.
Defined.

(** X12: when all options are read, machine mode is on exactly when
    [-m] is among the arguments; without [-p] the percentile is the [int]
    95, and without [-d] the number of digits is 2. *)
Theorem options_defaults_and_flag :
  forall argv o,
    parse_options argv defaults = (EmptyString, Ok o) ->
    (o_machine o = true <-> In "-m"%string argv)
    /\ (~ In "-p"%string argv -> o_pct o = PInt 95)
    /\ (~ In "-d"%string argv -> o_dig o = 2).
Proof.
  intros argv o H.
  destruct (parse_options_final _ argv defaults o (Nat.le_refl _) H)
    as (Hm & Hp & Hd).
  cbn [defaults o_machine o_pct o_dig] in *.
  split; [|split]; auto.
  rewrite Hm. split; [intros [?|?]; [discriminate | assumption] | now right].
Qed.

Lemma options_defaults_and_flag_witness :
  (o_machine (Options (PInt 95) 3 true) = true <-> In "-m"%string ["-d"; "3"; "-m"]%string)
  /\ (~ In "-p"%string ["-d"; "3"; "-m"]%string
      -> o_pct (Options (PInt 95) 3 true) = PInt 95)
  /\ (~ In "-d"%string ["-d"; "3"; "-m"]%string
      -> o_dig (Options (PInt 95) 3 true) = 2).
Proof.
  apply (options_defaults_and_flag ["-d"; "3"; "-m"]%string). reflexivity.
Defined.

(** X13: of several [-p] the last one counts, and so for [-d]: when the
    options are all read, the percentile is the [float] of the argument
    after the last [-p] and the number of digits the [int] of the argument
    after the last [-d]. *)
Theorem last_option_value_wins :
  forall pre flag v post o o',
    parse_options (pre ++ flag :: v :: post) defaults = (EmptyString, Ok o') ->
    parse_options pre defaults = (EmptyString, Ok o) ->
    (flag = "-p"%string -> ~ In "-p"%string post ->
     exists x, float_of_string v = Ok x /\ o_pct o' = PFloat x)
    /\ (flag = "-d"%string -> ~ In "-d"%string post ->
        int_of_string v = Ok (o_dig o')).
Proof.
  intros pre flag v post o o' H Hpre.
  exact (parse_options_last pre flag v post o o' H Hpre).
Qed.

Lemma last_option_value_wins_witness :
  ("-d"%string = "-p"%string -> ~ In "-p"%string ["-m"%string] ->
   exists x, float_of_string "7" = Ok x /\ o_pct (Options (PFloat fifty) 7 true) = PFloat x)
  /\ ("-d"%string = "-d"%string -> ~ In "-d"%string ["-m"%string] ->
      int_of_string "7" = Ok (o_dig (Options (PFloat fifty) 7 true))).
Proof.
  apply (last_option_value_wins ["-d"; "3"; "-p"; "50"]%string "-d" "7"
           ["-m"%string] (Options (PFloat fifty) 3 false)); reflexivity.
Defined.

(** ** Standard input *)

(** X14: the tokens of standard input, joined by single spaces, are the
    input without its trailing line feeds; no token holds a space; and
    there is one token more than there are spaces. *)
Theorem tokens_split_and_join :
  forall stdin,
    join_space (tokens stdin) = rstrip_newlines stdin
    /\ Forall (fun w => spaceless w = true) (tokens stdin)
    /\ List.length (tokens stdin) = S (count_spaces (rstrip_newlines stdin)).
Proof.
  intros stdin. unfold tokens.
  split; [apply join_split|]. split; [apply split_spaceless | apply split_length].
Qed.

(** X15: numbers written with single spaces between them and any number
    of line feeds after them are read back as they were written: the
    tokens are the texts that were joined. *)
Theorem joined_numbers_are_the_tokens :
  forall ws k,
    ws <> [] -> Forall (fun w => spaceless w = true) ws ->
    rstrip_newlines (join_space ws) = join_space ws ->
    tokens (join_space ws ++ newlines k) = ws.
Proof.
  intros ws k Hne Hs Hr. unfold tokens.
  rewrite rstrip_newlines_app, Hr. now apply split_join.
Qed.

Lemma joined_numbers_are_the_tokens_witness :
  tokens (join_space ["1.5"; "-2"; "3e4"]%string ++ newlines 2)
  = ["1.5"; "-2"; "3e4"]%string.
Proof.
  apply (joined_numbers_are_the_tokens ["1.5"; "-2"; "3e4"]%string 2).
  - discriminate.
  - repeat constructor.
  - reflexivity.
Defined.

(** X16: line feeds at the end of standard input change nothing. *)
Theorem trailing_newlines_ignored :
  forall argv stdin k,
    main argv (stdin ++ newlines k) = main argv stdin.
Proof.
  intros argv stdin k. unfold main, tokens.
  now rewrite rstrip_newlines_app.
Qed.

(** X17: a token of ASCII characters that [float] does not accept, such
    as the empty token that two adjacent spaces or a space at either end
    leave, ends [main] with a [ValueError] when the options have been
    read, and nothing is printed. *)
Theorem unreadable_token_value_error :
  forall argv o stdin t e,
    parse_options argv defaults = (EmptyString, Ok o) ->
    In t (tokens stdin) -> ascii_text t = true ->
    float_of_string t = Raise e ->
    main argv stdin = (EmptyString, Raise ValueError).
Proof.
  intros argv o stdin t e Hp Hin _ He. unfold main. rewrite Hp.
  now rewrite (floats_of_tokens_refused (tokens stdin) t e Hin He).
Qed.

Lemma unreadable_token_value_error_witness :
  main ["-m"%string] "1  2" = (EmptyString, Raise ValueError).
Proof.
  apply (unreadable_token_value_error ["-m"%string] (Options (PInt 95) 2 true)
           "1  2" EmptyString ValueError).
  - reflexivity.
  - right. left. reflexivity.
  - reflexivity.
  - reflexivity.
Defined.

(** X18: for a list of at least one and fewer than [2^44] items, a
    percentile from 0 to 99 (an [int] or a [float]) or equal to 100, and
    a number of digits from 0 to [INT_MAX], [stats] raises no exception:
    every index it computes lies inside the list, the summary exists and
    one line, ended by a line feed, is printed. *)
Theorem stats_prints_line :
  forall arr pct digi machine,
    arr <> [] -> Z.of_nat (List.length arr) < 2 ^ 44 ->
    valid_num pct -> at_most_99 pct \/ is_pct 100 pct ->
    0 <= digi <= int_max ->
    exists v text,
      summarize (sort arr) (Z.of_nat (List.length arr)) pct = Ok v
      /\ snd (stats arr pct digi machine) = Ok (text ++ line_end)%string.
Proof.
  intros arr pct digi machine Hne Hlen V Hp Hd.
  destruct (summarize_total arr pct Hne Hlen V Hp) as [v Hv].
  destruct (render_total v pct digi machine V Hp Hd) as [text Ht].
  exists v, text. split; [exact Hv|].
  unfold stats. cbn [snd]. rewrite Hv. exact Ht.
Qed.

Lemma stats_prints_line_witness :
  exists v text,
    summarize (sort [two; one]) 2 (PFloat tenth) = Ok v
    /\ snd (stats [two; one] (PFloat tenth) 3 false) = Ok (text ++ line_end)%string.
Proof.
  apply (stats_prints_line [two; one] (PFloat tenth) 3 false).
  - discriminate.
  - reflexivity.
  - reflexivity.
  - left. split; reflexivity.
  - split; [lia | apply Z.leb_le; reflexivity].
Defined.

(** X19: when the options are understood and every token of the input
    reads as a number, there is at least one number; if there are fewer
    than [2^44] of them, the percentile is from 0 to 99 or equal to 100
    and the number of digits from 0 to [INT_MAX], [main] prints one line
    and returns normally. *)
Theorem main_prints_line :
  forall argv stdin out o arr,
    parse_options argv defaults = (out, Ok o) ->
    floats_of_tokens (tokens stdin) = Ok arr ->
    Z.of_nat (List.length arr) < 2 ^ 44 ->
    at_most_99 (o_pct o) \/ is_pct 100 (o_pct o) ->
    0 <= o_dig o <= int_max ->
    arr <> []
    /\ exists text, main argv stdin = ((text ++ line_end)%string, Ok tt).
Proof.
  intros argv stdin out o arr Ho Ha Hlen Hp Hd.
  pose proof (parse_options_silent _ _ _ _ Ho) as ->.
  assert (V : valid_num (o_pct o))
    by (apply (parse_options_valid _ argv defaults EmptyString o (Nat.le_refl _) I Ho)).
  assert (Hne : arr <> []).
  { intros ->. pose proof (floats_of_tokens_length _ _ Ha) as L.
    pose proof (split_space_nonempty (rstrip_newlines stdin)) as N.
    unfold tokens in L. destruct (split_space _); [congruence | discriminate L]. }
  split; [exact Hne|].
  destruct (summarize_total arr (o_pct o) Hne Hlen V Hp) as [v Hv].
  destruct (render_total v (o_pct o) (o_dig o) (o_machine o) V Hp Hd) as [text Ht].
  exists text. unfold main. rewrite Ho, Ha.
  unfold stats. cbn [snd]. rewrite Hv. cbn [bind]. rewrite Ht. reflexivity.
Qed.

Lemma main_prints_line_witness :
  [one; two; F64.of_Z 3] <> []
  /\ exists text,
       main ["-p"%string; "50"%string; "-m"%string] "1 2 3"
       = ((text ++ line_end)%string, Ok tt).
Proof.
  apply (main_prints_line ["-p"%string; "50"%string; "-m"%string] "1 2 3"
           EmptyString (Options (PFloat fifty) 2 true) [one; two; F64.of_Z 3]).
  - reflexivity.
  - reflexivity.
  - reflexivity.
  - left. split; reflexivity.
  - split; apply Z.leb_le; reflexivity.
Defined.
